(** * Viterbi decoding over a discrete hidden Markov model (hmm.cc)

    A shallow embedding of [src/hmm.cc] and the properties its
    specification states about it.

    Conventions of the embedding (the usual 64-bit platform: [size_t] and
    [ptrdiff_t] of 64 bits, a signed 8-bit [char], IEEE-754 [double]).
    - [size_t] is modelled as [N], with the wrap-around written where the
      source relies on it ([HMM_UNDEFINED_STATE = (size_t) -1], the
      conversion of [maxtime - 1] to [ptrdiff_t], and [fromInd + 1]).
    - [double] is binary64, modelled by Rocq's primitive [float]: [*] is
      [PrimFloat.mul] (round to nearest even, each product rounded), [<]
      is [PrimFloat.ltb], and [a > b] is [b < a].
    - [std::vector] is a [list]; [operator[]] out of range is undefined
      behaviour in C++, modelled as [None]: the computation has no result.
    - [std::map<string, size_t>] is a [gmap string N].
    - an input stream is modelled by the tokens [operator>>] extracts from
      it, already split into the groups the reader loops over; the
      extractions themselves are taken to succeed. *)

From stdpp Require Import gmap strings list.
From Stdlib Require Import ZArith NArith Lia Floats.

(* ================================================================== *)
(** * Machine integers and containers *)

Definition SIZE_MAX : N := 18446744073709551615.

(** Conversion of a mathematical integer to [size_t] (reduction modulo 2^64). *)
Definition to_size_t (z : Z) : N := Z.to_N (z mod 18446744073709551616).

(** Conversion of a [size_t] to [ptrdiff_t] (two's complement, 64 bits). *)
Definition to_ptrdiff_t (n : N) : Z :=
  if (Z.of_N n <? 9223372036854775808)%Z then Z.of_N n
  else (Z.of_N n - 18446744073709551616)%Z.

(** Conversion of an [int] to [char] (signed, 8 bits). *)
Definition to_char (z : Z) : Z := ((z + 128) mod 256 - 128)%Z.

(** [v.size()] *)
Definition vec_size {A : Type} (v : list A) : N := N.of_nat (length v).

(** [v[i]] as an rvalue; out of range has no defined result. *)
Definition vec_at {A : Type} (v : list A) (i : N) : option A :=
  if decide (i < vec_size v)%N then v !! N.to_nat i else None.

(** [v[i] = x]; out of range has no defined result. *)
Definition vec_set {A : Type} (v : list A) (i : N) (x : A) : option (list A) :=
  if decide (i < vec_size v)%N then Some (<[N.to_nat i := x]> v) else None.

(** [m[i][j]] as an rvalue. *)
Definition mat_at {A : Type} (m : list (list A)) (i j : N) : option A :=
  row ← vec_at m i; vec_at row j.

(** [m[i][j] = x] *)
Definition mat_set {A : Type} (m : list (list A)) (i j : N) (x : A)
  : option (list (list A)) :=
  row ← vec_at m i; row' ← vec_set row j x; vec_set m i row'.

(** [for (size_t i = start; i < start + count; ++i) body], threading the
    state through a body that may have no defined result. *)
Fixpoint for_loop {S : Type} (count : nat) (i : N)
    (body : N → S → option S) (s : S) : option S :=
  match count with
  | O => Some s
  | Datatypes.S k => s' ← body i s; for_loop k (N.succ i) body s'
  end.

(** [for (size_t i = 0; i < n; ++i) body] *)
Definition for_upto {S : Type} (n : N) (body : N → S → option S) (s : S)
  : option S :=
  for_loop (N.to_nat n) 0%N body s.

(* ================================================================== *)
(** * Exceptions and outcomes of the readers *)

(** The two exception classes the readers raise: [std::domain_error]
    (thrown by [ReadModel] with a message) and [std::out_of_range]
    (thrown by [std::map::at]; its message is left to the library). *)
Inductive exn : Type :=
  | domain_error (what_arg : string)
  | out_of_range.

(** A call returns a value, throws, or has undefined behaviour. *)
Inductive outcome (A : Type) : Type :=
  | Returns (a : A)
  | Throws (e : exn)
  | Undefined.
Arguments Returns {A} a.
Arguments Throws {A} e.
Arguments Undefined {A}.

Definition is_domain_error {A : Type} (o : outcome A) : Prop :=
  ∃ what_arg, o = Throws (domain_error what_arg).

Definition is_lookup_error {A : Type} (o : outcome A) : Prop :=
  o = Throws out_of_range.

(* ================================================================== *)
(** * Namespace HMM::Data *)

Module Data.

(** Modelled from the spec: the declaration of [Model] is in [hmm.h],
    which is not part of the sources at hand.  The fields are the four
    the code reads and writes, with the element types it uses them at. *)
Record Model : Type := {
  stateNameToIndex : gmap string N;
  alphabetSize : N;
  transitionProb : list (list float);
  stateSymbolProb : list (list float)
}.

(** Modelled from the spec: the declaration of [ExperimentData] is in
    [hmm.h]; one tuple (stepNumber, stateIndex, symbolIndex) per step. *)
Record ExperimentData : Type := {
  timeStateSymbol : list (N * N * N)
}.

(** A default-constructed [Model]: empty registry and tables. *)
Definition Model_new : Model :=
  {| stateNameToIndex := ∅; alphabetSize := 0;
     transitionProb := []; stateSymbolProb := [] |}.

Definition ExperimentData_new : ExperimentData := {| timeStateSymbol := [] |}.

(** The tokens [ReadModel] extracts: the state names (preceded in the
    stream by their count), the alphabet size, the transition triples and
    the emission triples (each list preceded by its count). *)
Record ModelSource : Type := {
  src_states : list string;
  src_alphabetSize : N;
  src_transitions : list (string * string * float);
  src_emissions : list (string * string * float)
}.

(** The tokens [ReadExperimentData] extracts: one triple
    (stepNumber, stateName, symbol) per step. *)
Definition DataSource : Type := list (N * string * string).

(** [symbol[0]] as a (signed) [char]; the terminator of an empty string is 0. *)
Definition front (symbol : string) : Z :=
  match symbol with
  | EmptyString => 0%Z
  | String c _ => to_char (Z.of_N (Ascii.N_of_ascii c))
  end.

(** [char symbolToInd(const string& symbol) { return symbol[0] - 'a'; }] *)
Definition symbolToInd (symbol : string) : Z := to_char (front symbol - 97).

(** [std::map::operator[]]: a missing key is inserted with the
    value-initialised [size_t], 0. *)
Definition map_subscript (m : gmap string N) (k : string) : N * gmap string N :=
  match m !! k with
  | Some v => (v, m)
  | None => (0%N, <[k := 0%N]> m)
  end.

(** [std::map::at]: a missing key throws [std::out_of_range]. *)
Definition map_at (m : gmap string N) (k : string) : outcome N :=
  match m !! k with
  | Some v => Returns v
  | None => Throws out_of_range
  end.

(** First loop of [ReadModel]: [stateNameToIndex[stateName] = i]. *)
Fixpoint read_states (names : list string) (i : N) (reg : gmap string N)
  : gmap string N :=
  match names with
  | [] => reg
  | stateName :: rest => read_states rest (N.succ i) (<[stateName := i]> reg)
  end.

(** Second loop of [ReadModel]: the transition triples. *)
Fixpoint read_transitions (nstates : N) (trs : list (string * string * float))
    (reg : gmap string N) (tp : list (list float))
  : outcome (gmap string N * list (list float)) :=
  match trs with
  | [] => Returns (reg, tp)
  | (stateName, targetStateName, prob) :: rest =>
      let '(fromInd, reg1) := map_subscript reg stateName in
      let '(toInd, reg2) := map_subscript reg1 targetStateName in
      if (to_size_t (Z.of_N fromInd + 1) =? nstates)%N then
        Throws (domain_error "Transition from the ending state is forbidden")
      else if (toInd =? 0)%N then
        Throws (domain_error "Transition to the starting state is forbidden")
      else
        match mat_set tp fromInd toInd prob with
        | Some tp' => read_transitions nstates rest reg2 tp'
        | None => Undefined
        end
  end.

(** Third loop of [ReadModel]: the emission triples. *)
Fixpoint read_emissions (nstates : N) (ems : list (string * string * float))
    (reg : gmap string N) (sp : list (list float))
  : outcome (gmap string N * list (list float)) :=
  match ems with
  | [] => Returns (reg, sp)
  | (stateName, symbol, prob) :: rest =>
      let '(stateInd, reg1) := map_subscript reg stateName in
      let symbolInd := to_size_t (symbolToInd symbol) in
      if (stateInd =? 0)%N || (to_size_t (Z.of_N stateInd + 1) =? nstates)%N then
        Throws (domain_error
          "Symbol emission from the beginning or the ending states is forbidden")
      else
        match mat_set sp stateInd symbolInd prob with
        | Some sp' => read_emissions nstates rest reg1 sp'
        | None => Undefined
        end
  end.

(** [void Model::ReadModel(std::istream& modelSource)], on the object [self]. *)
Definition ReadModel (self : Model) (modelSource : ModelSource) : outcome Model :=
  let nstates := vec_size (src_states modelSource) in
  let reg0 := read_states (src_states modelSource) 0 (stateNameToIndex self) in
  let asize := src_alphabetSize modelSource in
  let tp0 := replicate (N.to_nat nstates) (replicate (N.to_nat nstates) 0%float) in
  match read_transitions nstates (src_transitions modelSource) reg0 tp0 with
  | Returns (reg1, tp) =>
      let sp0 := replicate (N.to_nat nstates) (replicate (N.to_nat asize) 0%float) in
      match read_emissions nstates (src_emissions modelSource) reg1 sp0 with
      | Returns (reg2, sp) =>
          Returns {| stateNameToIndex := reg2; alphabetSize := asize;
                     transitionProb := tp; stateSymbolProb := sp |}
      | Throws e => Throws e
      | Undefined => Undefined
      end
  | Throws e => Throws e
  | Undefined => Undefined
  end.

(** The loop of [ReadExperimentData]. *)
Fixpoint read_steps (reg : gmap string N) (steps : DataSource)
    (tss : list (N * N * N)) : outcome (list (N * N * N)) :=
  match steps with
  | [] => Returns tss
  | (stepNumber, stateName, symbol) :: rest =>
      match map_at reg stateName with
      | Returns stateInd =>
          let symbolInd := to_size_t (symbolToInd symbol) in
          read_steps reg rest (tss ++ [(stepNumber, stateInd, symbolInd)])
      | Throws e => Throws e
      | Undefined => Undefined
      end
  end.

(** [void ExperimentData::ReadExperimentData(const Model&, std::istream&)] *)
Definition ReadExperimentData (self : ExperimentData) (model : Model)
    (dataSource : DataSource) : outcome ExperimentData :=
  match read_steps (stateNameToIndex model) dataSource (timeStateSymbol self) with
  | Returns tss => Returns {| timeStateSymbol := tss |}
  | Throws e => Throws e
  | Undefined => Undefined
  end.

(** The index [operator[]] resolves a name to while [ReadModel] runs: the
    index of its last declaration, or 0 for a name never declared. *)
Definition resolve (self : Model) (modelSource : ModelSource) (name : string) : N :=
  default 0%N (read_states (src_states modelSource) 0 (stateNameToIndex self) !! name).

End Data.

(* ================================================================== *)
(** * Namespace HMM::Algorithms *)

Module Algorithms.
Import Data.

Definition HMM_BEGIN_STATE_PROBABILITY : float := 1%float.
Definition HMM_UNDEFINED_STATE : N := to_size_t (-1).

(** [CalcNewStateProbability] *)
Definition CalcNewStateProbability (stepNumber prevState curState curSymbol : N)
    (model : Model) (sequenceProbability : list (list float)) : option float :=
  prevProbability ←
    (if (stepNumber =? 0)%N && (prevState =? 0)%N then Some 1%float
     else if (stepNumber =? 0)%N && negb (prevState =? 0)%N then Some 0%float
     else mat_at sequenceProbability (stepNumber - 1) prevState);
  tp ← mat_at (transitionProb model) prevState curState;
  ep ← mat_at (stateSymbolProb model) curState curSymbol;
  Some (prevProbability * tp * ep)%float.

(** The body of the scan of [FindBestTransitionSource], on the pair
    [(bestProbValue, bestPrevState)]. *)
Definition scan_step (score : N → option float) (prevState : N)
    (best : float * N) : option (float * N) :=
  curProb ← score prevState;
  Some (if (best.1 <? curProb)%float then (curProb, prevState) else best).

(** [FindBestTransitionSource] *)
Definition FindBestTransitionSource (stepNumber curState curSymbol : N)
    (model : Model) (sequenceProbability : list (list float)) : option N :=
  if (stepNumber =? 0)%N then Some 0%N
  else
    let nstates := vec_size (transitionProb model) in
    best ← for_upto nstates
      (scan_step (λ prevState,
         CalcNewStateProbability stepNumber prevState curState curSymbol
           model sequenceProbability))
      ((-1)%float, HMM_UNDEFINED_STATE);
    Some best.2.

(** The body of the two nested loops that fill the tables. *)
Definition viterbi_cell (model : Model) (data : ExperimentData) (t curState : N)
    (tables : list (list float) * list (list N))
  : option (list (list float) * list (list N)) :=
  let '(sequenceProbability, prevSeqState) := tables in
  tss ← vec_at (timeStateSymbol data) t;
  let curSymbol := tss.2 in
  bestPrevState ←
    FindBestTransitionSource t curState curSymbol model sequenceProbability;
  bestProbValue ←
    CalcNewStateProbability t bestPrevState curState curSymbol model
      sequenceProbability;
  sequenceProbability' ← mat_set sequenceProbability t curState bestProbValue;
  prevSeqState' ← mat_set prevSeqState t curState bestPrevState;
  Some (sequenceProbability', prevSeqState').

(** The dynamic-programming part of [FindMostProbableStateSequence]: the
    tables [(sequenceProbability, prevSeqState)] after the nested loops. *)
Definition viterbi_tables (model : Model) (data : ExperimentData)
  : option (list (list float) * list (list N)) :=
  let nstates := vec_size (transitionProb model) in
  let maxtime := vec_size (timeStateSymbol data) in
  let sequenceProbability :=
    replicate (N.to_nat maxtime) (replicate (N.to_nat nstates) 0%float) in
  let prevSeqState :=
    replicate (N.to_nat maxtime) (replicate (N.to_nat nstates) HMM_UNDEFINED_STATE) in
  for_upto maxtime
    (λ t, for_upto nstates (viterbi_cell model data t))
    (sequenceProbability, prevSeqState).

(** [std::max_element] with [operator<], as the distance from [begin]. *)
Fixpoint max_element_from (v : list float) (i largest : N) (largest_value : float) : N :=
  match v with
  | [] => largest
  | x :: rest =>
      if (largest_value <? x)%float then max_element_from rest (N.succ i) i x
      else max_element_from rest (N.succ i) largest largest_value
  end.

Definition max_element (v : list float) : N :=
  match v with
  | [] => 0%N
  | x :: rest => max_element_from rest 1 0 x
  end.

(** [for (; curStep > 0; --curStep) { curState = prevSeqState[curStep][curState];
      mostProbableSeq.push_back(curState); }] *)
Fixpoint recover (prevSeqState : list (list N)) (curStep : nat) (curState : N)
    (mostProbableSeq : list N) : option (N * list N) :=
  match curStep with
  | O => Some (curState, mostProbableSeq)
  | Datatypes.S k =>
      curState' ← mat_at prevSeqState (N.of_nat curStep) curState;
      recover prevSeqState k curState' (mostProbableSeq ++ [curState'])
  end.

(** [HMM::Algorithms::FindMostProbableStateSequence] *)
Definition FindMostProbableStateSequence (model : Model) (data : ExperimentData)
  : option (list N) :=
  let maxtime := vec_size (timeStateSymbol data) in
  '(sequenceProbability, prevSeqState) ← viterbi_tables model data;
  let curStep := to_ptrdiff_t (to_size_t (Z.of_N maxtime - 1)) in
  lastRow ← vec_at sequenceProbability (to_size_t curStep);
  let curState := max_element lastRow in
  '(curState', mostProbableSeq) ←
    recover prevSeqState (Z.to_nat curStep) curState [];
  Some (reverse (mostProbableSeq ++ [curState'])).

(** [HMM::Algorithms::CalcForwardBackwardProbabiliies]: the body holds two
    comments and no statement, so control flows off the end of a function
    whose return type is not [void]: no value is returned and nothing is
    thrown. *)
Definition CalcForwardBackwardProbabiliies (model : Model) (data : ExperimentData)
  : outcome (list (list (float * float))) :=
  Undefined.

End Algorithms.

(* ================================================================== *)
(** * Well-formed inputs and the notions the properties are stated with *)

Import Data Algorithms.

(** A probability: a [double] between 0 and 1 (hence not a NaN). *)
Definition is_prob (x : float) : bool := (0 <=? x)%float && (x <=? 1)%float.

(** The same, on the specification of binary64 values: a zero, or a
    positive finite number [m * 2^e] that is at most 1. *)
Definition SFprob (x : spec_float) : Prop :=
  match x with
  | S754_zero _ => True
  | S754_finite false m e => (e <= 0 ∧ Z.pos m <= 2 ^ (- e))%Z
  | _ => False
  end.

Definition nstates (model : Model) : N := vec_size (transitionProb model).
Definition maxtime (data : ExperimentData) : N := vec_size (timeStateSymbol data).

(** [m] has [rows] rows of [cols] entries each. *)
Definition is_matrix {A : Type} (rows cols : N) (m : list (list A)) : Prop :=
  vec_size m = rows ∧ Forall (λ row, vec_size row = cols) m.

Definition all_prob (m : list (list float)) : Prop :=
  Forall (Forall (λ x, is_prob x = true)) m.

(** The data model of the tables: [transitionProb] is square over the
    states, [stateSymbolProb] has one row per state and one column per
    symbol, there is at least one state, and every entry is a probability. *)
Definition valid_model (model : Model) : Prop :=
  (1 ≤ nstates model ≤ SIZE_MAX)%N ∧
  is_matrix (nstates model) (nstates model) (transitionProb model) ∧
  is_matrix (nstates model) (alphabetSize model) (stateSymbolProb model) ∧
  all_prob (transitionProb model) ∧
  all_prob (stateSymbolProb model).

(** Every observed symbol index is inside the model's alphabet, and the
    number of steps fits [ptrdiff_t]. *)
Definition valid_data (model : Model) (data : ExperimentData) : Prop :=
  (maxtime data < 9223372036854775808)%N ∧
  Forall (λ tss, (tss.2 < alphabetSize model)%N) (timeStateSymbol data).

(** The symbol component of the observation at step [t]. *)
Definition symbolAt (data : ExperimentData) (t : N) : option N :=
  (λ tss, tss.2) <$> vec_at (timeStateSymbol data) t.

(** The candidate score of the specification, for a step [t >= 1]:
    [sequenceProbability[t-1][p] * transitionProb[p][s] *
     stateSymbolProb[s][symbol]]. *)
Definition candidate (model : Model) (sequenceProbability : list (list float))
    (t s symbol p : N) : option float :=
  a ← mat_at sequenceProbability (t - 1) p;
  b ← mat_at (transitionProb model) p s;
  c ← mat_at (stateSymbolProb model) s symbol;
  Some (a * b * c)%float.

(** The score of the specification at step 0, for a 1-step sequence:
    [transitionProb[0][s] * stateSymbolProb[s][symbol]]. *)
Definition initial_score (model : Model) (symbol s : N) : option float :=
  b ← mat_at (transitionProb model) 0 s;
  c ← mat_at (stateSymbolProb model) s symbol;
  Some (b * c)%float.

(** [v] is the maximum of the scores [score p], [p < n], and [p0] is the
    smallest index whose score is [v]. *)
Definition is_max_at (score : N → option float) (n p0 : N) (v : float) : Prop :=
  (p0 < n)%N ∧ score p0 = Some v ∧
  (∀ p, (p < n)%N → ∃ c, score p = Some c ∧ (c <=? v)%float = true) ∧
  (∀ p, (p < p0)%N → ∃ c, score p = Some c ∧ (c <? v)%float = true).

(** The same, as a scan with [<] establishes it on any [double]s: [v] is
    the score of [p0], no score is greater than [v], and no score before
    [p0] is as large as [v].  On scores that are probabilities this is
    [is_max_at]; a NaN score is skipped, since it compares false. *)
Definition is_first_max (score : N → option float) (n p0 : N) (v : float) : Prop :=
  (p0 < n)%N ∧ score p0 = Some v ∧
  (∀ p, (p < n)%N → ∃ c, score p = Some c ∧ (v <? c)%float = false) ∧
  (∀ p, (p < p0)%N → ∃ c, score p = Some c ∧ (v <=? c)%float = false).

(** The state of a scan with [<] after [k] scores: no score seen beats
    the incumbent [best], which is either the initial pair or the first
    maximum of the scores seen. *)
Definition scan_inv (score : N → option float) (init : float * N) (k : N)
    (best : float * N) : Prop :=
  (∀ p, (p < k)%N → ∃ c, score p = Some c ∧ (best.1 <? c)%float = false) ∧
  (best = init ∨
   ((best.2 < k)%N ∧ score best.2 = Some best.1 ∧
    ∀ p, (p < best.2)%N → ∃ c, score p = Some c ∧ (best.1 <=? c)%float = false)).

(** What the filled tables hold at cell [(t, s)]. *)
Definition cell_spec (model : Model) (data : ExperimentData)
    (sp : list (list float)) (ps : list (list N)) (t s : N) : Prop :=
  ∃ symbol v b,
    symbolAt data t = Some symbol ∧
    mat_at sp t s = Some v ∧ mat_at ps t s = Some b ∧
    if (t =? 0)%N then
      b = 0%N ∧
      ∃ x y, mat_at (transitionProb model) 0 s = Some x ∧
             mat_at (stateSymbolProb model) s symbol = Some y ∧
             v = (1 * x * y)%float
    else is_first_max (candidate model sp t s symbol) (nstates model) b v.

(** The cells the nested loops have filled when the outer loop is at
    step [t0] and the inner loop at state [k]. *)
Definition filled (t0 k t s : N) : Prop := (t < t0 ∨ (t = t0 ∧ s < k))%N.

(** The invariant of the nested loops. *)
Definition tables_inv (model : Model) (data : ExperimentData) (t0 k : N)
    (tables : list (list float) * list (list N)) : Prop :=
  is_matrix (maxtime data) (nstates model) tables.1 ∧
  is_matrix (maxtime data) (nstates model) tables.2 ∧
  ∀ t s, filled t0 k t s → (s < nstates model)%N →
         cell_spec model data tables.1 tables.2 t s.

(** The recurrence of the decoder over filled tables [sp] and [ps], for a
    notion [first_max] of the first maximum of a family of scores: at
    every step [t >= 1] and state [s], [sp[t][s]] is the maximum over [p]
    of [sp[t-1][p] * transitionProb[p][s] * stateSymbolProb[s][symbolAt t]]
    and [ps[t][s]] is the first [p] whose score it is. *)
Definition recurrence (first_max : (N → option float) → N → N → float → Prop)
    (model : Model) (data : ExperimentData)
    (sp : list (list float)) (ps : list (list N)) : Prop :=
  ∀ t s, (1 ≤ t < maxtime data)%N → (s < nstates model)%N →
    ∃ symbol v b,
      symbolAt data t = Some symbol ∧
      mat_at sp t s = Some v ∧ mat_at ps t s = Some b ∧
      first_max (candidate model sp t s symbol) (nstates model) b v.

(** Row 0 of the tables: the predecessor is START (0) and the score is
    [1.0 * transitionProb[0][s] * stateSymbolProb[s][symbol]]. *)
Definition start_row (model : Model) (symbol : N)
    (sp : list (list float)) (ps : list (list N)) : Prop :=
  ∀ s, (s < nstates model)%N →
    ∃ x y, mat_at (transitionProb model) 0 s = Some x ∧
           mat_at (stateSymbolProb model) s symbol = Some y ∧
           mat_at sp 0 s = Some (HMM_BEGIN_STATE_PROBABILITY * x * y)%float ∧
           mat_at ps 0 s = Some 0%N.

(** Every back-pointer is the index of a state, not the sentinel. *)
Definition back_pointers_valid (model : Model) (data : ExperimentData)
    (ps : list (list N)) : Prop :=
  ∀ t s, (t < maxtime data)%N → (s < nstates model)%N →
    ∃ b, mat_at ps t s = Some b ∧
         (b < nstates model)%N ∧ b ≠ HMM_UNDEFINED_STATE.

(** A name is declared when the state list holds it (or the registry
    already did before the call). *)
Definition declared (self : Model) (modelSource : ModelSource) (name : string) : Prop :=
  name ∈ src_states modelSource ∨ is_Some (stateNameToIndex self !! name).

(** A transition that leaves END (its source resolves to index
    [nstates - 1]) or enters START (its target resolves to index 0). *)
Definition bad_transition (self : Model) (modelSource : ModelSource)
    (tr : string * string * float) : Prop :=
  (resolve self modelSource tr.1.1 + 1 = vec_size (src_states modelSource))%N ∨
  resolve self modelSource tr.1.2 = 0%N.

(** An emission attached to START (index 0) or to END (index
    [nstates - 1]). *)
Definition bad_emission (self : Model) (modelSource : ModelSource)
    (em : string * string * float) : Prop :=
  resolve self modelSource em.1.1 = 0%N ∨
  (resolve self modelSource em.1.1 + 1 = vec_size (src_states modelSource))%N.

(** Every emission symbol is inside the declared alphabet. *)
Definition symbols_in_alphabet (modelSource : ModelSource) : Prop :=
  Forall (λ em : string * string * float,
            (to_size_t (symbolToInd em.1.2) < src_alphabetSize modelSource)%N)
         (src_emissions modelSource).

(* ================================================================== *)
(** * A worked input

    Four states S (START), A, B, E (END) over the alphabet a, b; the
    observation is "a" then "b".  The most probable path is A then B. *)

Definition chain_source : ModelSource :=
  {| src_states := ["S"; "A"; "B"; "E"];
     src_alphabetSize := 2;
     src_transitions :=
       [("S", "A", 0.5%float); ("S", "B", 0.5%float);
        ("A", "A", 0.5%float); ("A", "B", 0.5%float); ("B", "E", 1%float)];
     src_emissions :=
       [("A", "a", 0.75%float); ("A", "b", 0.25%float);
        ("B", "a", 0.25%float); ("B", "b", 0.75%float)] |}.

Definition chain_model : Model :=
  {| stateNameToIndex :=
       list_to_map [("S", 0%N); ("A", 1%N); ("B", 2%N); ("E", 3%N)];
     alphabetSize := 2;
     transitionProb :=
       [[0; 0.5; 0.5; 0]; [0; 0.5; 0.5; 0]; [0; 0; 0; 1]; [0; 0; 0; 0]]%float;
     stateSymbolProb :=
       [[0; 0]; [0.75; 0.25]; [0.25; 0.75]; [0; 0]]%float |}.

Definition chain_trace : DataSource := [(0%N, "A", "a"); (1%N, "B", "b")].

Definition chain_data : ExperimentData :=
  {| timeStateSymbol := [(0, 1, 0); (1, 2, 1)]%N |}.

(** A source that declares a transition out of END. *)
Definition end_source : ModelSource :=
  {| src_states := ["S"; "A"; "E"];
     src_alphabetSize := 1;
     src_transitions := [("S", "A", 1%float); ("E", "A", 0.5%float)];
     src_emissions := [("A", "a", 1%float)] |}.

(** A source whose transition targets a name, "X", that it never declares. *)
Definition undeclared_target_source : ModelSource :=
  {| src_states := ["S"; "A"; "E"];
     src_alphabetSize := 1;
     src_transitions := [("S", "X", 1%float)];
     src_emissions := [("A", "a", 1%float)] |}.

(** The same observation with other step numbers and reference states. *)
Definition chain_data' : ExperimentData :=
  {| timeStateSymbol := [(7, 3, 0); (9, 0, 1)]%N |}.

(** A single observation, "a". *)
Definition one_step_data : ExperimentData :=
  {| timeStateSymbol := [(0, 1, 0)]%N |}.

(* ================================================================== *)
(** * Notions for the results of the readers and the recovered path *)

(** The value an entry of a table holds after a reading loop: the
    probability of the last triple that addresses the entry, or 0 when no
    triple does. *)
Definition last_write (hit : string * string * float → bool)
    (triples : list (string * string * float)) : float :=
  fold_left (λ acc tr, if hit tr then tr.2 else acc) triples 0%float.

(** The transition triple [tr] addresses [transitionProb[p][s]]. *)
Definition hits_transition (self : Model) (modelSource : ModelSource) (p s : N)
    (tr : string * string * float) : bool :=
  (resolve self modelSource tr.1.1 =? p)%N && (resolve self modelSource tr.1.2 =? s)%N.

(** The emission triple [em] addresses [stateSymbolProb[s][symbol]]. *)
Definition hits_emission (self : Model) (modelSource : ModelSource) (s symbol : N)
    (em : string * string * float) : bool :=
  (resolve self modelSource em.1.1 =? s)%N &&
  (to_size_t (symbolToInd em.1.2) =? symbol)%N.

(** The tuple [ReadExperimentData] stores for an observation whose state
    name is in the registry. *)
Definition stored_step (model : Model) (step : N * string * string) : N * N * N :=
  (step.1.1, default 0%N (stateNameToIndex model !! step.1.2),
   to_size_t (symbolToInd step.2)).

(** The path the back-pointers encode: the states at steps [0..k] of the
    path that is in state [s] at step [k]. *)
Fixpoint viterbi_path (prevSeqState : list (list N)) (k : nat) (s : N)
  : option (list N) :=
  match k with
  | O => Some [s]
  | Datatypes.S k' =>
      p ← mat_at prevSeqState (N.of_nat k) s;
      path ← viterbi_path prevSeqState k' p;
      Some (path ++ [s])
  end.

(** A [double] that is a zero (of either sign). *)
Definition zero_double (x : float) : Prop :=
  match Prim2SF x with S754_zero _ => True | _ => False end.

(** A [double] that is neither an infinity nor a NaN. *)
Definition finite_double (x : float) : Prop :=
  match Prim2SF x with
  | S754_zero _ | S754_finite _ _ _ => True
  | _ => False
  end.

(** What the decoder needs of a model whose entries need not be
    probabilities: tables of the right shape with finite entries, and a
    START state (index 0) that emits nothing. *)
Definition start_silent (model : Model) : Prop :=
  (1 ≤ nstates model ≤ SIZE_MAX)%N ∧
  is_matrix (nstates model) (nstates model) (transitionProb model) ∧
  is_matrix (nstates model) (alphabetSize model) (stateSymbolProb model) ∧
  Forall (Forall finite_double) (transitionProb model) ∧
  Forall (Forall finite_double) (stateSymbolProb model) ∧
  (∀ symbol x, mat_at (stateSymbolProb model) 0 symbol = Some x → zero_double x).

(** Two states and two symbols; every transition has weight 1 and the
    second symbol has the emission weight -1 in both states. *)
Definition signed_model : Model :=
  {| stateNameToIndex := ∅; alphabetSize := 2;
     transitionProb := [[1; 1]; [1; 1]]%float;
     stateSymbolProb := [[1; -1]; [1; -1]]%float |}.

(** A source whose weights are not probabilities: states S (START), A,
    E (END) over the alphabet a. *)
Definition weights_source : ModelSource :=
  {| src_states := ["S"; "A"; "E"];
     src_alphabetSize := 1;
     src_transitions := [("S", "A", 2%float); ("A", "A", (-3)%float)];
     src_emissions := [("A", "a", 1.5%float)] |}.

Definition weights_model : Model :=
  {| stateNameToIndex := list_to_map [("S", 0%N); ("A", 1%N); ("E", 2%N)];
     alphabetSize := 1;
     transitionProb := [[0; 2; 0]; [0; -3; 0]; [0; 0; 0]]%float;
     stateSymbolProb := [[0]; [1.5]; [0]]%float |}.

Definition weights_data : ExperimentData :=
  {| timeStateSymbol := [(0, 1, 0); (1, 1, 0)]%N |}.

(** A source with an emission on an upper-case symbol, "Z". *)
Definition uppercase_source : ModelSource :=
  {| src_states := ["S"; "A"; "E"];
     src_alphabetSize := 2;
     src_transitions := [("S", "A", 1%float)];
     src_emissions := [("A", "a", 0.5%float); ("A", "Z", 0.5%float)] |}.

(* ================================================================== *)
(** * Facts about binary64 arithmetic

    The primitive operations are specified by [mul_spec], [ltb_spec] and
    [leb_spec] through [Prim2SF]; the facts below are proved on that
    specification. *)

Section FloatFacts.
Local Open Scope Z_scope.

(** ** The order on specification floats *)

Ltac cmp_cases :=
  repeat match goal with
  | |- context [Z.compare ?a ?b] => destruct (Z.compare_spec a b)
  | H : context [Z.compare ?a ?b] |- _ => destruct (Z.compare_spec a b)
  | |- context [Pos.compare_cont Eq ?a ?b] =>
      change (Pos.compare_cont Eq a b) with (Pos.compare a b);
      destruct (Pos.compare_spec a b)
  | H : context [Pos.compare_cont Eq ?a ?b] |- _ =>
      change (Pos.compare_cont Eq a b) with (Pos.compare a b) in H;
      destruct (Pos.compare_spec a b)
  end.

Ltac sf_order :=
  unfold SFltb, SFleb, SFeqb, SFcompare; intros;
  repeat match goal with x : spec_float |- _ => destruct x end;
  repeat match goal with s : bool |- _ => destruct s end;
  simpl in *; try done; cmp_cases; simpl in *; try done; try lia.

Lemma SFltb_trans a b c : SFltb a b = true → SFltb b c = true → SFltb a c = true.
Proof. revert a b c. sf_order. Qed.

Lemma SFltb_irrefl a : SFltb a a = false.
Proof. revert a. sf_order. Qed.

Lemma SFleb_ltb_trans a b c : SFleb a b = true → SFltb b c = true → SFltb a c = true.
Proof. revert a b c. sf_order. Qed.

Lemma SFleb_trans a b c : SFleb a b = true → SFleb b c = true → SFleb a c = true.
Proof. revert a b c. sf_order. Qed.

Lemma SFltb_leb a b : SFltb a b = true → SFleb a b = true.
Proof. revert a b. sf_order. Qed.

Lemma SFltb_leb_trans a b c : SFltb a b = true → SFleb b c = true → SFltb a c = true.
Proof. revert a b c. sf_order. Qed.

Lemma SFltb_false_leb a b :
  a ≠ S754_nan → b ≠ S754_nan → SFltb a b = false → SFleb b a = true.
Proof. revert a b. sf_order. Qed.

Lemma SFleb_false_ltb a b :
  a ≠ S754_nan → b ≠ S754_nan → SFleb a b = false → SFltb b a = true.
Proof. revert a b. sf_order. Qed.

(** ** Rounding of products *)

Lemma Prim2SF_one : Prim2SF 1%float = S754_finite false 4503599627370496 (-52).
Proof. vm_compute. reflexivity. Qed.

Lemma digits2_pos_bounds (p : positive) :
  2 ^ (Z.pos (digits2_pos p) - 1) <= Z.pos p < 2 ^ Z.pos (digits2_pos p).
Proof.
  induction p as [p IH|p IH|]; simpl digits2_pos.
  - rewrite Pos2Z.inj_succ.
    replace (Z.succ (Z.pos (digits2_pos p)) - 1) with (Z.succ (Z.pos (digits2_pos p) - 1)) by lia.
    rewrite !Z.pow_succ_r by lia. lia.
  - rewrite Pos2Z.inj_succ.
    replace (Z.succ (Z.pos (digits2_pos p)) - 1) with (Z.succ (Z.pos (digits2_pos p) - 1)) by lia.
    rewrite !Z.pow_succ_r by lia. lia.
  - simpl. lia.
Qed.

Lemma digits2_pos_unique (p : positive) (d : Z) :
  2 ^ (d - 1) <= Z.pos p < 2 ^ d -> Z.pos (digits2_pos p) = d.
Proof.
  intros [Hl Hu]. pose proof (digits2_pos_bounds p) as [Hl' Hu'].
  assert (0 < d).
  { destruct (Z.le_gt_cases d 0) as [Hd|Hd]; [|done].
    assert (2 ^ d <= 2 ^ 0) by (apply Z.pow_le_mono_r; lia). simpl in *; lia. }
  destruct (Z.lt_trichotomy (Z.pos (digits2_pos p)) d) as [Hlt|[?|Hgt]]; [|done|].
  - assert (2 ^ Z.pos (digits2_pos p) <= 2 ^ (d - 1)) by (apply Z.pow_le_mono_r; lia). lia.
  - assert (2 ^ d <= 2 ^ (Z.pos (digits2_pos p) - 1)) by (apply Z.pow_le_mono_r; lia). lia.
Qed.

Lemma shr_1_m (mrs : shr_record) :
  0 <= shr_m mrs -> shr_m (shr_1 mrs) = shr_m mrs / 2.
Proof.
  destruct mrs as [m r s]; simpl. intros Hm.
  destruct m as [|[p|p|]|p]; simpl shr_m; try lia.
  - reflexivity.
  - rewrite Pos2Z.inj_xI. apply Z.div_unique with 1; lia.
  - rewrite Pos2Z.inj_xO. apply Z.div_unique with 0; lia.
  - reflexivity.
Qed.

Lemma pow2_xO (p : positive) : 2 ^ Z.pos p~0 = 2 ^ Z.pos p * 2 ^ Z.pos p.
Proof. replace (Z.pos p~0) with (Z.pos p + Z.pos p) by lia. apply Z.pow_add_r; lia. Qed.

Lemma pow2_xI (p : positive) : 2 ^ Z.pos p~1 = 2 * (2 ^ Z.pos p * 2 ^ Z.pos p).
Proof.
  replace (Z.pos p~1) with (Z.succ (Z.pos p~0)) by lia.
  rewrite Z.pow_succ_r by lia. by rewrite pow2_xO.
Qed.

Lemma iter_pos_shr_m (p : positive) : forall mrs,
  0 <= shr_m mrs -> shr_m (iter_pos shr_1 p mrs) = shr_m mrs / 2 ^ Z.pos p.
Proof.
  induction p as [p IH|p IH|]; intros mrs Hm; cbn [iter_pos].
  - assert (H1 : 0 <= shr_m (shr_1 mrs)) by (rewrite shr_1_m by done; apply Z.div_pos; lia).
    assert (H2 : 0 <= shr_m (iter_pos shr_1 p (shr_1 mrs))) by (rewrite IH by done; apply Z.div_pos; lia).
    rewrite IH, IH, shr_1_m by done.
    rewrite !Z.div_div by lia. by rewrite pow2_xI.
  - assert (H2 : 0 <= shr_m (iter_pos shr_1 p mrs)) by (rewrite IH by done; apply Z.div_pos; lia).
    rewrite IH, IH by done.
    rewrite !Z.div_div by lia. by rewrite pow2_xO.
  - rewrite shr_1_m by done. done.
Qed.

Lemma iter_pos_shr_exact (p : positive) : forall q,
  0 <= q ->
  iter_pos shr_1 p {| shr_m := q * 2 ^ Z.pos p; shr_r := false; shr_s := false |}
  = {| shr_m := q; shr_r := false; shr_s := false |}.
Proof.
  assert (Hone : forall q, 0 <= q ->
    shr_1 {| shr_m := q * 2; shr_r := false; shr_s := false |}
    = {| shr_m := q; shr_r := false; shr_s := false |}).
  { intros [|q|q] Hq; try lia; [done|].
    replace (Z.pos q * 2) with (Z.pos q~0) by lia. done. }
  induction p as [p IH|p IH|]; intros q Hq; cbn [iter_pos].
  - replace (q * 2 ^ Z.pos p~1) with ((q * 2 ^ Z.pos p * 2 ^ Z.pos p) * 2)
      by (rewrite pow2_xI; lia).
    rewrite Hone, IH, IH; [done|lia..].
  - replace (q * 2 ^ Z.pos p~0) with (q * 2 ^ Z.pos p * 2 ^ Z.pos p)
      by (rewrite pow2_xO; lia).
    rewrite IH, IH; [done|lia..].
  - rewrite Z.pow_1_r. by apply Hone.
Qed.

Lemma round_nearest_even_bounds m l :
  m <= round_nearest_even m l <= m + 1.
Proof.
  destruct l as [|[]]; simpl; try lia. destruct (Z.even m); lia.
Qed.

Lemma SFmul_1_l (s : bool) (m : positive) (e : Z) :
  bounded prec emax m e = true ->
  SF64mul (S754_finite false 4503599627370496 (-52)) (S754_finite s m e) = S754_finite s m e.
Proof.
  intros Hv. unfold bounded, canonical_mantissa in Hv.
  apply andb_prop in Hv as [Hc Hb]. apply Z.eqb_eq in Hc.
  unfold SF64mul, SFmul, binary_round_aux, shr_fexp.
  assert (Hd : Zdigits2 (Z.pos (4503599627370496 * m)) = Z.pos (digits2_pos m) + 52).
  { unfold Zdigits2. apply digits2_pos_unique.
    pose proof (digits2_pos_bounds m) as [Hl Hu].
    replace (Z.pos (digits2_pos m) + 52 - 1) with (Z.pos (digits2_pos m) - 1 + 52) by lia.
    assert (0 < Z.pos (digits2_pos m)) by lia.
    rewrite !Z.pow_add_r by lia. rewrite Pos2Z.inj_mul.
    change (2 ^ 52) with 4503599627370496. lia. }
  rewrite Hd.
  replace (Z.pos (digits2_pos m) + 52 + (-52 + e)) with (Z.pos (digits2_pos m) + e) by lia.
  rewrite Hc. replace (e - (-52 + e)) with 52 by lia.
  unfold shr, shr_record_of_loc.
  replace (Z.pos (4503599627370496 * m)) with (Z.pos m * 2 ^ 52) by (change (2 ^ 52) with 4503599627370496; lia).
  rewrite iter_pos_shr_exact by lia.
  cbn [shr_m loc_of_shr_record round_nearest_even Zdigits2].
  replace (-52 + e + 52) with e by lia.
  rewrite Hc, Z.sub_diag. cbn [shr_m]. rewrite Hb. by destruct s.
Qed.

Lemma mul_1_l (x : float) : (1 * x)%float = x.
Proof.
  apply Prim2SF_inj. rewrite mul_spec, Prim2SF_one.
  pose proof (Prim2SF_valid x) as Hv.
  destruct (Prim2SF x) as [s|s| |s m e]; try reflexivity.
  by apply SFmul_1_l.
Qed.

Lemma shr_fexp_le (m e : Z) (l : location) (mrs : shr_record) (e' : Z) :
  0 <= m -> e <= 0 -> m <= 2 ^ (- e) ->
  shr_fexp prec emax m e l = (mrs, e') ->
  0 <= shr_m mrs /\ e' <= 0 /\ shr_m mrs <= 2 ^ (- e') /\
  (m < 2 ^ (- e) -> shr_m mrs < 2 ^ (- e')).
Proof.
  intros Hm He Hle. unfold shr_fexp, shr.
  assert (Hrec : shr_m (shr_record_of_loc m l) = m) by (by destruct l as [|[]]).
  destruct (fexp prec emax (Zdigits2 m + e) - e) as [|n|n] eqn:Hn;
    intros [= <- <-]; rewrite ?Hrec; [done| |done].
  assert (Hdig : Zdigits2 m + e <= 1).
  { destruct m as [|p|p]; simpl; [lia| |lia].
    pose proof (digits2_pos_bounds p) as [Hl _].
    destruct (Z.le_gt_cases (Z.pos (digits2_pos p) - 1) (- e)) as [?|Hgt]; [lia|].
    assert (2 ^ (- e + 1) <= 2 ^ (Z.pos (digits2_pos p) - 1)) by (apply Z.pow_le_mono_r; lia).
    rewrite Z.pow_add_r in * by lia. lia. }
  assert (He' : e + Z.pos n <= 0) by (unfold fexp, SpecFloat.emin, prec, emax in Hn; lia).
  rewrite iter_pos_shr_m by (rewrite Hrec; done). rewrite Hrec.
  assert (Hpow : 2 ^ (- e) = 2 ^ Z.pos n * 2 ^ (- (e + Z.pos n))).
  { rewrite <- Z.pow_add_r by lia. f_equal; lia. }
  assert (0 < 2 ^ Z.pos n) by (apply Z.pow_pos_nonneg; lia).
  repeat split.
  - apply Z.div_pos; lia.
  - done.
  - apply Z.div_le_upper_bound; lia.
  - intros Hlt. apply Z.div_lt_upper_bound; lia.
Qed.

Lemma binary_round_aux_le_one (M E : Z) :
  0 < M -> M < 2 ^ (- E) ->
  match binary_round_aux prec emax false M E loc_Exact with
  | S754_zero s => s = false
  | S754_finite s m e => s = false /\ e <= 0 /\ Z.pos m <= 2 ^ (- e)
  | _ => False
  end.
Proof.
  intros HM Hlt.
  assert (HE : E <= 0).
  { destruct (Z.le_gt_cases E 0); [done|]. rewrite Z.pow_neg_r in Hlt; lia. }
  unfold binary_round_aux.
  destruct (shr_fexp prec emax M E loc_Exact) as [mrs1 e1] eqn:H1.
  apply shr_fexp_le in H1 as (Hm1 & He1 & _ & Hlt1); [|lia..].
  specialize (Hlt1 Hlt).
  pose proof (round_nearest_even_bounds (shr_m mrs1) (loc_of_shr_record mrs1)) as Hr.
  destruct (shr_fexp prec emax _ e1 loc_Exact) as [mrs2 e2] eqn:H2.
  apply shr_fexp_le in H2 as (Hm2 & He2 & Hle2 & _); [|lia..].
  destruct (shr_m mrs2) as [|m2|m2]; [done| |lia].
  replace (e2 <=? emax - prec) with true; [done|].
  symmetry. apply Z.leb_le. unfold emax, prec. lia.
Qed.

Lemma Prim2SF_zero : Prim2SF 0%float = S754_zero false.
Proof. vm_compute. reflexivity. Qed.

Lemma bounded_digits (m : positive) (e : Z) :
  bounded prec emax m e = true ->
  Z.pos (digits2_pos m) <= 53 /\ (-1074 < e -> Z.pos (digits2_pos m) = 53) /\ -1074 <= e.
Proof.
  unfold bounded, canonical_mantissa, fexp, SpecFloat.emin, prec, emax.
  intros [Hc _]%andb_prop. apply Z.eqb_eq in Hc. lia.
Qed.

Lemma compare_cont_Eq (p q : positive) : PosDef.Pos.compare_cont Eq p q = Pos.compare p q.
Proof. reflexivity. Qed.

Lemma is_prob_spec (x : float) : is_prob x = true <-> SFprob (Prim2SF x).
Proof.
  unfold is_prob. rewrite andb_true_iff, !leb_spec, Prim2SF_zero, Prim2SF_one.
  pose proof (Prim2SF_valid x) as Hv.
  destruct (Prim2SF x) as [s|[]| |[] m e].
  all: cbn [SFprob SFleb SFcompare].
  1-5: (split; [intros [? ?]|intros ?]; done).
  cbn [valid_binary] in Hv. apply bounded_digits in Hv as (Hd & Hn & Hmin).
  pose proof (digits2_pos_bounds m) as [Hl Hu].
  rewrite compare_cont_Eq, Pos2Z.inj_compare.
  split.
  - intros [_ H1]. destruct (Z.compare_spec e (-52)) as [->|Hlt|Hgt]; [| |done].
    + change (2 ^ (- -52)) with 4503599627370496.
      destruct (Z.compare_spec (Z.pos m) 4503599627370496) as [?|?|?]; [| |done]; lia.
    + split; [lia|].
      assert (2 ^ Z.pos (digits2_pos m) <= 2 ^ (- e)) by (apply Z.pow_le_mono_r; lia). lia.
  - intros [He Hm]. split; [done|].
    destruct (Z.compare_spec e (-52)) as [->|Hlt|Hgt]; [|done|].
    + change (2 ^ (- -52)) with 4503599627370496 in Hm.
      destruct (Z.compare_spec (Z.pos m) 4503599627370496); try done; lia.
    + exfalso. rewrite Hn in Hl by lia.
      assert (2 ^ (- e) <= 2 ^ 51) by (apply Z.pow_le_mono_r; lia).
      change (2 ^ (53 - 1)) with (2 * 2 ^ 51) in Hl.
      assert (0 < 2 ^ 51) by done. lia.
Qed.

Lemma SFprob_one (m : positive) (e : Z) :
  bounded prec emax m e = true -> e <= 0 -> Z.pos m = 2 ^ (- e) ->
  m = 4503599627370496%positive /\ e = -52.
Proof.
  intros (Hd & Hn & Hmin)%bounded_digits He Hm.
  assert (Hdig : Z.pos (digits2_pos m) = - e + 1).
  { apply digits2_pos_unique. replace (- e + 1 - 1) with (- e) by lia.
    rewrite Z.pow_add_r by lia. lia. }
  assert (e = -52) as -> by lia.
  split; [|done]. apply Pos2Z.inj. by rewrite Hm.
Qed.

Lemma SFprob_mul (x y : spec_float) :
  valid_binary x = true -> valid_binary y = true ->
  SFprob x -> SFprob y -> SFprob (SF64mul x y).
Proof.
  destruct x as [sx|[]| |[] mx ex], y as [sy|[]| |[] my ey]; simpl; try done.
  intros Hvx Hvy [Hex Hmx] [Hey Hmy].
  destruct (Z.eq_dec (Z.pos mx) (2 ^ (- ex))) as [Heq|Hne].
  - destruct (SFprob_one mx ex) as [-> ->]; [done..|].
    change (binary_round_aux prec emax false (Z.pos (4503599627370496 * my)) (-52 + ey) loc_Exact)
      with (SF64mul (S754_finite false 4503599627370496 (-52)) (S754_finite false my ey)).
    rewrite SFmul_1_l by done. done.
  - pose proof (binary_round_aux_le_one (Z.pos (mx * my)) (ex + ey)) as H.
    destruct (binary_round_aux prec emax false (Z.pos (mx * my)) (ex + ey) loc_Exact)
      as [s|s| |s m e]; try (apply H); try done.
    + replace (- (ex + ey)) with (- ex + - ey) by lia.
      rewrite Z.pow_add_r by lia. rewrite Pos2Z.inj_mul. nia.
    + replace (- (ex + ey)) with (- ex + - ey) by lia.
      rewrite Z.pow_add_r by lia. rewrite Pos2Z.inj_mul. nia.
    + destruct H as (-> & ? & ?); [done| |done].
      replace (- (ex + ey)) with (- ex + - ey) by lia.
      rewrite Z.pow_add_r by lia. rewrite Pos2Z.inj_mul. nia.
Qed.

Lemma is_prob_mul (x y : float) :
  is_prob x = true -> is_prob y = true -> is_prob (x * y) = true.
Proof.
  rewrite !is_prob_spec, mul_spec.
  apply SFprob_mul; apply Prim2SF_valid.
Qed.

Lemma is_prob_one : is_prob 1 = true.
Proof. vm_compute. reflexivity. Qed.

(** ** The order on primitive floats *)

Lemma is_prob_not_nan (x : float) : is_prob x = true -> Prim2SF x <> S754_nan.
Proof. rewrite is_prob_spec. by destruct (Prim2SF x). Qed.

Lemma float_ltb_leb (x y : float) : (x <? y)%float = true -> (x <=? y)%float = true.
Proof. rewrite ltb_spec, leb_spec. apply SFltb_leb. Qed.

Lemma float_leb_trans (x y z : float) :
  (x <=? y)%float = true -> (y <=? z)%float = true -> (x <=? z)%float = true.
Proof. rewrite !leb_spec. apply SFleb_trans. Qed.

Lemma float_leb_ltb_trans (x y z : float) :
  (x <=? y)%float = true -> (y <? z)%float = true -> (x <? z)%float = true.
Proof. rewrite !leb_spec, !ltb_spec. apply SFleb_ltb_trans. Qed.

Lemma float_ltb_trans (x y z : float) :
  (x <? y)%float = true -> (y <? z)%float = true -> (x <? z)%float = true.
Proof. rewrite !ltb_spec. apply SFltb_trans. Qed.

Lemma float_ltb_irrefl (x : float) : (x <? x)%float = false.
Proof. rewrite ltb_spec. apply SFltb_irrefl. Qed.

Lemma float_ltb_leb_trans (x y z : float) :
  (x <? y)%float = true -> (y <=? z)%float = true -> (x <? z)%float = true.
Proof. rewrite !leb_spec, !ltb_spec. apply SFltb_leb_trans. Qed.

(** A score that does not beat the incumbent [v] does not beat, nor
    reach, a value that beats [v]. *)
Lemma not_beaten_after (v v' c : float) :
  (v <? c)%float = false -> (v <? v')%float = true -> (v' <? c)%float = false.
Proof.
  intros Hc Hv. destruct (v' <? c)%float eqn:Hlt; [|done].
  by rewrite (float_ltb_trans v v' c) in Hc.
Qed.

Lemma not_reached_after (v v' c : float) :
  (v <? c)%float = false -> (v <? v')%float = true -> (v' <=? c)%float = false.
Proof.
  intros Hc Hv. destruct (v' <=? c)%float eqn:Hle; [|done].
  by rewrite (float_ltb_leb_trans v v' c) in Hc.
Qed.

Lemma prob_leb_refl (x : float) : is_prob x = true -> (x <=? x)%float = true.
Proof.
  intros Hx%is_prob_not_nan. rewrite leb_spec.
  apply SFltb_false_leb; [done..|apply SFltb_irrefl].
Qed.

Lemma prob_ltb_false (x y : float) :
  is_prob x = true -> is_prob y = true ->
  (x <? y)%float = false -> (y <=? x)%float = true.
Proof.
  intros Hx%is_prob_not_nan Hy%is_prob_not_nan. rewrite ltb_spec, leb_spec.
  by apply SFltb_false_leb.
Qed.

Lemma prob_leb_false (x y : float) :
  is_prob x = true -> is_prob y = true ->
  (x <=? y)%float = false -> (y <? x)%float = true.
Proof.
  intros Hx%is_prob_not_nan Hy%is_prob_not_nan. rewrite ltb_spec, leb_spec.
  by apply SFleb_false_ltb.
Qed.

Lemma prob_above_minus_one (x : float) :
  is_prob x = true -> ((-1) <? x)%float = true.
Proof.
  rewrite is_prob_spec, ltb_spec.
  replace (Prim2SF (-1)) with (S754_finite true 4503599627370496 (-52))
    by (vm_compute; reflexivity).
  by destruct (Prim2SF x) as [s|[]| |[] m e].
Qed.

Lemma is_prob_zero : is_prob 0 = true.
Proof. vm_compute. reflexivity. Qed.

End FloatFacts.

(* ================================================================== *)
(** * Vectors, matrices and loops *)

Section Vectors.
Context {A : Type}.
Implicit Types (v : list A).

Lemma vec_at_lookup v (i : N) : vec_at v i = v !! N.to_nat i.
Proof.
  unfold vec_at, vec_size. case_decide as Hi; [done|].
  symmetry. apply lookup_ge_None. lia.
Qed.

Lemma vec_at_lt v (i : N) : (i < vec_size v)%N → ∃ x, vec_at v i = Some x.
Proof.
  intros Hi. rewrite vec_at_lookup. apply lookup_lt_is_Some.
  unfold vec_size in Hi. lia.
Qed.

Lemma vec_at_Some_lt v (i : N) x : vec_at v i = Some x → (i < vec_size v)%N.
Proof.
  rewrite vec_at_lookup. intros H%lookup_lt_Some. unfold vec_size. lia.
Qed.

Lemma vec_at_Forall (P : A → Prop) v (i : N) x :
  Forall P v → vec_at v i = Some x → P x.
Proof. rewrite vec_at_lookup. intros HP Hx. by eapply Forall_lookup_1. Qed.

Lemma vec_set_lt v (i : N) x :
  (i < vec_size v)%N → vec_set v i x = Some (<[N.to_nat i := x]> v).
Proof. intros Hi. unfold vec_set. by rewrite decide_True. Qed.

Lemma vec_size_insert v (n : nat) x : vec_size (<[n := x]> v) = vec_size v.
Proof. unfold vec_size. by rewrite length_insert. Qed.

End Vectors.

Section Matrices.
Context {A : Type}.
Implicit Types (m : list (list A)).

Lemma mat_at_lookup m (i j : N) :
  mat_at m i j = m !! N.to_nat i ≫= (λ row, row !! N.to_nat j).
Proof.
  unfold mat_at. rewrite vec_at_lookup.
  destruct (m !! N.to_nat i) as [row|]; simpl; [|done]. apply vec_at_lookup.
Qed.

Lemma mat_at_is_matrix m (rows cols i j : N) :
  is_matrix rows cols m → (i < rows)%N → (j < cols)%N →
  ∃ row x, vec_at m i = Some row ∧ vec_size row = cols ∧ vec_at row j = Some x ∧
           mat_at m i j = Some x.
Proof.
  intros [Hr Hc] Hi Hj.
  destruct (vec_at_lt m i) as [row Hrow]; [lia|].
  assert (Hsz : vec_size row = cols) by apply (vec_at_Forall _ _ _ _ Hc Hrow).
  destruct (vec_at_lt row j) as [x Hx]; [lia|].
  exists row, x. unfold mat_at. rewrite Hrow. simpl. by rewrite Hx.
Qed.

Lemma mat_at_Forall (P : A → Prop) m (i j : N) x :
  Forall (Forall P) m → mat_at m i j = Some x → P x.
Proof.
  unfold mat_at. intros HP.
  destruct (vec_at m i) as [row|] eqn:Hrow; simpl; [|done].
  intros Hx. eapply vec_at_Forall; [|done].
  by eapply (vec_at_Forall (Forall P)).
Qed.

(** What a write [m[i][j] = x] that is in range changes. *)
Lemma mat_set_Some m (i j : N) x m' :
  mat_set m i j x = Some m' →
  (∀ rows cols, is_matrix rows cols m → is_matrix rows cols m') ∧
  (∀ i', i' ≠ i → vec_at m' i' = vec_at m i') ∧
  (∀ j', j' ≠ j → mat_at m' i j' = mat_at m i j') ∧
  mat_at m' i j = Some x ∧
  (∀ P : A → Prop, Forall (Forall P) m → P x → Forall (Forall P) m').
Proof.
  unfold mat_set. destruct (vec_at m i) as [row|] eqn:Hrow; simpl; [|by intros [=]].
  destruct (vec_set row j x) as [row'|] eqn:Hrow'; simpl; [|by intros [=]].
  unfold vec_set in Hrow'. case_decide as Hj; [|done]. injection Hrow' as <-.
  unfold vec_set. case_decide as Hi; [|by intros [=]].
  intros [= <-]. rewrite vec_at_lookup in Hrow.
  assert (Hi' : (N.to_nat i < length m)%nat) by (unfold vec_size in Hi; lia).
  assert (Hj' : (N.to_nat j < length row)%nat) by (unfold vec_size in Hj; lia).
  split; [|split; [|split; [|split]]].
  - intros rows cols [Hr Hc]. split; [by rewrite vec_size_insert|].
    apply Forall_insert; [done|]. rewrite vec_size_insert.
    by apply (Forall_lookup_1 _ _ _ _ Hc Hrow).
  - intros i' Hne. rewrite !vec_at_lookup.
    apply list_lookup_insert_ne. lia.
  - intros j' Hne. rewrite !mat_at_lookup.
    rewrite list_lookup_insert_eq by done.
    rewrite Hrow. simpl. apply list_lookup_insert_ne. lia.
  - rewrite mat_at_lookup, list_lookup_insert_eq by done. simpl.
    by apply list_lookup_insert_eq.
  - intros P HP Hx. apply Forall_insert; [done|].
    apply Forall_insert; [|done]. by eapply Forall_lookup_1.
Qed.

Lemma mat_set_is_matrix m (rows cols i j : N) x :
  is_matrix rows cols m → (i < rows)%N → (j < cols)%N →
  ∃ m', mat_set m i j x = Some m' ∧ is_matrix rows cols m'.
Proof.
  intros Hm Hi Hj.
  destruct (mat_at_is_matrix m rows cols i j Hm Hi Hj) as (row & y & Hrow & Hsz & _).
  destruct (mat_set m i j x) as [m'|] eqn:Hset.
  - exists m'. split; [done|]. by apply (mat_set_Some m i j x m' Hset).
  - exfalso. unfold mat_set in Hset. rewrite Hrow in Hset. simpl in Hset.
    rewrite vec_set_lt in Hset by lia. simpl in Hset.
    rewrite vec_set_lt in Hset; [done|]. destruct Hm as [-> _]. done.
Qed.

Lemma is_matrix_replicate (rows cols : N) (x : A) :
  is_matrix rows cols (replicate (N.to_nat rows) (replicate (N.to_nat cols) x)).
Proof.
  split.
  - unfold vec_size. rewrite length_replicate. lia.
  - apply Forall_replicate. unfold vec_size. rewrite length_replicate. lia.
Qed.

End Matrices.

Section Loops.
Context {S : Type}.
Implicit Types (body : N → S → option S) (I : N → S → Prop).

(** A loop whose body preserves an invariant, and has a result whenever
    the invariant holds, has a result that satisfies the invariant. *)
Lemma for_loop_total I body (count : nat) : ∀ (i : N) (s : S),
  I i s →
  (∀ j s, (i ≤ j < i + N.of_nat count)%N → I j s →
          ∃ s', body j s = Some s' ∧ I (N.succ j) s') →
  ∃ s', for_loop count i body s = Some s' ∧ I (i + N.of_nat count)%N s'.
Proof.
  induction count as [|k IH]; intros i s Hi Hstep; simpl.
  - exists s. split; [done|]. by rewrite N.add_0_r.
  - destruct (Hstep i s) as (s1 & Hb & H1); [lia|done|].
    rewrite Hb. simpl.
    destruct (IH (N.succ i) s1) as (s' & Hl & H'); [done| |].
    + intros j s2 Hj. apply Hstep. lia.
    + exists s'. split; [done|].
      replace (i + N.of_nat (Datatypes.S k))%N with (N.succ i + N.of_nat k)%N by lia.
      done.
Qed.

Lemma for_upto_total I body (n : N) (s : S) :
  I 0%N s →
  (∀ j s, (j < n)%N → I j s → ∃ s', body j s = Some s' ∧ I (N.succ j) s') →
  ∃ s', for_upto n body s = Some s' ∧ I n s'.
Proof.
  intros H0 Hstep. unfold for_upto.
  destruct (for_loop_total I body (N.to_nat n) 0%N s) as (s' & Hl & H'); [done| |].
  - intros j s1 Hj. apply Hstep. lia.
  - exists s'. split; [done|]. by rewrite N.add_0_l, N2Nat.id in H'.
Qed.

(** A loop that has a result ran its body at every index, preserving
    whatever the body preserves. *)
Lemma for_loop_partial I body (count : nat) : ∀ (i : N) (s s' : S),
  for_loop count i body s = Some s' →
  I i s →
  (∀ j s s1, (i ≤ j < i + N.of_nat count)%N → I j s → body j s = Some s1 →
             I (N.succ j) s1) →
  I (i + N.of_nat count)%N s'.
Proof.
  induction count as [|k IH]; intros i s s' Hrun Hi Hstep; simpl in Hrun.
  - injection Hrun as <-. by rewrite N.add_0_r.
  - destruct (body i s) as [s1|] eqn:Hb; simpl in Hrun; [|done].
    replace (i + N.of_nat (Datatypes.S k))%N with (N.succ i + N.of_nat k)%N by lia.
    apply (IH (N.succ i) s1 s' Hrun).
    + apply (Hstep i s s1); [lia|done..].
    + intros j s2 s3 Hj. apply Hstep. lia.
Qed.

Lemma for_upto_partial I body (n : N) (s s' : S) :
  for_upto n body s = Some s' →
  I 0%N s →
  (∀ j s s1, (j < n)%N → I j s → body j s = Some s1 → I (N.succ j) s1) →
  I n s'.
Proof.
  intros Hrun H0 Hstep.
  pose proof (for_loop_partial I body (N.to_nat n) 0%N s s' Hrun H0) as H.
  rewrite N.add_0_l, N2Nat.id in H. apply H.
  intros j s1 s2 Hj. apply Hstep. lia.
Qed.

(** Two loops whose bodies agree at every index agree. *)
Lemma for_loop_ext body1 body2 (count : nat) : ∀ (i : N) (s : S),
  (∀ j s, body1 j s = body2 j s) →
  for_loop count i body1 s = for_loop count i body2 s.
Proof.
  induction count as [|k IH]; intros i s Hext; simpl; [done|].
  rewrite Hext. destruct (body2 i s) as [s1|]; simpl; [|done]. by apply IH.
Qed.

End Loops.

(* ================================================================== *)
(** * The two scans for a maximum *)

Section Scans.
Implicit Types (score : N → option float).

Lemma vec_at_prob (row : list float) (i : N) (x : float) :
  Forall (λ x, is_prob x = true) row → vec_at row i = Some x → is_prob x = true.
Proof. apply (vec_at_Forall (λ x, is_prob x = true)). Qed.

Lemma mat_at_prob (m : list (list float)) (i j : N) (x : float) :
  all_prob m → mat_at m i j = Some x → is_prob x = true.
Proof. apply (mat_at_Forall (λ x, is_prob x = true)). Qed.

Lemma is_first_max_ext score score' (n p0 : N) (v : float) :
  (∀ p, (p < n)%N → score p = score' p) →
  is_first_max score n p0 v → is_first_max score' n p0 v.
Proof.
  intros Hext (Hlt & Hv & Hall & Hbefore). split; [done|].
  split; [by rewrite <- Hext|].
  split; intros p Hp; rewrite <- Hext by lia; auto.
Qed.

(** On probabilities the two notions of a first maximum agree. *)
Lemma is_first_max_prob score (n p0 : N) (v : float) :
  (∀ p c, (p < n)%N → score p = Some c → is_prob c = true) →
  is_first_max score n p0 v → is_max_at score n p0 v.
Proof.
  intros Hprob (Hlt & Hv & Hall & Hbefore).
  assert (Hpv : is_prob v = true) by (by eapply Hprob).
  split; [done|]. split; [done|]. split; intros p Hp.
  - destruct (Hall p Hp) as (c & Hc & Hcmp). exists c. split; [done|].
    apply prob_ltb_false; [done| |done]. by eapply Hprob.
  - destruct (Hbefore p Hp) as (c & Hc & Hcmp). exists c. split; [done|].
    apply prob_leb_false; [done| |done]. eapply Hprob; [|done]. lia.
Qed.

Lemma scan_step_inv score (init : float * N) (k : N) (best best' : float * N) :
  scan_inv score init k best → scan_step score k best = Some best' →
  scan_inv score init (N.succ k) best'.
Proof.
  intros [Hseen Hbest]. unfold scan_step.
  destruct (score k) as [c|] eqn:Hc; simpl; [|done].
  destruct best as [v p0]. cbn [fst snd] in *.
  destruct (v <? c)%float eqn:Hlt; intros [= <-]; unfold scan_inv; cbn [fst snd].
  - split.
    + intros p Hp. destruct (decide (p = k)) as [->|Hne].
      * exists c. split; [done|]. apply float_ltb_irrefl.
      * destruct (Hseen p) as (c' & Hc' & Hcmp); [lia|].
        exists c'. split; [done|]. by eapply not_beaten_after.
    + right. split; [lia|]. split; [done|]. intros p Hp.
      destruct (Hseen p Hp) as (c' & Hc' & Hcmp).
      exists c'. split; [done|]. by eapply not_reached_after.
  - split.
    + intros p Hp. destruct (decide (p = k)) as [->|Hne].
      * by exists c.
      * apply Hseen. lia.
    + destruct Hbest as [Hinit|(Hp0 & Hv & Hbefore)]; [by left|].
      right. split; [lia|done].
Qed.

(** The scan of [FindBestTransitionSource], when it has a result: every
    score was defined, and either no score exceeds -1 and the result is
    the initial pair, or the result is the first maximum. *)
Lemma scan_result score (n : N) (v : float) (p0 : N) :
  for_upto n (scan_step score) ((-1)%float, HMM_UNDEFINED_STATE) = Some (v, p0) →
  (∀ p, (p < n)%N → ∃ c, score p = Some c ∧ (v <? c)%float = false) ∧
  ((v, p0) = ((-1)%float, HMM_UNDEFINED_STATE) ∨ is_first_max score n p0 v).
Proof.
  intros Hrun.
  pose proof (for_upto_partial
    (scan_inv score ((-1)%float, HMM_UNDEFINED_STATE)) (scan_step score) n _ _ Hrun)
    as [Hseen Hbest].
  - split; [intros p Hp; lia|by left].
  - intros j s s1 _. apply scan_step_inv.
  - simpl in *. split; [done|].
    destruct Hbest as [Hinit|(Hp0 & Hv & Hbefore)]; [by left|by right].
Qed.

(** The scan has a result when every score is defined. *)
Lemma scan_defined score (n : N) (init : float * N) :
  (∀ p, (p < n)%N → is_Some (score p)) →
  is_Some (for_upto n (scan_step score) init).
Proof.
  intros Hscore.
  destruct (for_upto_total (λ _ _, True) (scan_step score) n init)
    as (best & Hrun & _); [done| |by eexists].
  intros j best Hj _. destruct (Hscore j Hj) as [c Hc].
  unfold scan_step. rewrite Hc. simpl. by eexists.
Qed.

(** [std::max_element] returns the first maximum of a non-empty range. *)
Lemma max_element_from_first_max (row : list float) : ∀ (rest done : list float)
    (i largest : N) (largest_value : float),
  row = done ++ rest → i = vec_size done →
  is_first_max (vec_at row) i largest largest_value →
  ∃ v, is_first_max (vec_at row) (vec_size row)
         (max_element_from rest i largest largest_value) v.
Proof.
  induction rest as [|x rest IH]; intros done i largest lv Hrow Hi Hmax; simpl.
  - exists lv. rewrite app_nil_r in Hrow. by subst.
  - assert (Hx : vec_at row i = Some x).
    { rewrite vec_at_lookup, Hrow, Hi. unfold vec_size. rewrite Nat2N.id.
      by rewrite list_lookup_middle. }
    assert (Hrow' : row = (done ++ [x]) ++ rest) by (by rewrite <- app_assoc).
    assert (Hi' : N.succ i = vec_size (done ++ [x])).
    { unfold vec_size in *. rewrite length_app. simpl. lia. }
    destruct Hmax as (Hl & Hlv & Hall & Hbefore).
    assert (Hinv : scan_inv (vec_at row) (lv, largest) i (lv, largest)) by (split; [done|by left]).
    pose proof (scan_step_inv (vec_at row) (lv, largest) i (lv, largest)) as Hstep.
    unfold scan_step in Hstep. rewrite Hx in Hstep. simpl in Hstep.
    destruct (lv <? x)%float eqn:Hlt.
    + apply (IH (done ++ [x])); [done..|].
      destruct (Hstep (x, i) Hinv eq_refl) as [Hseen [[= -> ->]|(_ & _ & Hb)]].
      * by rewrite float_ltb_irrefl in Hlt.
      * split; [lia|]. split; [done|]. done.
    + apply (IH (done ++ [x])); [done..|].
      destruct (Hstep (lv, largest) Hinv eq_refl) as [Hseen _].
      split; [lia|]. split; [done|]. done.
Qed.

Lemma max_element_first_max (row : list float) :
  (1 ≤ vec_size row)%N →
  ∃ v, is_first_max (vec_at row) (vec_size row) (max_element row) v.
Proof.
  intros Hlen. destruct row as [|x rest]; [unfold vec_size in Hlen; simpl in Hlen; lia|].
  simpl. apply (max_element_from_first_max (x :: rest) rest [x]); [done..|].
  split; [done|]. split; [done|]. split.
  - intros p Hp. assert (p = 0%N) as -> by lia. exists x.
    split; [done|]. apply float_ltb_irrefl.
  - intros p Hp. lia.
Qed.

End Scans.

(* ================================================================== *)
(** * The dynamic-programming tables *)

Lemma mat_at_row_eq {A : Type} (m m' : list (list A)) (i j : N) :
  vec_at m' i = vec_at m i → mat_at m' i j = mat_at m i j.
Proof. unfold mat_at. by intros ->. Qed.

Lemma HMM_UNDEFINED_STATE_eq : HMM_UNDEFINED_STATE = SIZE_MAX.
Proof. reflexivity. Qed.

Lemma CalcNewStateProbability_candidate (model : Model) (sp : list (list float))
    (t p s symbol : N) :
  (0 < t)%N →
  CalcNewStateProbability t p s symbol model sp = candidate model sp t s symbol p.
Proof.
  intros Ht. unfold CalcNewStateProbability, candidate.
  destruct (N.eqb_spec t 0) as [->|_]; [lia|]. done.
Qed.

Lemma CalcNewStateProbability_in_range (model : Model) (sp : list (list float))
    (t p s symbol : N) (v : float) :
  CalcNewStateProbability t p s symbol model sp = Some v → (p < nstates model)%N.
Proof.
  unfold CalcNewStateProbability.
  destruct (if (t =? 0)%N && (p =? 0)%N then _ else _) as [a|]; simpl; [|done].
  destruct (mat_at (transitionProb model) p s) as [tp|] eqn:Htp; simpl; [|done].
  intros _. unfold mat_at in Htp.
  destruct (vec_at (transitionProb model) p) as [row|] eqn:Hrow; [|done].
  by apply vec_at_Some_lt in Hrow.
Qed.

Lemma CalcNewStateProbability_start (model : Model) (sp : list (list float))
    (s symbol : N) (v : float) :
  CalcNewStateProbability 0 0 s symbol model sp = Some v →
  ∃ x y, mat_at (transitionProb model) 0 s = Some x ∧
         mat_at (stateSymbolProb model) s symbol = Some y ∧
         v = (1 * x * y)%float.
Proof.
  unfold CalcNewStateProbability. simpl.
  destruct (mat_at (transitionProb model) 0 s) as [x|]; simpl; [|done].
  destruct (mat_at (stateSymbolProb model) s symbol) as [y|]; simpl; [|done].
  intros [= <-]. by exists x, y.
Qed.

Section TablesRun.
Variables (model : Model) (data : ExperimentData).
Hypothesis Hsize : (nstates model ≤ SIZE_MAX)%N.

(** What the two calls of the loop body return, when they return. *)
Lemma FindBestTransitionSource_result (sp : list (list float))
    (t s symbol b : N) (v : float) :
  FindBestTransitionSource t s symbol model sp = Some b →
  CalcNewStateProbability t b s symbol model sp = Some v →
  if (t =? 0)%N then
    b = 0%N ∧
    ∃ x y, mat_at (transitionProb model) 0 s = Some x ∧
           mat_at (stateSymbolProb model) s symbol = Some y ∧
           v = (1 * x * y)%float
  else is_first_max (candidate model sp t s symbol) (nstates model) b v.
Proof.
  unfold FindBestTransitionSource. destruct (N.eqb_spec t 0) as [->|Hne].
  - intros [= <-] Hcalc. split; [done|]. by eapply CalcNewStateProbability_start.
  - fold (nstates model).
    destruct (for_upto _ _ _) as [[v0 b0]|] eqn:Hscan; simpl; [|done].
    intros [= ->] Hcalc.
    apply scan_result in Hscan as [_ [[= -> ->]|Hmax]].
    + apply CalcNewStateProbability_in_range in Hcalc.
      rewrite HMM_UNDEFINED_STATE_eq in Hcalc. lia.
    + assert (v0 = v) as -> by (destruct Hmax as (_ & Hv & _); congruence).
      eapply is_first_max_ext; [|done].
      intros p _. apply CalcNewStateProbability_candidate. lia.
Qed.

(** A cell already filled is not touched by a later write. *)
Lemma cell_spec_frame (sp sp' : list (list float)) (ps ps' : list (list N))
    (t0 k t s : N) :
  (∀ i, i ≠ t0 → vec_at sp' i = vec_at sp i) →
  (∀ j, j ≠ k → mat_at sp' t0 j = mat_at sp t0 j) →
  (∀ i, i ≠ t0 → vec_at ps' i = vec_at ps i) →
  (∀ j, j ≠ k → mat_at ps' t0 j = mat_at ps t0 j) →
  (t < t0 ∨ (t = t0 ∧ s ≠ k))%N →
  cell_spec model data sp ps t s → cell_spec model data sp' ps' t s.
Proof.
  intros Hrows Hrow Hrows' Hrow' Hts (symbol & v & b & H1 & H2 & H3 & Hcell).
  assert (Hkeep : mat_at sp' t s = mat_at sp t s ∧ mat_at ps' t s = mat_at ps t s).
  { destruct (decide (t = t0)) as [->|Hne].
    - split; [apply Hrow|apply Hrow']; lia.
    - split; apply mat_at_row_eq; auto. }
  destruct Hkeep as [Hk1 Hk2].
  exists symbol, v, b. rewrite Hk1, Hk2.
  split; [done|]. split; [done|]. split; [done|].
  destruct (N.eqb_spec t 0) as [->|Hne]; [done|].
  eapply is_first_max_ext; [|done]. intros p _. unfold candidate.
  rewrite (mat_at_row_eq sp sp') by (apply Hrows; lia). done.
Qed.

(** One execution of the body of the nested loops. *)
Lemma viterbi_cell_run (t0 k : N) (tables tables' : list (list float) * list (list N)) :
  tables_inv model data t0 k tables →
  viterbi_cell model data t0 k tables = Some tables' →
  tables_inv model data t0 (N.succ k) tables'.
Proof.
  destruct tables as [sp ps]. intros (Hsp & Hps & Hcells).
  cbn [fst snd] in Hsp, Hps, Hcells. unfold viterbi_cell.
  destruct (vec_at (timeStateSymbol data) t0) as [tss|] eqn:Htss; simpl; [|done].
  destruct (FindBestTransitionSource _ _ _ _ _) as [b|] eqn:Hfind; simpl; [|done].
  destruct (CalcNewStateProbability _ _ _ _ _ _) as [v|] eqn:Hcalc; simpl; [|done].
  destruct (mat_set sp t0 k v) as [sp'|] eqn:Hset; simpl; [|done].
  destruct (mat_set ps t0 k b) as [ps'|] eqn:Hset'; simpl; [|done].
  intros [= <-].
  apply mat_set_Some in Hset as (Hshape & Hrows & Hrow & Hnew & _).
  apply mat_set_Some in Hset' as (Hshape' & Hrows' & Hrow' & Hnew' & _).
  split; [by apply Hshape|]. split; [by apply Hshape'|].
  cbn [fst snd]. intros t s Hfilled Hs.
  destruct (decide (t = t0 ∧ s = k)) as [[-> ->]|Hother].
  - exists tss.2, v, b. split; [unfold symbolAt; by rewrite Htss|].
    split; [done|]. split; [done|].
    pose proof (FindBestTransitionSource_result sp t0 k tss.2 b v Hfind Hcalc) as Hres.
    destruct (N.eqb_spec t0 0) as [->|Hne]; [done|].
    eapply is_first_max_ext; [|done]. intros p _. unfold candidate.
    rewrite (mat_at_row_eq sp sp') by (apply Hrows; lia). done.
  - apply (cell_spec_frame sp sp' ps ps' t0 k); [done..| |].
    + unfold filled in Hfilled. lia.
    + apply Hcells; [|done]. unfold filled in *. lia.
Qed.

(** The nested loops, when they have a result, have filled every cell. *)
Lemma viterbi_tables_run (sp : list (list float)) (ps : list (list N)) :
  viterbi_tables model data = Some (sp, ps) →
  tables_inv model data (maxtime data) 0 (sp, ps).
Proof.
  unfold viterbi_tables. fold (nstates model) (maxtime data). intros Hrun.
  apply (for_upto_partial (λ t, tables_inv model data t 0) _ _ _ _ Hrun).
  - split; [apply is_matrix_replicate|]. split; [apply is_matrix_replicate|].
    intros t s Hf. unfold filled in Hf. lia.
  - intros t tables tables1 Ht Hinv Hinner.
    pose proof (for_upto_partial (tables_inv model data t)
      (viterbi_cell model data t) (nstates model) tables tables1 Hinner Hinv)
      as (H1 & H2 & Hcells).
    + intros k tb tb1 _. apply viterbi_cell_run.
    + split; [done|]. split; [done|].
      intros t' s Hf Hs. apply Hcells; [|done]. unfold filled in *. lia.
Qed.

(** Every back-pointer the loops store is the index of a state. *)
Lemma back_pointers_in_range (sp : list (list float)) (ps : list (list N)) :
  (1 ≤ nstates model)%N →
  tables_inv model data (maxtime data) 0 (sp, ps) →
  ∀ t s, (t < maxtime data)%N → (s < nstates model)%N →
         ∃ b, mat_at ps t s = Some b ∧ (b < nstates model)%N.
Proof.
  intros Hn (_ & _ & Hcells) t s Ht Hs.
  destruct (Hcells t s) as (sym & v & b & _ & _ & Hb & Hcell);
    [unfold filled; lia|done|].
  cbn [snd] in Hb. exists b. split; [done|].
  destruct (t =? 0)%N.
  - destruct Hcell as [-> _]. lia.
  - by destruct Hcell as (? & _).
Qed.

End TablesRun.

Section TablesDefined.
Variables (model : Model) (data : ExperimentData).
Hypothesis Hmodel : valid_model model.
Hypothesis Hdata : valid_data model data.

Lemma symbolAt_valid (t : N) :
  (t < maxtime data)%N →
  ∃ tss, vec_at (timeStateSymbol data) t = Some tss ∧
         symbolAt data t = Some tss.2 ∧ (tss.2 < alphabetSize model)%N.
Proof.
  intros Ht. destruct (vec_at_lt (timeStateSymbol data) t Ht) as [tss Htss].
  exists tss. split; [done|]. split.
  - unfold symbolAt. by rewrite Htss.
  - destruct Hdata as [_ Hsym].
    apply (vec_at_Forall (λ tss, (tss.2 < alphabetSize model)%N) _ _ _ Hsym Htss).
Qed.

Lemma model_entries (p s symbol : N) :
  (p < nstates model)%N → (s < nstates model)%N → (symbol < alphabetSize model)%N →
  ∃ x y, mat_at (transitionProb model) p s = Some x ∧ is_prob x = true ∧
         mat_at (stateSymbolProb model) s symbol = Some y ∧ is_prob y = true.
Proof.
  intros Hp Hs Hsym. destruct Hmodel as (_ & Htp & Hsp & Hptp & Hpsp).
  destruct (mat_at_is_matrix _ _ _ p s Htp Hp Hs) as (rx & x & _ & _ & _ & Hx).
  destruct (mat_at_is_matrix _ _ _ s symbol Hsp Hs Hsym) as (ry & y & _ & _ & _ & Hy).
  exists x, y. split; [done|]. split; [apply (mat_at_prob _ _ _ _ Hptp Hx)|].
  split; [done|]. apply (mat_at_prob _ _ _ _ Hpsp Hy).
Qed.

(** Every candidate score over a table of probabilities is a probability. *)
Lemma candidate_defined (sp : list (list float)) (t p s symbol : N) :
  is_matrix (maxtime data) (nstates model) sp → all_prob sp →
  (0 < t < maxtime data)%N →
  (p < nstates model)%N → (s < nstates model)%N → (symbol < alphabetSize model)%N →
  ∃ c, candidate model sp t s symbol p = Some c ∧ is_prob c = true.
Proof.
  intros Hsp Hprob Ht Hp Hs Hsym.
  destruct (mat_at_is_matrix sp _ _ (t - 1) p Hsp) as (ra & a & _ & _ & _ & Ha); [lia|done|].
  destruct (model_entries p s symbol) as (x & y & Hx & Hpx & Hy & Hpy); [done..|].
  exists (a * x * y)%float. split.
  - unfold candidate. rewrite Ha, Hx, Hy. done.
  - apply is_prob_mul; [|done]. apply is_prob_mul; [|done].
    apply (mat_at_prob _ _ _ _ Hprob Ha).
Qed.

Lemma candidate_prob (sp : list (list float)) (t p s symbol : N) (c : float) :
  is_matrix (maxtime data) (nstates model) sp → all_prob sp →
  (0 < t < maxtime data)%N →
  (p < nstates model)%N → (s < nstates model)%N → (symbol < alphabetSize model)%N →
  candidate model sp t s symbol p = Some c → is_prob c = true.
Proof.
  intros Hsp Hprob Ht Hp Hs Hsym Hc.
  destruct (candidate_defined sp t p s symbol) as (c' & Hc' & Hpc); [done..|].
  congruence.
Qed.

(** On valid inputs the body of the nested loops has a result, and it
    writes a probability. *)
Lemma viterbi_cell_defined (t0 k : N) (sp : list (list float)) (ps : list (list N)) :
  (t0 < maxtime data)%N → (k < nstates model)%N →
  is_matrix (maxtime data) (nstates model) sp →
  is_matrix (maxtime data) (nstates model) ps →
  all_prob sp →
  ∃ sp' ps', viterbi_cell model data t0 k (sp, ps) = Some (sp', ps') ∧
             is_matrix (maxtime data) (nstates model) sp' ∧
             is_matrix (maxtime data) (nstates model) ps' ∧
             all_prob sp'.
Proof.
  intros Ht0 Hk Hsp Hps Hprob.
  assert (Hn : (1 ≤ nstates model ≤ SIZE_MAX)%N) by (by destruct Hmodel as (? & _)).
  destruct (symbolAt_valid t0 Ht0) as (tss & Htss & _ & Hsymlt).
  assert (Hbest : ∃ b v,
    FindBestTransitionSource t0 k tss.2 model sp = Some b ∧
    CalcNewStateProbability t0 b k tss.2 model sp = Some v ∧ is_prob v = true).
  { unfold FindBestTransitionSource. destruct (N.eqb_spec t0 0) as [->|Hne].
    - destruct (model_entries 0 k tss.2) as (x & y & Hx & Hpx & Hy & Hpy); [lia|done..|].
      exists 0%N, (1 * x * y)%float. split; [done|]. split.
      + unfold CalcNewStateProbability. simpl. rewrite Hx, Hy. done.
      + apply is_prob_mul; [|done]. apply is_prob_mul; [|done]. apply is_prob_one.
    - fold (nstates model).
      assert (Ht : (0 < t0 < maxtime data)%N) by lia.
      destruct (scan_defined
        (λ p, CalcNewStateProbability t0 p k tss.2 model sp) (nstates model)
        ((-1)%float, HMM_UNDEFINED_STATE)) as [[v b] Hscan].
      { intros p Hp. rewrite CalcNewStateProbability_candidate by lia.
        destruct (candidate_defined sp t0 p k tss.2 Hsp Hprob Ht Hp Hk Hsymlt)
          as (c & Hc & _).
        by eexists. }
      rewrite Hscan. simpl. exists b, v. split; [done|].
      apply scan_result in Hscan as [Hseen [[= -> ->]|(Hb & Hv & _)]].
      + exfalso. destruct (Hseen 0%N) as (c & Hc & Hcmp); [lia|].
        rewrite CalcNewStateProbability_candidate in Hc by lia.
        assert (H0 : (0 < nstates model)%N) by lia.
        apply (candidate_prob sp t0 0 k tss.2 c Hsp Hprob Ht H0 Hk Hsymlt) in Hc.
        by rewrite prob_above_minus_one in Hcmp.
      + split; [done|]. rewrite CalcNewStateProbability_candidate in Hv by lia.
        by apply (candidate_prob sp t0 b k tss.2 v Hsp Hprob Ht Hb Hk Hsymlt) in Hv. }
  destruct Hbest as (b & v & Hfind & Hcalc & Hpv).
  destruct (mat_set_is_matrix sp _ _ t0 k v Hsp Ht0 Hk) as (sp' & Hset & Hsp').
  destruct (mat_set_is_matrix ps _ _ t0 k b Hps Ht0 Hk) as (ps' & Hset' & Hps').
  exists sp', ps'. split.
  { unfold viterbi_cell. rewrite Htss. simpl.
    rewrite Hfind. simpl. rewrite Hcalc. simpl. rewrite Hset. simpl.
    by rewrite Hset'. }
  split; [done|]. split; [done|].
  apply mat_set_Some in Hset as (_ & _ & _ & _ & Hall).
  by apply (Hall (λ x, is_prob x = true)).
Qed.

(** On valid inputs the nested loops have a result: tables of
    probabilities, every cell filled. *)
Lemma viterbi_tables_defined :
  ∃ sp ps, viterbi_tables model data = Some (sp, ps) ∧
           tables_inv model data (maxtime data) 0 (sp, ps) ∧ all_prob sp.
Proof.
  set (I := λ (_ : N) (tables : list (list float) * list (list N)),
    is_matrix (maxtime data) (nstates model) tables.1 ∧
    is_matrix (maxtime data) (nstates model) tables.2 ∧ all_prob tables.1).
  assert (Hrun : ∃ tables, viterbi_tables model data = Some tables ∧ I 0%N tables).
  { unfold viterbi_tables. fold (nstates model) (maxtime data).
    destruct (for_upto_total I
      (λ t, for_upto (nstates model) (viterbi_cell model data t)) (maxtime data)
      (replicate (N.to_nat (maxtime data))
         (replicate (N.to_nat (nstates model)) 0%float),
       replicate (N.to_nat (maxtime data))
         (replicate (N.to_nat (nstates model)) HMM_UNDEFINED_STATE)))
      as (tables & Hrun & Hinv).
    - split; [apply is_matrix_replicate|]. split; [apply is_matrix_replicate|].
      apply Forall_replicate, Forall_replicate, is_prob_zero.
    - intros t tables Ht Hinv.
      destruct (for_upto_total I (viterbi_cell model data t) (nstates model) tables)
        as (tables' & Hinner & Hinv'); [done| |by exists tables'].
      intros k [sp ps] Hk (H1 & H2 & H3). cbn [fst snd] in H1, H2, H3.
      destruct (viterbi_cell_defined t k sp ps) as (sp' & ps' & Hcell & ?);
        [done..|].
      by exists (sp', ps').
    - by exists tables. }
  destruct Hrun as ([sp ps] & Hrun & (_ & _ & Hprob)).
  exists sp, ps. split; [done|]. split; [|done].
  apply viterbi_tables_run; [|done]. by destruct Hmodel as ([? ?] & _).
Qed.

End TablesDefined.

(* ================================================================== *)
(** * Path recovery *)

Lemma last_step (n : N) :
  (1 ≤ n < 9223372036854775808)%N →
  to_ptrdiff_t (to_size_t (Z.of_N n - 1)) = (Z.of_N n - 1)%Z ∧
  to_size_t (Z.of_N n - 1) = (n - 1)%N.
Proof.
  intros Hn. unfold to_ptrdiff_t, to_size_t.
  rewrite Z.mod_small by lia.
  rewrite Z2N.id by lia. split; [|lia].
  destruct (Z.ltb_spec (Z.of_N n - 1) 9223372036854775808); lia.
Qed.

(** The backward walk pushes one state per step. *)
Lemma recover_length (ps : list (list N)) (k : nat) :
  ∀ (curState : N) (acc : list N) (curState' : N) (seq : list N),
  recover ps k curState acc = Some (curState', seq) →
  length seq = (length acc + k)%nat.
Proof.
  induction k as [|k IH]; intros cur acc cur' seq; cbn [recover].
  - intros [= <- <-]. lia.
  - destruct (mat_at ps (N.of_nat (Datatypes.S k)) cur) as [b|]; simpl; [|done].
    intros Hrec%IH. rewrite Hrec, length_app. simpl. lia.
Qed.

(** It stays inside the states when the back-pointers do. *)
Lemma recover_in_range (ps : list (list N)) (n : N) (k : nat) :
  ∀ (curState : N) (acc : list N) (curState' : N) (seq : list N),
  recover ps k curState acc = Some (curState', seq) →
  (∀ t s b, (1 ≤ t ≤ N.of_nat k)%N → (s < n)%N → mat_at ps t s = Some b → (b < n)%N) →
  (curState < n)%N → Forall (λ x, (x < n)%N) acc →
  (curState' < n)%N ∧ Forall (λ x, (x < n)%N) seq.
Proof.
  induction k as [|k IH]; intros cur acc cur' seq; cbn [recover].
  - by intros [= <- <-].
  - destruct (mat_at ps (N.of_nat (Datatypes.S k)) cur) as [b|] eqn:Hb; simpl; [|done].
    intros Hrec Hps Hcur Hacc.
    assert (Hlt : (b < n)%N)
      by (apply (Hps (N.of_nat (Datatypes.S k)) cur b); [lia|done..]).
    apply (IH b (acc ++ [b]) cur' seq Hrec); [|done|].
    + intros t s b' Ht. apply Hps. lia.
    + apply Forall_app. split; [done|]. by apply Forall_singleton.
Qed.

(** It has a result when the back-pointers it follows are in range. *)
Lemma recover_defined (ps : list (list N)) (n : N) (k : nat) :
  ∀ (curState : N) (acc : list N),
  (∀ t s, (1 ≤ t ≤ N.of_nat k)%N → (s < n)%N →
          ∃ b, mat_at ps t s = Some b ∧ (b < n)%N) →
  (curState < n)%N →
  is_Some (recover ps k curState acc).
Proof.
  induction k as [|k IH]; intros cur acc Hps Hcur; cbn [recover]; [by eexists|].
  destruct (Hps (N.of_nat (Datatypes.S k)) cur) as (b & Hb & Hlt); [lia|done|].
  rewrite Hb. simpl. apply IH; [|done]. intros t s Ht. apply Hps. lia.
Qed.

Lemma last_row_max (model : Model) (data : ExperimentData)
    (sp : list (list float)) (lastRow : list float) (i : N) :
  (1 ≤ nstates model)%N →
  is_matrix (maxtime data) (nstates model) sp →
  vec_at sp i = Some lastRow →
  ∃ v, is_first_max (vec_at lastRow) (nstates model) (max_element lastRow) v.
Proof.
  intros Hn [_ Hrows] Hrow.
  assert (Hsz : vec_size lastRow = nstates model)
    by apply (vec_at_Forall _ _ _ _ Hrows Hrow).
  rewrite <- Hsz. apply max_element_first_max. lia.
Qed.

Section Decoder.
Variables (model : Model) (data : ExperimentData).

(** Any sequence the decoder returns has one element per step. *)
Lemma decoder_length (seq : list N) :
  (1 ≤ maxtime data < 9223372036854775808)%N →
  FindMostProbableStateSequence model data = Some seq →
  vec_size seq = maxtime data.
Proof.
  intros Hmax. unfold FindMostProbableStateSequence.
  destruct (viterbi_tables model data) as [[sp ps]|]; simpl; [|done].
  fold (maxtime data). destruct (last_step _ Hmax) as [-> ->].
  destruct (vec_at sp (maxtime data - 1)) as [lastRow|]; simpl; [|done].
  destruct (recover ps _ _ []) as [[cur' path]|] eqn:Hrec; simpl; [|done].
  intros [= <-]. apply recover_length in Hrec.
  unfold vec_size. rewrite length_reverse, length_app, Hrec. simpl.
  unfold maxtime, vec_size in *. lia.
Qed.

(** Any sequence the decoder returns holds indices of states. *)
Lemma decoder_in_range (seq : list N) :
  (1 ≤ nstates model ≤ SIZE_MAX)%N →
  (1 ≤ maxtime data < 9223372036854775808)%N →
  FindMostProbableStateSequence model data = Some seq →
  Forall (λ x, (x < nstates model)%N) seq.
Proof.
  intros Hn Hmax. unfold FindMostProbableStateSequence.
  destruct (viterbi_tables model data) as [[sp ps]|] eqn:Htab; simpl; [|done].
  apply viterbi_tables_run in Htab as Hinv; [|lia].
  pose proof (back_pointers_in_range model data (proj2 Hn) sp ps (proj1 Hn) Hinv) as Hptr.
  destruct Hinv as (Hsp & _). cbn [fst] in Hsp.
  fold (maxtime data). destruct (last_step _ Hmax) as [-> ->].
  destruct (vec_at sp (maxtime data - 1)) as [lastRow|] eqn:Hrow; simpl; [|done].
  destruct (last_row_max model data sp lastRow _ (proj1 Hn) Hsp Hrow) as (v & Hlt & _).
  destruct (recover ps _ _ []) as [[cur' path]|] eqn:Hrec; simpl; [|done].
  intros [= <-].
  destruct (recover_in_range ps (nstates model) _ _ _ _ _ Hrec) as [Hcur' Hpath].
  - intros t s b Ht Hs Hb. destruct (Hptr t s) as (b' & Hb' & Hlt'); [lia|done|].
    congruence.
  - done.
  - done.
  - apply Forall_reverse, Forall_app. split; [done|]. by apply Forall_singleton.
Qed.

(** A 1-step sequence decodes to the first maximum of the initial scores. *)
Lemma decoder_one_step (seq : list N) :
  (1 ≤ nstates model ≤ SIZE_MAX)%N → maxtime data = 1%N →
  FindMostProbableStateSequence model data = Some seq →
  ∃ symbol s0 v,
    symbolAt data 0 = Some symbol ∧ seq = [s0] ∧
    is_first_max (initial_score model symbol) (nstates model) s0 v.
Proof.
  intros Hn Hone. unfold FindMostProbableStateSequence.
  destruct (viterbi_tables model data) as [[sp ps]|] eqn:Htab; simpl; [|done].
  apply viterbi_tables_run in Htab as (Hsp & _ & Hcells); [|lia].
  cbn [fst snd] in Hsp, Hcells.
  fold (maxtime data). rewrite Hone.
  change (to_ptrdiff_t (to_size_t (Z.of_N 1 - 1))) with 0%Z.
  change (to_size_t 0) with 0%N.
  destruct (vec_at sp 0) as [lastRow|] eqn:Hrow; simpl; [|done].
  intros [= <-].
  destruct (last_row_max model data sp lastRow _ (proj1 Hn) Hsp Hrow) as (v & Hmaxrow).
  destruct (Hcells 0%N 0%N) as (symbol & _ & _ & Hsym & _);
    [unfold filled; lia|lia|].
  exists symbol, (max_element lastRow), v. split; [done|]. split; [done|].
  eapply is_first_max_ext; [|done]. intros s Hs.
  destruct (Hcells 0%N s) as (symbol' & v' & b' & Hsym' & Hv' & _ & _ & x & y & Hx & Hy & ->);
    [unfold filled; lia|done|].
  assert (symbol' = symbol) as -> by congruence.
  unfold initial_score. rewrite Hx, Hy. simpl.
  unfold mat_at in Hv'. rewrite Hrow in Hv'. simpl in Hv'. rewrite Hv'.
  by rewrite mul_1_l.
Qed.

(** On valid inputs with at least one step the decoder returns. *)
Lemma decoder_defined :
  valid_model model → valid_data model data → (1 ≤ maxtime data)%N →
  is_Some (FindMostProbableStateSequence model data).
Proof.
  intros Hmodel Hdata Hmax.
  assert (Hn : (1 ≤ nstates model ≤ SIZE_MAX)%N) by (by destruct Hmodel as (? & _)).
  assert (Hfit : (1 ≤ maxtime data < 9223372036854775808)%N)
    by (destruct Hdata as [? _]; lia).
  destruct (viterbi_tables_defined model data Hmodel Hdata) as (sp & ps & Htab & Hinv & _).
  pose proof (back_pointers_in_range model data (proj2 Hn) sp ps (proj1 Hn) Hinv) as Hptr.
  destruct Hinv as (Hsp & _). cbn [fst] in Hsp.
  unfold FindMostProbableStateSequence. rewrite Htab. simpl.
  fold (maxtime data). destruct (last_step _ Hfit) as [-> ->].
  destruct (mat_at_is_matrix sp _ _ (maxtime data - 1) 0 Hsp)
    as (lastRow & x & Hrow & _); [lia..|].
  rewrite Hrow. simpl.
  destruct (last_row_max model data sp lastRow _ (proj1 Hn) Hsp Hrow) as (v & Hlt & _).
  destruct (recover_defined ps (nstates model) (Z.to_nat (Z.of_N (maxtime data) - 1))
              (max_element lastRow) []) as [[cur' path] Hrec]; [|done|].
  - intros t s Ht Hs. apply Hptr; [lia|done].
  - rewrite Hrec. simpl. by eexists.
Qed.

End Decoder.

(* ================================================================== *)
(** * The worked input is valid *)

Lemma chain_model_valid : valid_model chain_model.
Proof.
  split; [done|]. split; [split; [done|repeat constructor]|].
  split; [split; [done|repeat constructor]|].
  split; repeat constructor.
Qed.

Lemma chain_data_valid : valid_data chain_model chain_data.
Proof. split; [done|]. repeat constructor. Qed.

Lemma one_step_data_valid : valid_data chain_model one_step_data.
Proof. split; [done|]. repeat constructor. Qed.

(* ================================================================== *)
(** * Properties of the decoder *)

(** C1.  Whenever the nested loops fill the tables (that is, on every
    model and observation sequence on which no access is out of range),
    at every step [t] with [1 <= t <= maxtime-1] and every state [s]:
    [sequenceProbability[t][s]] is the maximum over the previous states
    [p] of [sequenceProbability[t-1][p] * transitionProb[p][s] *
    stateSymbolProb[s][symbolAt(t)]], and [prevSeqState[t][s]] is the
    smallest [p] whose score is that maximum (the scan is ascending and
    replaces the incumbent on [>] only).  On a valid model and observation
    sequence the loops do fill the tables, and the scores, being
    probabilities, are compared as numbers: every score is [<=] the
    maximum and every earlier one is [<] it. *)
Theorem viterbi_recurrence (model : Model) (data : ExperimentData) :
  (nstates model ≤ SIZE_MAX)%N →
  (∀ sp ps, viterbi_tables model data = Some (sp, ps) →
            recurrence is_first_max model data sp ps) ∧
  (valid_model model → valid_data model data →
   ∃ sp ps, viterbi_tables model data = Some (sp, ps) ∧
            recurrence is_max_at model data sp ps).
Proof.
  intros Hsize.
  assert (Hrun : ∀ sp ps, viterbi_tables model data = Some (sp, ps) →
                          recurrence is_first_max model data sp ps).
  { intros sp ps Htab t s Ht Hs.
    apply viterbi_tables_run in Htab as (_ & _ & Hcells); [|done].
    destruct (Hcells t s) as (symbol & v & b & H1 & H2 & H3 & Hcell);
      [unfold filled; lia|done|].
    exists symbol, v, b. split; [done|]. split; [done|]. split; [done|].
    destruct (N.eqb_spec t 0); [lia|done]. }
  split; [done|]. intros Hmodel Hdata.
  destruct (viterbi_tables_defined model data Hmodel Hdata)
    as (sp & ps & Htab & (Hsp & _) & Hprob).
  exists sp, ps. split; [done|]. intros t s Ht Hs.
  destruct (Hrun sp ps Htab t s Ht Hs) as (symbol & v & b & H1 & H2 & H3 & Hmax).
  exists symbol, v, b. split; [done|]. split; [done|]. split; [done|].
  apply is_first_max_prob; [|done]. intros p c Hp Hc.
  destruct (symbolAt_valid model data Hdata t) as (tss & _ & Hsym & Hlt); [lia|].
  assert (symbol = tss.2) as -> by congruence.
  apply (candidate_prob model data Hmodel sp t p s tss.2 c); try done. lia.
Qed.

Lemma viterbi_recurrence_witness :
  (∀ sp ps, viterbi_tables chain_model chain_data = Some (sp, ps) →
            recurrence is_first_max chain_model chain_data sp ps) ∧
  (∃ sp ps, viterbi_tables chain_model chain_data = Some (sp, ps) ∧
            recurrence is_max_at chain_model chain_data sp ps).
Proof.
  destruct (viterbi_recurrence chain_model chain_data) as [Hrun Hvalid].
  - vm_compute. discriminate.
  - split; [exact Hrun|].
    exact (Hvalid chain_model_valid chain_data_valid).
Defined.

(** C3.  For an observation sequence of [maxtime >= 1] steps, any sequence
    the decoder returns has exactly [maxtime] elements; and for a valid
    model and observation sequence it does return one. *)
Theorem decoded_length (model : Model) (data : ExperimentData) :
  (1 ≤ maxtime data < 9223372036854775808)%N →
  (∀ seq, FindMostProbableStateSequence model data = Some seq →
          vec_size seq = maxtime data) ∧
  (valid_model model → valid_data model data →
   ∃ seq, FindMostProbableStateSequence model data = Some seq ∧
          vec_size seq = maxtime data).
Proof.
  intros Hmax. split; [intros seq; by apply decoder_length|].
  intros Hmodel Hdata.
  destruct (decoder_defined model data Hmodel Hdata) as [seq Hseq]; [lia|].
  exists seq. split; [done|]. by apply (decoder_length model data).
Qed.

Lemma decoded_length_witness :
  (∀ seq, FindMostProbableStateSequence chain_model chain_data = Some seq →
          vec_size seq = maxtime chain_data) ∧
  (∃ seq, FindMostProbableStateSequence chain_model chain_data = Some seq ∧
          vec_size seq = maxtime chain_data).
Proof.
  destruct (decoded_length chain_model chain_data) as [Hrun Hvalid].
  - unfold maxtime, vec_size. simpl. lia.
  - split; [exact Hrun|].
    exact (Hvalid chain_model_valid chain_data_valid).
Defined.

(** C9.  For a model with at least one state and an observation sequence
    of at least one step, every element of a sequence the decoder returns
    is a state index below [nstates], never [HMM_UNDEFINED_STATE]; so is
    every back-pointer in the filled tables, since a scan that ends on
    the sentinel makes the next access out of range.  On a valid model
    and observation sequence every candidate score is a probability,
    hence above -1, and the decoder returns. *)
Theorem decoded_states_in_range (model : Model) (data : ExperimentData) :
  (1 ≤ nstates model ≤ SIZE_MAX)%N →
  (1 ≤ maxtime data < 9223372036854775808)%N →
  (∀ seq, FindMostProbableStateSequence model data = Some seq →
          ∀ x, x ∈ seq → (x < nstates model)%N ∧ x ≠ HMM_UNDEFINED_STATE) ∧
  (∀ sp ps, viterbi_tables model data = Some (sp, ps) →
            back_pointers_valid model data ps) ∧
  (valid_model model → valid_data model data →
   ∃ seq, FindMostProbableStateSequence model data = Some seq).
Proof.
  intros Hn Hmax.
  assert (Hsentinel : ∀ x, (x < nstates model)%N → x ≠ HMM_UNDEFINED_STATE).
  { intros x Hx ->. rewrite HMM_UNDEFINED_STATE_eq in Hx. lia. }
  split; [|split].
  - intros seq Hseq x Hx.
    pose proof (decoder_in_range model data seq Hn Hmax Hseq) as Hall.
    rewrite Forall_forall in Hall. split; [|apply Hsentinel]; by apply Hall.
  - intros sp ps Htab t s Ht Hs.
    apply viterbi_tables_run in Htab as Hinv; [|lia].
    destruct (back_pointers_in_range model data (proj2 Hn) sp ps (proj1 Hn) Hinv t s Ht Hs)
      as (b & Hb & Hlt).
    exists b. split; [done|]. split; [done|]. by apply Hsentinel.
  - intros Hmodel Hdata.
    destruct (decoder_defined model data Hmodel Hdata) as [seq Hseq]; [lia|].
    by exists seq.
Qed.

Lemma decoded_states_in_range_witness :
  (∀ seq, FindMostProbableStateSequence chain_model chain_data = Some seq →
          ∀ x, x ∈ seq → (x < nstates chain_model)%N ∧ x ≠ HMM_UNDEFINED_STATE) ∧
  (∀ sp ps, viterbi_tables chain_model chain_data = Some (sp, ps) →
            back_pointers_valid chain_model chain_data ps) ∧
  (∃ seq, FindMostProbableStateSequence chain_model chain_data = Some seq).
Proof.
  destruct (decoded_states_in_range chain_model chain_data) as (Hseq & Hptr & Hvalid).
  - unfold nstates, vec_size. simpl. unfold SIZE_MAX. lia.
  - unfold maxtime, vec_size. simpl. lia.
  - split; [exact Hseq|]. split; [exact Hptr|].
    exact (Hvalid chain_model_valid chain_data_valid).
Defined.

(** C5.  At step 0 the predecessor is START for every state [s]: in the
    filled tables [prevSeqState[0][s] = 0] and [sequenceProbability[0][s]
    = 1.0 * transitionProb[0][s] * stateSymbolProb[s][symbolAt(0)]]; and
    for a 1-step observation sequence, what the decoder returns is the
    single state that maximises [transitionProb[0][s] *
    stateSymbolProb[s][symbol]] (the first such state).  On a valid model
    and observation sequence the tables are filled and the decoder
    returns, and the scores are compared as numbers. *)
Theorem first_step_from_start (model : Model) (data : ExperimentData) :
  (1 ≤ nstates model ≤ SIZE_MAX)%N → (1 ≤ maxtime data)%N →
  (∀ sp ps, viterbi_tables model data = Some (sp, ps) →
            ∃ symbol, symbolAt data 0 = Some symbol ∧ start_row model symbol sp ps) ∧
  (maxtime data = 1%N →
   ∀ seq, FindMostProbableStateSequence model data = Some seq →
          ∃ symbol s0 v,
            symbolAt data 0 = Some symbol ∧ seq = [s0] ∧
            is_first_max (initial_score model symbol) (nstates model) s0 v) ∧
  (valid_model model → valid_data model data →
   (∃ sp ps, viterbi_tables model data = Some (sp, ps)) ∧
   (maxtime data = 1%N →
    ∃ symbol s0 v,
      symbolAt data 0 = Some symbol ∧
      FindMostProbableStateSequence model data = Some [s0] ∧
      is_max_at (initial_score model symbol) (nstates model) s0 v)).
Proof.
  intros Hn Hmax. split; [|split].
  - intros sp ps Htab.
    apply viterbi_tables_run in Htab as (_ & _ & Hcells); [|lia].
    cbn [fst snd] in Hcells.
    destruct (Hcells 0%N 0%N) as (symbol & _ & _ & Hsym & _);
      [unfold filled; lia|lia|].
    exists symbol. split; [done|]. intros s Hs.
    destruct (Hcells 0%N s) as (symbol' & v & b & Hsym' & Hv & Hb & -> & x & y & Hx & Hy & ->);
      [unfold filled; lia|done|].
    assert (symbol' = symbol) as -> by congruence.
    by exists x, y.
  - intros Hone seq. by apply decoder_one_step.
  - intros Hmodel Hdata. split.
    + destruct (viterbi_tables_defined model data Hmodel Hdata) as (sp & ps & Htab & _).
      by exists sp, ps.
    + intros Hone.
      destruct (decoder_defined model data Hmodel Hdata Hmax) as [seq Hseq].
      destruct (decoder_one_step model data seq Hn Hone Hseq)
        as (symbol & s0 & v & Hsym & -> & Hfirst).
      exists symbol, s0, v. split; [done|]. split; [done|].
      apply is_first_max_prob; [|done]. intros s c Hs. unfold initial_score.
      destruct (symbolAt_valid model data Hdata 0) as (tss & _ & Hsym' & Hlt); [lia|].
      assert (symbol = tss.2) as -> by congruence.
      destruct (model_entries model Hmodel 0 s tss.2) as (x & y & Hx & Hpx & Hy & Hpy);
        [lia|done..|].
      rewrite Hx, Hy. simpl. intros [= <-]. by apply is_prob_mul.
Qed.

Lemma first_step_from_start_witness :
  (∀ sp ps, viterbi_tables chain_model one_step_data = Some (sp, ps) →
            ∃ symbol, symbolAt one_step_data 0 = Some symbol ∧
                      start_row chain_model symbol sp ps) ∧
  (∀ seq, FindMostProbableStateSequence chain_model one_step_data = Some seq →
          ∃ symbol s0 v,
            symbolAt one_step_data 0 = Some symbol ∧ seq = [s0] ∧
            is_first_max (initial_score chain_model symbol) (nstates chain_model) s0 v) ∧
  (∃ sp ps, viterbi_tables chain_model one_step_data = Some (sp, ps)) ∧
  (∃ symbol s0 v,
     symbolAt one_step_data 0 = Some symbol ∧
     FindMostProbableStateSequence chain_model one_step_data = Some [s0] ∧
     is_max_at (initial_score chain_model symbol) (nstates chain_model) s0 v).
Proof.
  destruct (first_step_from_start chain_model one_step_data) as (Hrow & Hone & Hvalid).
  - unfold nstates, vec_size. simpl. unfold SIZE_MAX. lia.
  - unfold maxtime, vec_size. simpl. lia.
  - destruct (Hvalid chain_model_valid one_step_data_valid) as [Htab Hdecode].
    split; [exact Hrow|]. split; [exact (Hone eq_refl)|].
    split; [exact Htab|]. exact (Hdecode eq_refl).
Defined.

(** The decoder reads an observation sequence through its length and its
    symbol components only. *)
Lemma symbolAt_fmap (data : ExperimentData) (t : N) :
  symbolAt data t = ((λ tss, tss.2) <$> timeStateSymbol data) !! N.to_nat t.
Proof. unfold symbolAt. by rewrite vec_at_lookup, list_lookup_fmap. Qed.

Lemma viterbi_cell_symbol (model : Model) (data1 data2 : ExperimentData) (t s : N)
    (tables : list (list float) * list (list N)) :
  symbolAt data1 t = symbolAt data2 t →
  viterbi_cell model data1 t s tables = viterbi_cell model data2 t s tables.
Proof.
  unfold symbolAt, viterbi_cell. destruct tables as [sp ps].
  destruct (vec_at (timeStateSymbol data1) t) as [tss1|],
           (vec_at (timeStateSymbol data2) t) as [tss2|]; simpl; try done.
  by intros [= ->].
Qed.

(** C6.  The decoder is a function of the model and of the symbol
    component of each step: two observation sequences with the same
    symbols, step by step, decode alike, whatever their step numbers and
    reference states (and so do two equal inputs). *)
Theorem decoder_reads_symbols_only (model : Model) (data1 data2 : ExperimentData) :
  (λ tss, tss.2) <$> timeStateSymbol data1 = (λ tss, tss.2) <$> timeStateSymbol data2 →
  FindMostProbableStateSequence model data1 = FindMostProbableStateSequence model data2.
Proof.
  intros Hsym.
  assert (Hlen : vec_size (timeStateSymbol data1) = vec_size (timeStateSymbol data2)).
  { unfold vec_size. f_equal.
    rewrite <- (length_fmap (λ tss : N * N * N, tss.2) (timeStateSymbol data1)).
    by rewrite Hsym, length_fmap. }
  assert (Htab : viterbi_tables model data1 = viterbi_tables model data2).
  { unfold viterbi_tables, for_upto. rewrite Hlen.
    apply for_loop_ext. intros t tables.
    apply for_loop_ext. intros s tables'.
    apply viterbi_cell_symbol. by rewrite !symbolAt_fmap, Hsym. }
  unfold FindMostProbableStateSequence. by rewrite Htab, Hlen.
Qed.

Lemma decoder_reads_symbols_only_witness :
  FindMostProbableStateSequence chain_model chain_data
  = FindMostProbableStateSequence chain_model chain_data'.
Proof.
  apply (decoder_reads_symbols_only chain_model chain_data chain_data').
  reflexivity.
Defined.

(** The recovery loop pushes the state it has just moved to, and the
    statement after the loop pushes that state once more: whenever the
    loop runs at least once, the returned sequence starts with the same
    state twice, and the state the walk started from is never pushed. *)
Lemma recover_last (ps : list (list N)) (k : nat) :
  ∀ (curState : N) (acc : list N) (curState' : N) (seq : list N),
  last acc = Some curState →
  recover ps k curState acc = Some (curState', seq) →
  last seq = Some curState'.
Proof.
  induction k as [|k IH]; intros cur acc cur' seq Hlast; cbn [recover].
  - by intros [= <- <-].
  - destruct (mat_at ps (N.of_nat (Datatypes.S k)) cur) as [cur1|]; simpl; [|done].
    apply IH. by rewrite last_snoc.
Qed.

Lemma decoder_repeats_first_state (model : Model) (data : ExperimentData)
    (seq : list N) :
  (2 ≤ maxtime data < 9223372036854775808)%N →
  FindMostProbableStateSequence model data = Some seq →
  ∃ x rest, seq = x :: x :: rest.
Proof.
  intros Hmax. unfold FindMostProbableStateSequence.
  destruct (viterbi_tables model data) as [[sp ps]|]; simpl; [|done].
  fold (maxtime data).
  destruct (last_step (maxtime data)) as [-> ->]; [lia|].
  destruct (vec_at sp (maxtime data - 1)) as [lastRow|]; simpl; [|done].
  destruct (Z.to_nat (Z.of_N (maxtime data) - 1)) as [|k] eqn:Hk; [lia|].
  cbn [recover].
  destruct (mat_at ps (N.of_nat (Datatypes.S k)) (max_element lastRow)) as [cur1|];
    simpl; [|done].
  destruct (recover ps k cur1 [cur1]) as [[cur' path]|] eqn:Hrec; simpl; [|done].
  intros [= <-].
  apply recover_last in Hrec; [|done].
  destruct path as [|y path] using rev_ind; [done|].
  rewrite last_snoc in Hrec. injection Hrec as ->.
  exists cur', (reverse path). by rewrite !reverse_snoc.
Qed.

(** C2.  On the worked input, which the two readers produce from their
    sources, the last row of [sequenceProbability] has its maximum at
    state 2 (B) and [prevSeqState[1][2] = 1] (A), so the most probable
    path is A, B; the sequence returned is A, A: the state the recovery
    starts from is overwritten by its predecessor before it is pushed,
    and the state of step 0 is pushed twice. *)
Theorem recovery_drops_final_state :
  ReadModel Model_new chain_source = Returns chain_model ∧
  ReadExperimentData ExperimentData_new chain_model chain_trace = Returns chain_data ∧
  ∃ sp ps lastRow,
    viterbi_tables chain_model chain_data = Some (sp, ps) ∧
    vec_at sp 1 = Some lastRow ∧
    max_element lastRow = 2%N ∧
    mat_at ps 1 2 = Some 1%N ∧
    FindMostProbableStateSequence chain_model chain_data = Some [1%N; 1%N].
Proof.
  split; [vm_compute; reflexivity|]. split; [vm_compute; reflexivity|].
  do 3 eexists.
  split; [vm_compute; reflexivity|]. split; [vm_compute; reflexivity|].
  split; [vm_compute; reflexivity|]. split; vm_compute; reflexivity.
Qed.

(** C8.  The forward-backward entry point has no statement in its body:
    for every input the call has no defined outcome; it neither throws an
    exception nor returns a value. *)
Theorem forward_backward_has_no_result (model : Model) (data : ExperimentData) :
  CalcForwardBackwardProbabiliies model data = Undefined ∧
  (∀ e, CalcForwardBackwardProbabiliies model data ≠ Throws e) ∧
  (∀ v, CalcForwardBackwardProbabiliies model data ≠ Returns v).
Proof.
  unfold CalcForwardBackwardProbabiliies.
  split; [reflexivity|]. split; intros x Hx; discriminate Hx.
Qed.

(** C8, as stated, fails: on the default-constructed inputs the call
    throws nothing, so it gives no not-implemented signal. *)
Lemma forward_backward_gives_no_signal :
  ¬ ∃ e, CalcForwardBackwardProbabiliies Model_new ExperimentData_new = Throws e.
Proof. intros [e He]. discriminate He. Qed.

(* ================================================================== *)
(** * The readers *)

Section Registry.
Implicit Types (reg : gmap string N) (name : string).

Lemma map_subscript_value reg name :
  (map_subscript reg name).1 = default 0%N (reg !! name).
Proof. unfold map_subscript. by destruct (reg !! name). Qed.

Lemma map_subscript_default reg name name' :
  default 0%N ((map_subscript reg name).2 !! name') = default 0%N (reg !! name').
Proof.
  unfold map_subscript. destruct (reg !! name) eqn:Hname; simpl; [done|].
  destruct (decide (name = name')) as [<-|Hne].
  - by rewrite lookup_insert_eq, Hname.
  - by rewrite lookup_insert_ne.
Qed.

Lemma map_subscript_keeps reg name name' (v : N) :
  reg !! name' = Some v → (map_subscript reg name).2 !! name' = Some v.
Proof.
  unfold map_subscript. destruct (reg !! name) eqn:Hname; simpl; [done|].
  intros Hv. rewrite lookup_insert_ne; [done|]. intros ->. congruence.
Qed.

Lemma map_subscript_present reg name :
  is_Some ((map_subscript reg name).2 !! name).
Proof.
  unfold map_subscript. destruct (reg !! name) eqn:Hname; simpl; [by eexists|].
  rewrite lookup_insert_eq. by eexists.
Qed.

Lemma read_states_bound (names : list string) : ∀ (i : N) reg name (v : N),
  read_states names i reg !! name = Some v →
  reg !! name = Some v ∨ (i ≤ v < i + vec_size names)%N.
Proof.
  unfold vec_size.
  induction names as [|n names IH]; intros i reg name v; simpl; [by left|].
  intros [Hv|Hv]%IH; [|right; lia].
  destruct (decide (n = name)) as [->|Hne].
  - rewrite lookup_insert_eq in Hv. injection Hv as <-. right. lia.
  - rewrite lookup_insert_ne in Hv by done. by left.
Qed.

Lemma read_states_undeclared (names : list string) : ∀ (i : N) reg name,
  name ∉ names → reg !! name = None → read_states names i reg !! name = None.
Proof.
  induction names as [|n names IH]; intros i reg name Hnot Hreg; simpl; [done|].
  apply not_elem_of_cons in Hnot as [Hne Hnot].
  apply IH; [done|]. by rewrite lookup_insert_ne.
Qed.

End Registry.

Lemma to_size_t_succ (i n : N) :
  (i = 0 ∨ i < n)%N → (n ≤ SIZE_MAX)%N → to_size_t (Z.of_N i + 1) = (i + 1)%N.
Proof.
  unfold SIZE_MAX, to_size_t. intros Hi Hn.
  rewrite Z.mod_small by lia. lia.
Qed.

Section ReadModel.
Variables (self : Model) (modelSource : ModelSource).

Let n : N := vec_size (src_states modelSource).

Lemma resolve_undeclared (name : string) :
  ¬ declared self modelSource name → resolve self modelSource name = 0%N.
Proof.
  intros Hnot. unfold resolve. rewrite read_states_undeclared; [done| |].
  - intros Hin. apply Hnot. by left.
  - destruct (stateNameToIndex self !! name) eqn:Hreg; [|done].
    exfalso. apply Hnot. right. by eexists.
Qed.

Lemma resolve_bound (name : string) :
  stateNameToIndex self = ∅ →
  (resolve self modelSource name = 0 ∨ resolve self modelSource name < n)%N.
Proof.
  intros Hempty. unfold resolve.
  destruct (read_states _ _ _ !! name) as [v|] eqn:Hv; simpl; [|by left].
  apply read_states_bound in Hv as [Hv|Hv]; [|right; unfold n; lia].
  rewrite Hempty, lookup_empty in Hv. done.
Qed.

(** The readers raise [std::domain_error] only. *)
Lemma read_transitions_throws (trs : list (string * string * float)) :
  ∀ reg tp e, read_transitions n trs reg tp = Throws e →
  e = domain_error "Transition from the ending state is forbidden" ∨
  e = domain_error "Transition to the starting state is forbidden".
Proof.
  induction trs as [|[[from to] prob] trs IH]; intros reg tp e; simpl; [done|].
  destruct (map_subscript reg from) as [fromInd reg1].
  destruct (map_subscript reg1 to) as [toInd reg2].
  destruct (to_size_t (Z.of_N fromInd + 1) =? n)%N; [intros [= <-]; by left|].
  destruct (toInd =? 0)%N; [intros [= <-]; by right|].
  destruct (mat_set tp fromInd toInd prob); [apply IH|done].
Qed.

Lemma read_emissions_throws (ems : list (string * string * float)) :
  ∀ reg sp e, read_emissions n ems reg sp = Throws e →
  e = domain_error
        "Symbol emission from the beginning or the ending states is forbidden".
Proof.
  induction ems as [|[[state symbol] prob] ems IH]; intros reg sp e; simpl; [done|].
  destruct (map_subscript reg state) as [stateInd reg1].
  destruct ((stateInd =? 0)%N || (to_size_t (Z.of_N stateInd + 1) =? n)%N);
    [by intros [= <-]|].
  destruct (mat_set sp stateInd _ prob); [apply IH|done].
Qed.

(** What a completed loop leaves in the registry. *)
Lemma read_transitions_registry (trs : list (string * string * float)) :
  ∀ reg tp reg' tp', read_transitions n trs reg tp = Returns (reg', tp') →
  (∀ name, default 0%N (reg' !! name) = default 0%N (reg !! name)) ∧
  (∀ name v, reg !! name = Some v → reg' !! name = Some v) ∧
  Forall (λ tr : string * string * float,
            is_Some (reg' !! tr.1.1) ∧ is_Some (reg' !! tr.1.2)) trs.
Proof.
  induction trs as [|[[from to] prob] trs IH]; intros reg tp reg' tp'; simpl.
  { intros [= <- <-]. done. }
  pose proof (map_subscript_default reg from) as Hd1.
  pose proof (map_subscript_keeps reg from) as Hk1.
  pose proof (map_subscript_present reg from) as Hp1.
  destruct (map_subscript reg from) as [fromInd reg1]. simpl in Hd1, Hk1, Hp1.
  pose proof (map_subscript_default reg1 to) as Hd2.
  pose proof (map_subscript_keeps reg1 to) as Hk2.
  pose proof (map_subscript_present reg1 to) as Hp2.
  destruct (map_subscript reg1 to) as [toInd reg2]. simpl in Hd2, Hk2, Hp2.
  destruct (to_size_t (Z.of_N fromInd + 1) =? n)%N; [done|].
  destruct (toInd =? 0)%N; [done|].
  destruct (mat_set tp fromInd toInd prob) as [tp1|]; [|done].
  intros (Hd & Hk & Hall)%IH. split; [|split].
  - intros name. by rewrite Hd, Hd2, Hd1.
  - intros name v Hv. by apply Hk, Hk2, Hk1.
  - constructor; [|done]. simpl. destruct Hp1 as [v1 Hv1], Hp2 as [v2 Hv2].
    split; eexists; [by apply Hk, Hk2|by apply Hk].
Qed.

Lemma read_emissions_registry (ems : list (string * string * float)) :
  ∀ reg sp reg' sp', read_emissions n ems reg sp = Returns (reg', sp') →
  (∀ name, default 0%N (reg' !! name) = default 0%N (reg !! name)) ∧
  (∀ name v, reg !! name = Some v → reg' !! name = Some v) ∧
  Forall (λ em : string * string * float, is_Some (reg' !! em.1.1)) ems.
Proof.
  induction ems as [|[[state symbol] prob] ems IH]; intros reg sp reg' sp'; simpl.
  { intros [= <- <-]. done. }
  pose proof (map_subscript_default reg state) as Hd1.
  pose proof (map_subscript_keeps reg state) as Hk1.
  pose proof (map_subscript_present reg state) as Hp1.
  destruct (map_subscript reg state) as [stateInd reg1]. simpl in Hd1, Hk1, Hp1.
  destruct ((stateInd =? 0)%N || (to_size_t (Z.of_N stateInd + 1) =? n)%N); [done|].
  destruct (mat_set sp stateInd _ prob) as [sp1|]; [|done].
  intros (Hd & Hk & Hall)%IH. split; [|split].
  - intros name. by rewrite Hd, Hd1.
  - intros name v Hv. by apply Hk, Hk1.
  - constructor; [|done]. simpl. destruct Hp1 as [v1 Hv1]. eexists. by apply Hk.
Qed.

End ReadModel.

Section ReadModelChecks.
Variables (self : Model) (modelSource : ModelSource).
Hypothesis Hfresh : stateNameToIndex self = ∅.
Hypothesis Hsize : (vec_size (src_states modelSource) ≤ SIZE_MAX)%N.

Let n : N := vec_size (src_states modelSource).
Let R (reg : gmap string N) : Prop :=
  ∀ name, default 0%N (reg !! name) = resolve self modelSource name.

Lemma end_test (name : string) :
  (to_size_t (Z.of_N (resolve self modelSource name) + 1) =? n)%N = true ↔
  (resolve self modelSource name + 1 = n)%N.
Proof.
  rewrite (to_size_t_succ _ n); [apply N.eqb_eq| |done].
  by apply resolve_bound.
Qed.

(** The transition loop stops at the first rejected triple, and only there. *)
Lemma read_transitions_checks (trs : list (string * string * float)) :
  ∀ reg tp, R reg → is_matrix n n tp →
  match read_transitions n trs reg tp with
  | Returns (reg', tp') =>
      R reg' ∧ is_matrix n n tp' ∧
      Forall (λ tr, ¬ bad_transition self modelSource tr) trs
  | Throws e => Exists (bad_transition self modelSource) trs
  | Undefined => False
  end.
Proof.
  induction trs as [|[[from to] prob] trs IH]; intros reg tp HR Htp; simpl; [done|].
  pose proof (map_subscript_value reg from) as Hv1.
  pose proof (map_subscript_default reg from) as Hd1.
  destruct (map_subscript reg from) as [fromInd reg1]. simpl in Hv1, Hd1.
  pose proof (map_subscript_value reg1 to) as Hv2.
  pose proof (map_subscript_default reg1 to) as Hd2.
  destruct (map_subscript reg1 to) as [toInd reg2]. simpl in Hv2, Hd2.
  assert (Hfrom : fromInd = resolve self modelSource from) by (by rewrite Hv1, HR).
  assert (Hto : toInd = resolve self modelSource to) by (by rewrite Hv2, Hd1, HR).
  assert (HR2 : R reg2) by (intros name; by rewrite Hd2, Hd1, HR).
  pose proof (end_test from) as Hend. rewrite <- Hfrom in Hend.
  destruct (to_size_t (Z.of_N fromInd + 1) =? n)%N eqn:Htest1.
  { apply Exists_cons_hd. left. simpl. rewrite <- Hfrom. by apply Hend. }
  destruct (N.eqb_spec toInd 0) as [Hzero|Hnz].
  { apply Exists_cons_hd. right. simpl. by rewrite <- Hto. }
  assert (Hgood : ¬ bad_transition self modelSource (from, to, prob)).
  { intros [Hb|Hb]; simpl in Hb.
    - rewrite <- Hfrom in Hb. apply Hend in Hb. congruence.
    - by rewrite <- Hto in Hb. }
  assert (Hto_lt : (toInd < n)%N).
  { destruct (resolve_bound self modelSource to Hfresh) as [H0|Hlt];
      rewrite <- Hto in *; [done|exact Hlt]. }
  assert (Hfrom_lt : (fromInd < n)%N).
  { destruct (resolve_bound self modelSource from Hfresh) as [H0|Hlt];
      rewrite <- Hfrom in *; [lia|exact Hlt]. }
  destruct (mat_set_is_matrix tp n n fromInd toInd prob Htp Hfrom_lt Hto_lt)
    as (tp1 & Hset & Htp1).
  rewrite Hset. specialize (IH reg2 tp1 HR2 Htp1).
  destruct (read_transitions n trs reg2 tp1) as [[reg' tp']|e|].
  - destruct IH as (? & ? & ?). split; [done|]. split; [done|]. by constructor.
  - by apply Exists_cons_tl.
  - done.
Qed.

(** The emission loop stops at the first rejected triple; it has no
    defined outcome only when a symbol is outside the alphabet. *)
Lemma read_emissions_checks (asize : N) (ems : list (string * string * float)) :
  ∀ reg sp, R reg → is_matrix n asize sp →
  match read_emissions n ems reg sp with
  | Returns (reg', sp') =>
      Forall (λ em, ¬ bad_emission self modelSource em) ems
  | Throws e => Exists (bad_emission self modelSource) ems
  | Undefined =>
      Exists (λ em : string * string * float,
                ¬ (to_size_t (symbolToInd em.1.2) < asize)%N) ems
  end.
Proof.
  induction ems as [|[[state symbol] prob] ems IH]; intros reg sp HR Hsp;
    simpl; [done|].
  pose proof (map_subscript_value reg state) as Hv1.
  pose proof (map_subscript_default reg state) as Hd1.
  destruct (map_subscript reg state) as [stateInd reg1]. simpl in Hv1, Hd1.
  assert (Hstate : stateInd = resolve self modelSource state) by (by rewrite Hv1, HR).
  assert (HR1 : R reg1) by (intros name; by rewrite Hd1, HR).
  pose proof (end_test state) as Hend. rewrite <- Hstate in Hend.
  destruct (N.eqb_spec stateInd 0) as [Hzero|Hnz]; simpl.
  { apply Exists_cons_hd. left. simpl. by rewrite <- Hstate. }
  destruct (to_size_t (Z.of_N stateInd + 1) =? n)%N eqn:Htest.
  { apply Exists_cons_hd. right. simpl. rewrite <- Hstate. by apply Hend. }
  assert (Hgood : ¬ bad_emission self modelSource (state, symbol, prob)).
  { intros [Hb|Hb]; simpl in Hb.
    - by rewrite <- Hstate in Hb.
    - rewrite <- Hstate in Hb. apply Hend in Hb. congruence. }
  assert (Hstate_lt : (stateInd < n)%N).
  { destruct (resolve_bound self modelSource state Hfresh) as [H0|Hlt];
      rewrite <- Hstate in *; [done|exact Hlt]. }
  destruct (mat_set sp stateInd (to_size_t (symbolToInd symbol)) prob)
    as [sp1|] eqn:Hset.
  - assert (Hsp1 : is_matrix n asize sp1) by (by apply (mat_set_Some _ _ _ _ _ Hset)).
    specialize (IH reg1 sp1 HR1 Hsp1).
    destruct (read_emissions n ems reg1 sp1) as [[reg' sp']|e|].
    + by constructor.
    + by apply Exists_cons_tl.
    + by apply Exists_cons_tl.
  - apply Exists_cons_hd. simpl. intros Hsym.
    destruct (mat_set_is_matrix sp n asize stateInd _ prob Hsp Hstate_lt Hsym)
      as (sp1 & Hset1 & _).
    congruence.
Qed.

(** The outcome of [ReadModel] on a fresh object. *)
Lemma ReadModel_outcome :
  match ReadModel self modelSource with
  | Returns _ =>
      Forall (λ tr, ¬ bad_transition self modelSource tr) (src_transitions modelSource) ∧
      Forall (λ em, ¬ bad_emission self modelSource em) (src_emissions modelSource)
  | Throws e =>
      (∃ what_arg, e = domain_error what_arg) ∧
      (Exists (bad_transition self modelSource) (src_transitions modelSource) ∨
       Exists (bad_emission self modelSource) (src_emissions modelSource))
  | Undefined => ¬ symbols_in_alphabet modelSource
  end.
Proof.
  unfold ReadModel. fold n.
  pose proof (read_transitions_checks (src_transitions modelSource)
    (read_states (src_states modelSource) 0 (stateNameToIndex self))
    (replicate (N.to_nat n) (replicate (N.to_nat n) 0%float))
    (λ name, eq_refl) (is_matrix_replicate _ _ _)) as Htr.
  destruct (read_transitions _ _ _ _) as [[reg1 tp]|e|] eqn:Hrun; [| |done].
  - destruct Htr as (HR1 & _ & Hgood).
    pose proof (read_emissions_checks (src_alphabetSize modelSource)
      (src_emissions modelSource) reg1
      (replicate (N.to_nat n) (replicate (N.to_nat (src_alphabetSize modelSource)) 0%float))
      HR1 (is_matrix_replicate _ _ _)) as Hem.
    destruct (read_emissions _ _ _ _) as [[reg2 sp]|e|] eqn:Hrun2.
    + done.
    + split; [|by right]. apply read_emissions_throws in Hrun2 as ->. by eexists.
    + intros Hsym. apply Exists_exists in Hem as (em & Hin & Hout).
      unfold symbols_in_alphabet in Hsym. rewrite Forall_forall in Hsym.
      by apply Hout, Hsym.
  - split; [|by left]. apply read_transitions_throws in Hrun as [-> | ->]; by eexists.
Qed.

End ReadModelChecks.

(* ================================================================== *)
(** * Properties of the readers *)

(** C4.  Reading a model into a fresh object throws [std::domain_error]
    exactly when some transition leaves END (index [nstates-1]) or enters
    START (index 0), or some emission is attached to START or END:
    every such transition makes the call throw; a call that throws has
    met such a transition or emission; a call that returns a model has
    met none (nothing is ignored or zeroed); and when every emission
    symbol lies inside the alphabet, so that no write is out of range,
    the call throws if and only if the source holds such a triple. *)
Theorem ReadModel_domain_error_iff (self : Model) (modelSource : ModelSource) :
  stateNameToIndex self = ∅ →
  (vec_size (src_states modelSource) ≤ SIZE_MAX)%N →
  (∀ tr, tr ∈ src_transitions modelSource → bad_transition self modelSource tr →
         is_domain_error (ReadModel self modelSource)) ∧
  (is_domain_error (ReadModel self modelSource) →
     Exists (bad_transition self modelSource) (src_transitions modelSource) ∨
     Exists (bad_emission self modelSource) (src_emissions modelSource)) ∧
  (∀ model, ReadModel self modelSource = Returns model →
     Forall (λ tr, ¬ bad_transition self modelSource tr) (src_transitions modelSource) ∧
     Forall (λ em, ¬ bad_emission self modelSource em) (src_emissions modelSource)) ∧
  (symbols_in_alphabet modelSource →
     (is_domain_error (ReadModel self modelSource) ↔
        Exists (bad_transition self modelSource) (src_transitions modelSource) ∨
        Exists (bad_emission self modelSource) (src_emissions modelSource))).
Proof.
  intros Hfresh Hsize.
  pose proof (ReadModel_outcome self modelSource Hfresh Hsize) as Hout.
  split; [|split; [|split]].
  - intros tr Hin Hbad. unfold ReadModel in *.
    pose proof (read_transitions_checks self modelSource Hfresh Hsize
      (src_transitions modelSource)
      (read_states (src_states modelSource) 0 (stateNameToIndex self))
      (replicate (N.to_nat (vec_size (src_states modelSource)))
         (replicate (N.to_nat (vec_size (src_states modelSource))) 0%float))
      (λ name, eq_refl) (is_matrix_replicate _ _ _)) as Htr.
    destruct (read_transitions _ _ _ _) as [[reg1 tp]|e|] eqn:Hrun; [| |done].
    + destruct Htr as (_ & _ & Hgood). rewrite Forall_forall in Hgood.
      by destruct (Hgood tr Hin).
    + apply read_transitions_throws in Hrun as [-> | ->]; by eexists.
  - intros [msg Hthrow]. rewrite Hthrow in Hout. by destruct Hout as [_ ?].
  - intros model Hret. by rewrite Hret in Hout.
  - intros Hsym. split.
    + intros [msg Hthrow]. rewrite Hthrow in Hout. by destruct Hout as [_ ?].
    + intros Hbad. destruct (ReadModel self modelSource) as [model|e|].
      * destruct Hout as [Htr Hem]. rewrite Forall_forall in Htr, Hem. exfalso.
        destruct Hbad as [Hbad|Hbad]; apply Exists_exists in Hbad as (x & Hin & Hx);
          [by apply (Htr x)|by apply (Hem x)].
      * destruct Hout as [[msg ->] _]. by eexists.
      * done.
Qed.

Lemma ReadModel_domain_error_iff_witness :
  (∀ tr, tr ∈ src_transitions end_source → bad_transition Model_new end_source tr →
         is_domain_error (ReadModel Model_new end_source)) ∧
  (is_domain_error (ReadModel Model_new end_source) →
     Exists (bad_transition Model_new end_source) (src_transitions end_source) ∨
     Exists (bad_emission Model_new end_source) (src_emissions end_source)) ∧
  (∀ model, ReadModel Model_new end_source = Returns model →
     Forall (λ tr, ¬ bad_transition Model_new end_source tr) (src_transitions end_source) ∧
     Forall (λ em, ¬ bad_emission Model_new end_source em) (src_emissions end_source)) ∧
  (is_domain_error (ReadModel Model_new end_source) ↔
     Exists (bad_transition Model_new end_source) (src_transitions end_source) ∨
     Exists (bad_emission Model_new end_source) (src_emissions end_source)).
Proof.
  destruct (ReadModel_domain_error_iff Model_new end_source) as (H1 & H2 & H3 & H4).
  - reflexivity.
  - vm_compute. discriminate.
  - split; [exact H1|]. split; [exact H2|]. split; [exact H3|].
    apply H4. repeat constructor.
Defined.

Lemma read_steps_outcome (reg : gmap string N) (steps : DataSource) :
  ∀ tss,
  match read_steps reg steps tss with
  | Returns _ => Forall (λ step : N * string * string, is_Some (reg !! step.1.2)) steps
  | Throws e =>
      e = out_of_range ∧
      Exists (λ step : N * string * string, reg !! step.1.2 = None) steps
  | Undefined => False
  end.
Proof.
  induction steps as [|[[stepNumber stateName] symbol] steps IH]; intros tss; simpl;
    [done|].
  unfold map_at. destruct (reg !! stateName) as [stateInd|] eqn:Hname.
  - specialize (IH (tss ++ [(stepNumber, stateInd, to_size_t (symbolToInd symbol))])).
    destruct (read_steps reg steps _) as [tss'|e|]; [|destruct IH|done].
    + constructor; [by eexists|done].
    + split; [done|]. by apply Exists_cons_tl.
  - split; [done|]. by apply Exists_cons_hd.
Qed.

(** C7.  Reading observations throws [std::out_of_range] exactly when
    some observation names a state that is absent from the model's
    registry; it never throws [std::domain_error], which is another
    exception class; and when it does not throw it returns. *)
Theorem ReadExperimentData_lookup_error_iff (self : ExperimentData) (model : Model)
    (dataSource : DataSource) :
  (is_lookup_error (ReadExperimentData self model dataSource) ↔
     Exists (λ step : N * string * string,
               stateNameToIndex model !! step.1.2 = None) dataSource) ∧
  ¬ is_domain_error (ReadExperimentData self model dataSource) ∧
  (∀ what_arg, out_of_range ≠ domain_error what_arg) ∧
  (is_lookup_error (ReadExperimentData self model dataSource) ∨
   ∃ data, ReadExperimentData self model dataSource = Returns data).
Proof.
  unfold ReadExperimentData, is_lookup_error, is_domain_error.
  pose proof (read_steps_outcome (stateNameToIndex model) dataSource
                (timeStateSymbol self)) as Hsteps.
  destruct (read_steps _ _ _) as [tss|e|]; [|destruct Hsteps as [-> Hbad]|done].
  - split; [|split; [|split]].
    + split; [done|]. intros Hbad. exfalso.
      apply Exists_exists in Hbad as (step & Hin & Hnone).
      rewrite Forall_forall in Hsteps. destruct (Hsteps step Hin) as [v Hv]. congruence.
    + by intros [msg ?].
    + done.
    + right. by eexists.
  - split; [|split; [|split]].
    + done.
    + by intros [msg ?].
    + done.
    + by left.
Qed.

(** C10.  [ReadModel] never throws [std::out_of_range]: [operator[]]
    inserts a missing name with index 0.  So a transition whose target was
    never declared is rejected with a [std::domain_error] (the one for a
    transition into START when the source state passes its own check), and
    after a call that returns, every undeclared name the triples use is in
    the registry with index 0. *)
Theorem undeclared_names_resolve_to_start :
  (∀ self modelSource, ¬ is_lookup_error (ReadModel self modelSource)) ∧
  (∀ (reg : gmap string N) name,
     reg !! name = None → map_subscript reg name = (0%N, <[name := 0%N]> reg)) ∧
  (∀ self modelSource from to prob rest,
     src_transitions modelSource = (from, to, prob) :: rest →
     ¬ declared self modelSource to →
     ReadModel self modelSource
       = Throws (domain_error "Transition from the ending state is forbidden") ∨
     ReadModel self modelSource
       = Throws (domain_error "Transition to the starting state is forbidden")) ∧
  (∀ self modelSource model name,
     ReadModel self modelSource = Returns model →
     ((∃ tr, tr ∈ src_transitions modelSource ∧ (tr.1.1 = name ∨ tr.1.2 = name)) ∨
      (∃ em, em ∈ src_emissions modelSource ∧ em.1.1 = name)) →
     ¬ declared self modelSource name →
     stateNameToIndex model !! name = Some 0%N) ∧
  (¬ declared Model_new undeclared_target_source "X" ∧
   ReadModel Model_new undeclared_target_source
     = Throws (domain_error "Transition to the starting state is forbidden")).
Proof.
  split; [|split; [|split; [|split]]].
  - intros self modelSource. unfold is_lookup_error, ReadModel.
    destruct (read_transitions _ _ _ _) as [[reg1 tp]|e|] eqn:Hrun; [| |done].
    + destruct (read_emissions _ _ _ _) as [[reg2 sp]|e|] eqn:Hrun2; [done| |done].
      by apply read_emissions_throws in Hrun2 as ->.
    + by apply read_transitions_throws in Hrun as [-> | ->].
  - intros reg name Hnone. unfold map_subscript. by rewrite Hnone.
  - intros self modelSource from to prob rest Htrs Hundeclared.
    apply resolve_undeclared in Hundeclared. unfold resolve in Hundeclared.
    unfold ReadModel. rewrite Htrs. simpl.
    pose proof (map_subscript_default
      (read_states (src_states modelSource) 0 (stateNameToIndex self)) from to) as Hd.
    destruct (map_subscript _ from) as [fromInd reg1]. simpl in Hd.
    pose proof (map_subscript_value reg1 to) as Hv.
    destruct (map_subscript reg1 to) as [toInd reg2]. simpl in Hv.
    destruct (to_size_t (Z.of_N fromInd + 1) =? _)%N; [by left|].
    assert (toInd = 0%N) as -> by (by rewrite Hv, Hd). by right.
  - intros self modelSource model name Hrun Hused Hundeclared.
    apply resolve_undeclared in Hundeclared. unfold resolve in Hundeclared.
    unfold ReadModel in Hrun.
    destruct (read_transitions _ _ _ _) as [[reg1 tp]|e|] eqn:Hrun1; [|done..].
    destruct (read_emissions _ _ _ _) as [[reg2 sp]|e|] eqn:Hrun2; [|done..].
    injection Hrun as <-. simpl.
    apply read_transitions_registry in Hrun1 as (Hd1 & Hk1 & Hall1).
    apply read_emissions_registry in Hrun2 as (Hd2 & Hk2 & Hall2).
    assert (Hzero : default 0%N (reg2 !! name) = 0%N) by (by rewrite Hd2, Hd1).
    assert (Hsome : is_Some (reg2 !! name)).
    { rewrite Forall_forall in Hall1, Hall2.
      destruct Hused as [(tr & Hin & [<-|<-])|(em & Hin & <-)].
      - destruct (Hall1 tr Hin) as [[v Hv] _]. eexists. by apply Hk2.
      - destruct (Hall1 tr Hin) as [_ [v Hv]]. eexists. by apply Hk2.
      - by apply Hall2. }
    destruct Hsome as [v Hv]. rewrite Hv in Hzero. simpl in Hzero. by subst v.
  - split; [|vm_compute; reflexivity].
    intros [Hin|[v Hv]].
    + vm_compute in Hin. by repeat (apply elem_of_cons in Hin as [?|Hin]; [done|]);
        apply elem_of_nil in Hin.
    + done.
Qed.

(* ================================================================== *)
(** * The symbol index *)

Lemma symbolToInd_code (c : Ascii.ascii) (rest : string) :
  symbolToInd (String c rest)
  = to_char (to_char (Z.of_N (Ascii.N_of_ascii c)) - 97).
Proof. reflexivity. Qed.

(** X1.  For a symbol whose first character is a lowercase letter,
    [symbolToInd] is the position of that letter in the alphabet (0 for
    a, 25 for z), whatever follows the first character; converted to
    [size_t] it is that position, below 26. *)
Theorem symbolToInd_lowercase (c : Ascii.ascii) (rest : string) :
  (97 ≤ Ascii.N_of_ascii c ≤ 122)%N →
  symbolToInd (String c rest) = (Z.of_N (Ascii.N_of_ascii c) - 97)%Z ∧
  to_size_t (symbolToInd (String c rest)) = (Ascii.N_of_ascii c - 97)%N ∧
  (to_size_t (symbolToInd (String c rest)) < 26)%N.
Proof.
  intros Hc. rewrite symbolToInd_code. unfold to_char, to_size_t.
  set (k := Z.of_N (Ascii.N_of_ascii c)).
  assert (Hk : (97 ≤ k ≤ 122)%Z) by (unfold k; lia).
  rewrite (Z.mod_small (k + 128)) by lia.
  replace (k + 128 - 128 - 97 + 128)%Z with (k + 31)%Z by lia.
  rewrite (Z.mod_small (k + 31)) by lia.
  rewrite (Z.mod_small (k + 31 - 128)) by lia.
  split; [lia|]. split; lia.
Qed.

Lemma symbolToInd_lowercase_witness :
  symbolToInd "b" = 1%Z ∧ to_size_t (symbolToInd "b") = 1%N ∧
  (to_size_t (symbolToInd "b") < 26)%N.
Proof.
  apply (symbolToInd_lowercase (Ascii.ascii_of_N 98) ""). vm_compute. split; discriminate.
Defined.

(** X2.  Outside the lowercase letters nothing is checked and the index
    wraps around.  Converted to [size_t], the index of the empty string
    is 2^64 - 97; that of a first character of code c < 97 (a digit, an
    upper-case letter) is 2^64 - 97 + c; that of a code between 123 and
    224 is c - 97 (the two conversions to a signed [char] cancel); and
    that of a code c >= 225 is 2^64 - 353 + c. *)
Theorem symbolToInd_outside_lowercase :
  to_size_t (symbolToInd "") = 18446744073709551519%N ∧
  (∀ c rest, (Ascii.N_of_ascii c < 97)%N →
     to_size_t (symbolToInd (String c rest))
     = (18446744073709551519 + Ascii.N_of_ascii c)%N) ∧
  (∀ c rest, (123 ≤ Ascii.N_of_ascii c ≤ 224)%N →
     to_size_t (symbolToInd (String c rest)) = (Ascii.N_of_ascii c - 97)%N) ∧
  (∀ c rest, (225 ≤ Ascii.N_of_ascii c)%N →
     to_size_t (symbolToInd (String c rest))
     = (18446744073709551263 + Ascii.N_of_ascii c)%N).
Proof.
  split; [reflexivity|]. split; [|split]; intros c rest Hc;
    rewrite symbolToInd_code; unfold to_char, to_size_t;
    pose proof (Ascii.N_ascii_bounded c) as Hb;
    set (k := Z.of_N (Ascii.N_of_ascii c));
    assert (Hk : (0 ≤ k < 256)%Z) by (unfold k; lia).
  - assert (Hk' : (k < 97)%Z) by (unfold k; lia).
    rewrite (Z.mod_small (k + 128)) by lia.
    replace (k + 128 - 128 - 97 + 128)%Z with (k + 31)%Z by lia.
    rewrite (Z.mod_small (k + 31)) by lia.
    replace ((k + 31 - 128) mod 18446744073709551616)%Z
      with (k + 18446744073709551519)%Z; [unfold k; lia|].
    apply (Z.mod_unique _ _ (-1)); lia.
  - assert (Hk' : (123 ≤ k ≤ 224)%Z) by (unfold k; lia).
    destruct (Z.lt_ge_cases k 128) as [Hlt|Hge].
    + rewrite (Z.mod_small (k + 128)) by lia.
      replace (k + 128 - 128 - 97 + 128)%Z with (k + 31)%Z by lia.
      rewrite (Z.mod_small (k + 31)) by lia.
      rewrite (Z.mod_small (k + 31 - 128)) by lia. lia.
    + replace ((k + 128) mod 256)%Z with (k - 128)%Z
        by (apply (Z.mod_unique _ _ 1); lia).
      replace ((k - 128 - 128 - 97 + 128) mod 256)%Z with (k + 31)%Z
        by (apply (Z.mod_unique _ _ (-1)); lia).
      rewrite (Z.mod_small (k + 31 - 128)) by lia. lia.
  - assert (Hk' : (225 ≤ k)%Z) by (unfold k; lia).
    replace ((k + 128) mod 256)%Z with (k - 128)%Z
      by (apply (Z.mod_unique _ _ 1); lia).
    replace ((k - 128 - 128 - 97 + 128) mod 256)%Z with (k - 225)%Z
      by (apply (Z.mod_unique _ _ 0); lia).
    replace ((k - 225 - 128) mod 18446744073709551616)%Z
      with (k + 18446744073709551263)%Z; [unfold k; lia|].
    apply (Z.mod_unique _ _ (-1)); lia.
Qed.

(* ================================================================== *)
(** * The tables and the registry the readers build *)

Lemma mat_at_replicate {A : Type} (rows cols i j : N) (x : A) :
  (i < rows)%N → (j < cols)%N →
  mat_at (replicate (N.to_nat rows) (replicate (N.to_nat cols) x)) i j = Some x.
Proof.
  intros Hi Hj. rewrite mat_at_lookup.
  rewrite lookup_replicate_2 by lia. simpl. apply lookup_replicate_2. lia.
Qed.

(** A write that has a result was in range. *)
Lemma mat_set_in_range {A : Type} (m m' : list (list A)) (rows cols i j : N) (x : A) :
  is_matrix rows cols m → mat_set m i j x = Some m' → (i < rows ∧ j < cols)%N.
Proof.
  intros [Hr Hc]. unfold mat_set.
  destruct (vec_at m i) as [row|] eqn:Hrow; simpl; [|done].
  assert (Hsz : vec_size row = cols) by apply (vec_at_Forall _ _ _ _ Hc Hrow).
  apply vec_at_Some_lt in Hrow.
  destruct (vec_set row j x) as [row'|] eqn:Hrow'; simpl; [|done].
  unfold vec_set in Hrow'. case_decide as Hj; [|done]. intros _. lia.
Qed.

Section RegistryOfStates.
Implicit Types (reg : gmap string N) (name : string).

Lemma read_states_other (names : list string) : ∀ (i : N) reg name,
  name ∉ names → read_states names i reg !! name = reg !! name.
Proof.
  induction names as [|n names IH]; intros i reg name Hnot; simpl; [done|].
  apply not_elem_of_cons in Hnot as [Hne Hnot].
  rewrite IH by done. by rewrite lookup_insert_ne.
Qed.

(** A declared name is bound to the index of its last declaration. *)
Lemma read_states_last (names : list string) : ∀ (k : N) reg (i : nat) name,
  names !! i = Some name → (∀ j, (i < j)%nat → names !! j ≠ Some name) →
  read_states names k reg !! name = Some (k + N.of_nat i)%N.
Proof.
  induction names as [|n names IH]; intros k reg i name Hi Hlast; [done|].
  destruct i as [|i]; simpl in *.
  - injection Hi as ->. rewrite read_states_other.
    + rewrite lookup_insert_eq. f_equal. lia.
    + intros Hin. apply list_elem_of_lookup in Hin as [j Hj].
      apply (Hlast (Datatypes.S j)); [lia|done].
  - rewrite (IH (N.succ k) _ i name Hi).
    + f_equal. lia.
    + intros j Hj. apply (Hlast (Datatypes.S j)). lia.
Qed.

Lemma read_states_declared (names : list string) : ∀ (k : N) reg name,
  name ∈ names →
  ∃ v, read_states names k reg !! name = Some v ∧ (k ≤ v < k + vec_size names)%N.
Proof.
  unfold vec_size.
  induction names as [|n names IH]; intros k reg name Hin; simpl.
  { by apply elem_of_nil in Hin. }
  destruct (decide (name ∈ names)) as [Hrest|Hrest].
  - destruct (IH (N.succ k) (<[n := k]> reg) name Hrest) as (v & Hv & Hb).
    exists v. split; [done|]. lia.
  - apply elem_of_cons in Hin as [->|Hin]; [|done].
    exists k. rewrite read_states_other by done.
    rewrite lookup_insert_eq. split; [done|]. lia.
Qed.

End RegistryOfStates.

Section ReadModelTables.
Variables (self : Model) (modelSource : ModelSource).

Let n : N := vec_size (src_states modelSource).
Let R (reg : gmap string N) : Prop :=
  ∀ name, default 0%N (reg !! name) = resolve self modelSource name.

(** What a completed transition loop leaves in the table. *)
Lemma read_transitions_table (trs : list (string * string * float)) :
  ∀ reg tp reg' tp', R reg →
  read_transitions n trs reg tp = Returns (reg', tp') →
  R reg' ∧
  (∀ rows cols, is_matrix rows cols tp → is_matrix rows cols tp') ∧
  (∀ P : float → Prop,
     Forall (Forall P) tp → Forall (λ tr : string * string * float, P tr.2) trs →
     Forall (Forall P) tp') ∧
  (∀ p s x, mat_at tp p s = Some x →
     mat_at tp' p s
     = Some (fold_left (λ acc tr, if hits_transition self modelSource p s tr
                                  then tr.2 else acc) trs x)) ∧
  (∀ p, mat_at tp' p 0 = mat_at tp p 0) ∧
  (∀ e s, to_size_t (Z.of_N e + 1) = n → mat_at tp' e s = mat_at tp e s).
Proof.
  induction trs as [|[[from to] prob] trs IH]; intros reg tp reg' tp' HR; simpl.
  { intros [= <- <-]. split; [done|]. split; [done|]. split; [done|].
    split; [done|]. done. }
  pose proof (map_subscript_value reg from) as Hv1.
  pose proof (map_subscript_default reg from) as Hd1.
  destruct (map_subscript reg from) as [fromInd reg1]. simpl in Hv1, Hd1.
  pose proof (map_subscript_value reg1 to) as Hv2.
  pose proof (map_subscript_default reg1 to) as Hd2.
  destruct (map_subscript reg1 to) as [toInd reg2]. simpl in Hv2, Hd2.
  assert (Hfrom : fromInd = resolve self modelSource from) by (by rewrite Hv1, HR).
  assert (Hto : toInd = resolve self modelSource to) by (by rewrite Hv2, Hd1, HR).
  assert (HR2 : R reg2) by (intros name; by rewrite Hd2, Hd1, HR).
  destruct (N.eqb_spec (to_size_t (Z.of_N fromInd + 1)) n) as [|Hend]; [done|].
  destruct (N.eqb_spec toInd 0) as [|Hnz]; [done|].
  destruct (mat_set tp fromInd toInd prob) as [tp1|] eqn:Hset; [|done].
  intros Hrun.
  destruct (IH reg2 tp1 reg' tp' HR2 Hrun) as (HR' & Hshape & HP & Hcont & Hcol & Hrow).
  apply mat_set_Some in Hset as (Hshape1 & Hrows1 & Hrow1 & Hnew1 & HP1).
  split; [done|]. split; [|split; [|split; [|split]]].
  - intros rows cols Hm. by apply Hshape, Hshape1.
  - intros P Htp Htrs. apply Forall_cons in Htrs as [Hp Htrs].
    apply HP; [|done]. by apply HP1.
  - intros p s x Hx. cbn [fold_left]. apply Hcont.
    unfold hits_transition. cbn [fst snd]. rewrite <- Hfrom, <- Hto.
    destruct (N.eqb_spec fromInd p) as [<-|Hp]; simpl.
    + destruct (N.eqb_spec toInd s) as [<-|Hs]; [done|].
      rewrite Hrow1 by done. done.
    + rewrite (mat_at_row_eq tp tp1) by (by apply Hrows1). done.
  - intros p. rewrite Hcol. destruct (decide (p = fromInd)) as [->|Hp].
    + apply Hrow1. done.
    + by apply mat_at_row_eq, Hrows1.
  - intros e s He. rewrite (Hrow e s He). apply mat_at_row_eq, Hrows1.
    intros ->. done.
Qed.

(** What a completed emission loop leaves in the table. *)
Lemma read_emissions_table (ems : list (string * string * float)) :
  ∀ reg sp reg' sp', R reg →
  read_emissions n ems reg sp = Returns (reg', sp') →
  (∀ rows cols, is_matrix rows cols sp →
     is_matrix rows cols sp' ∧
     Forall (λ em : string * string * float,
               (to_size_t (symbolToInd em.1.2) < cols)%N) ems) ∧
  (∀ P : float → Prop,
     Forall (Forall P) sp → Forall (λ em : string * string * float, P em.2) ems →
     Forall (Forall P) sp') ∧
  (∀ s symbol x, mat_at sp s symbol = Some x →
     mat_at sp' s symbol
     = Some (fold_left (λ acc em, if hits_emission self modelSource s symbol em
                                  then em.2 else acc) ems x)) ∧
  (∀ symbol, mat_at sp' 0 symbol = mat_at sp 0 symbol) ∧
  (∀ e symbol, to_size_t (Z.of_N e + 1) = n → mat_at sp' e symbol = mat_at sp e symbol).
Proof.
  induction ems as [|[[state symbol] prob] ems IH]; intros reg sp reg' sp' HR; simpl.
  { intros [= <- <-]. split; [done|]. split; [done|]. split; [done|]. done. }
  pose proof (map_subscript_value reg state) as Hv1.
  pose proof (map_subscript_default reg state) as Hd1.
  destruct (map_subscript reg state) as [stateInd reg1]. simpl in Hv1, Hd1.
  assert (Hstate : stateInd = resolve self modelSource state) by (by rewrite Hv1, HR).
  assert (HR1 : R reg1) by (intros name; by rewrite Hd1, HR).
  destruct (N.eqb_spec stateInd 0) as [|Hnz]; [done|]. simpl.
  destruct (N.eqb_spec (to_size_t (Z.of_N stateInd + 1)) n) as [|Hend]; [done|].
  destruct (mat_set sp stateInd (to_size_t (symbolToInd symbol)) prob)
    as [sp1|] eqn:Hset; [|done].
  intros Hrun.
  destruct (IH reg1 sp1 reg' sp' HR1 Hrun) as (Hshape & HP & Hcont & Hrow0 & Hrow).
  pose proof (mat_set_in_range sp sp1) as Hrange.
  apply mat_set_Some in Hset as Hset'.
  destruct Hset' as (Hshape1 & Hrows1 & Hrow1 & Hnew1 & HP1).
  split; [|split; [|split; [|split]]].
  - intros rows cols Hm.
    destruct (Hshape rows cols) as [Hm' Hall]; [by apply Hshape1|].
    split; [done|]. constructor; [|done]. simpl.
    by destruct (Hrange rows cols _ _ _ Hm Hset).
  - intros P Hsp Hems. apply Forall_cons in Hems as [Hp Hems].
    apply HP; [|done]. by apply HP1.
  - intros s sym x Hx. cbn [fold_left]. apply Hcont.
    unfold hits_emission. cbn [fst snd]. rewrite <- Hstate.
    destruct (N.eqb_spec stateInd s) as [<-|Hs]; simpl.
    + destruct (N.eqb_spec (to_size_t (symbolToInd symbol)) sym) as [<-|Hsym]; [done|].
      rewrite Hrow1 by done. done.
    + rewrite (mat_at_row_eq sp sp1) by (by apply Hrows1). done.
  - intros sym. rewrite Hrow0. apply mat_at_row_eq, Hrows1. done.
  - intros e sym He. rewrite (Hrow e sym He). apply mat_at_row_eq, Hrows1.
    intros ->. done.
Qed.

(** The two loops behind a call of [ReadModel] that returns. *)
Lemma ReadModel_returns (model : Model) :
  ReadModel self modelSource = Returns model →
  ∃ reg1 reg2,
    read_transitions n (src_transitions modelSource)
      (read_states (src_states modelSource) 0 (stateNameToIndex self))
      (replicate (N.to_nat n) (replicate (N.to_nat n) 0%float))
    = Returns (reg1, transitionProb model) ∧
    read_emissions n (src_emissions modelSource) reg1
      (replicate (N.to_nat n)
         (replicate (N.to_nat (src_alphabetSize modelSource)) 0%float))
    = Returns (reg2, stateSymbolProb model) ∧
    R reg1 ∧
    stateNameToIndex model = reg2 ∧
    alphabetSize model = src_alphabetSize modelSource.
Proof.
  unfold ReadModel. fold n.
  destruct (read_transitions _ _ _ _) as [[reg1 tp]|e|] eqn:Hrun1; [|done..].
  destruct (read_emissions _ _ _ _) as [[reg2 sp]|e|] eqn:Hrun2; [|done..].
  intros [= <-]. exists reg1, reg2. simpl. split; [done|]. split; [done|].
  split; [|done].
  by apply (read_transitions_table _ _ _ _ _ (λ name, eq_refl) Hrun1).
Qed.

Lemma ReadModel_shape (model : Model) :
  ReadModel self modelSource = Returns model →
  nstates model = n ∧
  is_matrix n n (transitionProb model) ∧
  is_matrix n (src_alphabetSize modelSource) (stateSymbolProb model) ∧
  alphabetSize model = src_alphabetSize modelSource ∧
  symbols_in_alphabet modelSource.
Proof.
  intros (reg1 & reg2 & Hrun1 & Hrun2 & HR1 & _ & Hsize)%ReadModel_returns.
  apply read_transitions_table in Hrun1 as (_ & Hshape & _); [|done].
  apply read_emissions_table in Hrun2 as (Hshape' & _); [|done].
  pose proof (Hshape n n (is_matrix_replicate _ _ _)) as Htp.
  destruct (Hshape' n (src_alphabetSize modelSource) (is_matrix_replicate _ _ _))
    as [Hsp Hsym].
  split; [by destruct Htp|]. done.
Qed.

End ReadModelTables.

Lemma read_steps_appends (reg : gmap string N) (steps : DataSource) :
  ∀ tss,
  Forall (λ step : N * string * string, is_Some (reg !! step.1.2)) steps →
  read_steps reg steps tss
  = Returns (tss ++ map (λ step : N * string * string,
                           (step.1.1, default 0%N (reg !! step.1.2),
                            to_size_t (symbolToInd step.2))) steps).
Proof.
  induction steps as [|[[stepNumber stateName] symbol] steps IH]; intros tss Hall; simpl.
  { by rewrite app_nil_r. }
  apply Forall_cons in Hall as [[stateInd Hname] Hall]. simpl in Hname.
  unfold map_at. rewrite Hname. simpl. rewrite IH by done.
  by rewrite <- app_assoc.
Qed.

(* ================================================================== *)
(** * Further properties of the readers *)

(** X3.  After a call of [ReadModel] that returns, a declared state name
    is bound in the registry to the index of its last declaration in the
    state list (a name declared twice keeps the later index); when the
    declared names are distinct, the name at position [i] is bound to
    [i]. *)
Theorem ReadModel_registry (self : Model) (modelSource : ModelSource) (model : Model) :
  ReadModel self modelSource = Returns model →
  (∀ (i : nat) name,
     src_states modelSource !! i = Some name →
     (∀ j, (i < j)%nat → src_states modelSource !! j ≠ Some name) →
     stateNameToIndex model !! name = Some (N.of_nat i)) ∧
  (NoDup (src_states modelSource) →
   ∀ (i : nat) name,
     src_states modelSource !! i = Some name →
     stateNameToIndex model !! name = Some (N.of_nat i)).
Proof.
  intros (reg1 & reg2 & Hrun1 & Hrun2 & _ & Hreg & _)%ReadModel_returns.
  rewrite Hreg.
  apply read_transitions_registry in Hrun1 as (_ & Hk1 & _).
  apply read_emissions_registry in Hrun2 as (_ & Hk2 & _).
  assert (Hlast : ∀ (i : nat) name,
    src_states modelSource !! i = Some name →
    (∀ j, (i < j)%nat → src_states modelSource !! j ≠ Some name) →
    reg2 !! name = Some (N.of_nat i)).
  { intros i name Hi Hlast. apply Hk2, Hk1.
    by rewrite (read_states_last _ 0 _ i name Hi Hlast). }
  split; [done|]. intros Hnodup i name Hi. apply Hlast; [done|].
  intros j Hj Hname. pose proof (NoDup_lookup _ _ _ _ Hnodup Hi Hname). lia.
Qed.

Lemma ReadModel_registry_witness :
  (∀ (i : nat) name,
     src_states chain_source !! i = Some name →
     (∀ j, (i < j)%nat → src_states chain_source !! j ≠ Some name) →
     stateNameToIndex chain_model !! name = Some (N.of_nat i)) ∧
  (NoDup (src_states chain_source) →
   ∀ (i : nat) name,
     src_states chain_source !! i = Some name →
     stateNameToIndex chain_model !! name = Some (N.of_nat i)).
Proof.
  apply (ReadModel_registry Model_new chain_source chain_model).
  vm_compute. reflexivity.
Defined.

(** X4.  On a fresh object, [ReadModel] returns a model exactly when no
    transition leaves END or enters START, no emission is attached to
    START or END, and every emission symbol lies inside the alphabet. *)
Theorem ReadModel_returns_iff (self : Model) (modelSource : ModelSource) :
  stateNameToIndex self = ∅ →
  (vec_size (src_states modelSource) ≤ SIZE_MAX)%N →
  ((∃ model, ReadModel self modelSource = Returns model) ↔
   Forall (λ tr, ¬ bad_transition self modelSource tr) (src_transitions modelSource) ∧
   Forall (λ em, ¬ bad_emission self modelSource em) (src_emissions modelSource) ∧
   symbols_in_alphabet modelSource).
Proof.
  intros Hfresh Hsize.
  pose proof (ReadModel_outcome self modelSource Hfresh Hsize) as Hout.
  split.
  - intros [model Hret]. rewrite Hret in Hout. destruct Hout as [Htr Hem].
    split; [done|]. split; [done|]. by apply ReadModel_shape in Hret as (_ & _ & _ & _ & ?).
  - intros (Htr & Hem & Hsym). destruct (ReadModel self modelSource) as [model|e|].
    + by exists model.
    + exfalso. rewrite Forall_forall in Htr, Hem.
      destruct Hout as [_ [Hbad|Hbad]]; apply Exists_exists in Hbad as (x & Hin & Hx);
        [by apply (Htr x)|by apply (Hem x)].
    + done.
Qed.

Lemma ReadModel_returns_iff_witness :
  (∃ model, ReadModel Model_new chain_source = Returns model) ↔
  Forall (λ tr, ¬ bad_transition Model_new chain_source tr) (src_transitions chain_source) ∧
  Forall (λ em, ¬ bad_emission Model_new chain_source em) (src_emissions chain_source) ∧
  symbols_in_alphabet chain_source.
Proof.
  apply (ReadModel_returns_iff Model_new chain_source).
  - reflexivity.
  - vm_compute. discriminate.
Defined.

(** X5.  A model [ReadModel] returns has as many states as the source
    declares names, a square [transitionProb] over them, a
    [stateSymbolProb] of [nstates] rows and [alphabetSize] columns, and
    the alphabet size of the source, whatever tables the object held
    before the call. *)
Theorem ReadModel_result_shape (self : Model) (modelSource : ModelSource) (model : Model) :
  ReadModel self modelSource = Returns model →
  nstates model = vec_size (src_states modelSource) ∧
  is_matrix (vec_size (src_states modelSource)) (vec_size (src_states modelSource))
    (transitionProb model) ∧
  is_matrix (vec_size (src_states modelSource)) (src_alphabetSize modelSource)
    (stateSymbolProb model) ∧
  alphabetSize model = src_alphabetSize modelSource.
Proof.
  intros (H1 & H2 & H3 & H4 & _)%ReadModel_shape. done.
Qed.

Lemma ReadModel_result_shape_witness :
  nstates chain_model = vec_size (src_states chain_source) ∧
  is_matrix (vec_size (src_states chain_source)) (vec_size (src_states chain_source))
    (transitionProb chain_model) ∧
  is_matrix (vec_size (src_states chain_source)) (src_alphabetSize chain_source)
    (stateSymbolProb chain_model) ∧
  alphabetSize chain_model = src_alphabetSize chain_source.
Proof.
  apply (ReadModel_result_shape Model_new chain_source chain_model).
  vm_compute. reflexivity.
Defined.

(** X6.  In a model [ReadModel] returns, [transitionProb[p][s]] is the
    probability of the last transition triple whose names resolve to
    [(p, s)], and 0 when no triple does; [stateSymbolProb[s][symbol]] is
    the probability of the last emission triple that resolves to
    [(s, symbol)], and 0 when no triple does.  The values are stored as
    they were read. *)
Theorem ReadModel_entries (self : Model) (modelSource : ModelSource) (model : Model) :
  ReadModel self modelSource = Returns model →
  (∀ p s, (p < vec_size (src_states modelSource))%N →
          (s < vec_size (src_states modelSource))%N →
     mat_at (transitionProb model) p s
     = Some (last_write (hits_transition self modelSource p s)
               (src_transitions modelSource))) ∧
  (∀ s symbol, (s < vec_size (src_states modelSource))%N →
               (symbol < src_alphabetSize modelSource)%N →
     mat_at (stateSymbolProb model) s symbol
     = Some (last_write (hits_emission self modelSource s symbol)
               (src_emissions modelSource))).
Proof.
  intros (reg1 & reg2 & Hrun1 & Hrun2 & HR1 & _)%ReadModel_returns.
  apply (read_transitions_table self modelSource) in Hrun1 as (_ & _ & _ & Hcont1 & _); [|done].
  apply (read_emissions_table self modelSource) in Hrun2 as (_ & _ & Hcont2 & _); [|done].
  split.
  - intros p s Hp Hs. apply Hcont1. by apply mat_at_replicate.
  - intros s symbol Hs Hsym. apply Hcont2. by apply mat_at_replicate.
Qed.

Lemma ReadModel_entries_witness :
  (∀ p s, (p < vec_size (src_states chain_source))%N →
          (s < vec_size (src_states chain_source))%N →
     mat_at (transitionProb chain_model) p s
     = Some (last_write (hits_transition Model_new chain_source p s)
               (src_transitions chain_source))) ∧
  (∀ s symbol, (s < vec_size (src_states chain_source))%N →
               (symbol < src_alphabetSize chain_source)%N →
     mat_at (stateSymbolProb chain_model) s symbol
     = Some (last_write (hits_emission Model_new chain_source s symbol)
               (src_emissions chain_source))).
Proof.
  apply (ReadModel_entries Model_new chain_source chain_model).
  vm_compute. reflexivity.
Defined.

(** X7.  In a model [ReadModel] returns nothing enters START and nothing
    leaves END, and neither emits: column 0 and row [nstates - 1] of
    [transitionProb] are zero, and so are rows 0 and [nstates - 1] of
    [stateSymbolProb]. *)
Theorem ReadModel_boundary_entries_zero (self : Model) (modelSource : ModelSource)
    (model : Model) :
  ReadModel self modelSource = Returns model →
  (1 ≤ vec_size (src_states modelSource) ≤ SIZE_MAX)%N →
  (∀ p, (p < nstates model)%N →
     mat_at (transitionProb model) p 0 = Some 0%float) ∧
  (∀ s, (s < nstates model)%N →
     mat_at (transitionProb model) (nstates model - 1) s = Some 0%float) ∧
  (∀ symbol, (symbol < alphabetSize model)%N →
     mat_at (stateSymbolProb model) 0 symbol = Some 0%float ∧
     mat_at (stateSymbolProb model) (nstates model - 1) symbol = Some 0%float).
Proof.
  intros Hret Hn.
  pose proof (ReadModel_shape _ _ _ Hret) as (Hns & _ & _ & Has & _).
  rewrite Hns, Has.
  destruct (ReadModel_returns _ _ _ Hret) as (reg1 & reg2 & Hrun1 & Hrun2 & HR1 & _).
  apply (read_transitions_table self modelSource) in Hrun1 as (_ & _ & _ & _ & Hcol & Hrow); [|done].
  apply (read_emissions_table self modelSource) in Hrun2 as (_ & _ & _ & Hrow0 & Hrow'); [|done].
  assert (Hend : to_size_t (Z.of_N (vec_size (src_states modelSource) - 1) + 1)
                 = vec_size (src_states modelSource)).
  { unfold to_size_t, SIZE_MAX in *. rewrite Z.mod_small by lia. lia. }
  split; [|split].
  - intros p Hp. rewrite Hcol. apply mat_at_replicate; lia.
  - intros s Hs. rewrite Hrow by done. apply mat_at_replicate; lia.
  - intros symbol Hsym. split.
    + rewrite Hrow0. apply mat_at_replicate; lia.
    + rewrite Hrow' by done. apply mat_at_replicate; lia.
Qed.

Lemma ReadModel_boundary_entries_zero_witness :
  (∀ p, (p < nstates chain_model)%N →
     mat_at (transitionProb chain_model) p 0 = Some 0%float) ∧
  (∀ s, (s < nstates chain_model)%N →
     mat_at (transitionProb chain_model) (nstates chain_model - 1) s = Some 0%float) ∧
  (∀ symbol, (symbol < alphabetSize chain_model)%N →
     mat_at (stateSymbolProb chain_model) 0 symbol = Some 0%float ∧
     mat_at (stateSymbolProb chain_model) (nstates chain_model - 1) symbol
     = Some 0%float).
Proof.
  apply (ReadModel_boundary_entries_zero Model_new chain_source chain_model).
  - vm_compute. reflexivity.
  - vm_compute. split; discriminate.
Defined.

(** X8.  A model [ReadModel] returns from a source with at least one state
    and with probabilities between 0 and 1 is a valid model: the tables
    have the shapes over [nstates] and [alphabetSize] and every entry is
    a probability. *)
Theorem ReadModel_builds_valid_model (self : Model) (modelSource : ModelSource)
    (model : Model) :
  ReadModel self modelSource = Returns model →
  (1 ≤ vec_size (src_states modelSource) ≤ SIZE_MAX)%N →
  Forall (λ tr : string * string * float, is_prob tr.2 = true)
    (src_transitions modelSource) →
  Forall (λ em : string * string * float, is_prob em.2 = true)
    (src_emissions modelSource) →
  valid_model model.
Proof.
  intros Hret Hn Htrs Hems.
  pose proof (ReadModel_shape _ _ _ Hret) as (Hns & Htp & Hsp & Has & _).
  destruct (ReadModel_returns _ _ _ Hret) as (reg1 & reg2 & Hrun1 & Hrun2 & HR1 & _).
  apply (read_transitions_table self modelSource) in Hrun1 as (_ & _ & HP1 & _); [|done].
  apply (read_emissions_table self modelSource) in Hrun2 as (_ & HP2 & _); [|done].
  unfold valid_model. rewrite Hns, Has.
  split; [done|]. split; [done|]. split; [done|]. split.
  - apply (HP1 (λ x, is_prob x = true)); [|done].
    apply Forall_replicate, Forall_replicate, is_prob_zero.
  - apply (HP2 (λ x, is_prob x = true)); [|done].
    apply Forall_replicate, Forall_replicate, is_prob_zero.
Qed.

Lemma ReadModel_builds_valid_model_witness : valid_model chain_model.
Proof.
  apply (ReadModel_builds_valid_model Model_new chain_source chain_model).
  - vm_compute. reflexivity.
  - vm_compute. split; discriminate.
  - repeat constructor.
  - repeat constructor.
Defined.

(** X9.  When every observation names a state of the registry,
    [ReadExperimentData] returns the steps the object already held
    followed by one tuple per observation, in order: the step number as
    read, the index of the state name and the symbol index.  Step
    numbers and symbol indices are not checked. *)
Theorem ReadExperimentData_appends (self : ExperimentData) (model : Model)
    (dataSource : DataSource) :
  Forall (λ step : N * string * string,
            is_Some (stateNameToIndex model !! step.1.2)) dataSource →
  ReadExperimentData self model dataSource
  = Returns {| timeStateSymbol :=
                 timeStateSymbol self ++ map (stored_step model) dataSource |}.
Proof.
  intros Hall. unfold ReadExperimentData.
  by rewrite (read_steps_appends _ _ _ Hall).
Qed.

Lemma ReadExperimentData_appends_witness :
  ReadExperimentData one_step_data chain_model chain_trace
  = Returns {| timeStateSymbol :=
                 timeStateSymbol one_step_data ++ map (stored_step chain_model) chain_trace |}.
Proof.
  apply (ReadExperimentData_appends one_step_data chain_model chain_trace).
  repeat constructor; vm_compute; by eexists.
Defined.

(** X10.  Against a model [ReadModel] has returned, observations that name
    declared states only are accepted by [ReadExperimentData]; the state
    index stored for each is the index [ReadModel] resolved its name to,
    and it is below [nstates]. *)
Theorem declared_states_are_accepted (self : Model) (modelSource : ModelSource)
    (model : Model) (data : ExperimentData) (dataSource : DataSource) :
  ReadModel self modelSource = Returns model →
  Forall (λ step : N * string * string, step.1.2 ∈ src_states modelSource) dataSource →
  ReadExperimentData data model dataSource
  = Returns {| timeStateSymbol :=
                 timeStateSymbol data ++ map (stored_step model) dataSource |} ∧
  Forall (λ step : N * string * string,
            ((stored_step model step).1.2 < nstates model)%N ∧
            (stored_step model step).1.2 = resolve self modelSource step.1.2) dataSource.
Proof.
  intros Hret Hall.
  pose proof (ReadModel_shape _ _ _ Hret) as (Hns & _).
  destruct (ReadModel_returns _ _ _ Hret) as (reg1 & reg2 & Hrun1 & Hrun2 & _ & Hreg & _).
  apply read_transitions_registry in Hrun1 as (_ & Hk1 & _).
  apply read_emissions_registry in Hrun2 as (_ & Hk2 & _).
  assert (Hname : ∀ name, name ∈ src_states modelSource →
    ∃ v, stateNameToIndex model !! name = Some v ∧
         (v < nstates model)%N ∧ v = resolve self modelSource name).
  { intros name Hin.
    destruct (read_states_declared (src_states modelSource) 0
                (stateNameToIndex self) name Hin) as (v & Hv & Hb).
    exists v. rewrite Hreg. split; [by apply Hk2, Hk1|].
    split; [lia|]. unfold resolve. by rewrite Hv. }
  split.
  - unfold ReadExperimentData. rewrite read_steps_appends; [done|].
    eapply Forall_impl; [exact Hall|]. intros step Hin.
    destruct (Hname _ Hin) as (v & Hv & _). by eexists.
  - eapply Forall_impl; [exact Hall|]. intros step Hin.
    destruct (Hname _ Hin) as (v & Hv & Hlt & Hres).
    unfold stored_step. cbn [fst snd]. rewrite Hv. simpl. done.
Qed.

Lemma declared_states_are_accepted_witness :
  ReadExperimentData ExperimentData_new chain_model chain_trace
  = Returns {| timeStateSymbol :=
                 timeStateSymbol ExperimentData_new
                 ++ map (stored_step chain_model) chain_trace |} ∧
  Forall (λ step : N * string * string,
            ((stored_step chain_model step).1.2 < nstates chain_model)%N ∧
            (stored_step chain_model step).1.2
            = resolve Model_new chain_source step.1.2) chain_trace.
Proof.
  apply (declared_states_are_accepted Model_new chain_source chain_model
           ExperimentData_new chain_trace).
  - vm_compute. reflexivity.
  - repeat constructor.
Defined.

(* ================================================================== *)
(** * The first triple a reading loop stops at *)

Lemma read_transitions_app (n : N) (trs1 trs2 : list (string * string * float)) :
  ∀ reg tp,
  read_transitions n (trs1 ++ trs2) reg tp
  = match read_transitions n trs1 reg tp with
    | Returns (reg1, tp1) => read_transitions n trs2 reg1 tp1
    | Throws e => Throws e
    | Undefined => Undefined
    end.
Proof.
  induction trs1 as [|[[from to] prob] trs1 IH]; intros reg tp; simpl; [done|].
  destruct (map_subscript reg from) as [fromInd reg1].
  destruct (map_subscript reg1 to) as [toInd reg2].
  destruct (to_size_t (Z.of_N fromInd + 1) =? n)%N; [done|].
  destruct (toInd =? 0)%N; [done|].
  destruct (mat_set tp fromInd toInd prob) as [tp1|]; [apply IH|done].
Qed.

Lemma read_emissions_app (n : N) (ems1 ems2 : list (string * string * float)) :
  ∀ reg sp,
  read_emissions n (ems1 ++ ems2) reg sp
  = match read_emissions n ems1 reg sp with
    | Returns (reg1, sp1) => read_emissions n ems2 reg1 sp1
    | Throws e => Throws e
    | Undefined => Undefined
    end.
Proof.
  induction ems1 as [|[[state symbol] prob] ems1 IH]; intros reg sp; simpl; [done|].
  destruct (map_subscript reg state) as [stateInd reg1].
  destruct ((stateInd =? 0)%N || (to_size_t (Z.of_N stateInd + 1) =? n)%N); [done|].
  destruct (mat_set sp stateInd _ prob) as [sp1|]; [apply IH|done].
Qed.

(** X11.  On a fresh object [ReadModel] reports the first violation it
    meets.  At the first transition that is rejected, the source state is
    checked before the target: a source that resolves to END gives the
    message about a transition from the ending state, and otherwise a
    target that resolves to START gives the message about a transition
    to the starting state.  The transitions are read before the
    emissions: when all of them pass and every symbol is inside the
    alphabet, a rejected emission gives the message about an emission
    from the beginning or the ending states. *)
Theorem ReadModel_reports_first_violation (self : Model) (modelSource : ModelSource) :
  stateNameToIndex self = ∅ →
  (vec_size (src_states modelSource) ≤ SIZE_MAX)%N →
  (∀ good from to prob rest,
     src_transitions modelSource = good ++ (from, to, prob) :: rest →
     Forall (λ tr, ¬ bad_transition self modelSource tr) good →
     ((resolve self modelSource from + 1 = vec_size (src_states modelSource))%N →
      ReadModel self modelSource
      = Throws (domain_error "Transition from the ending state is forbidden")) ∧
     ((resolve self modelSource from + 1 ≠ vec_size (src_states modelSource))%N →
      resolve self modelSource to = 0%N →
      ReadModel self modelSource
      = Throws (domain_error "Transition to the starting state is forbidden"))) ∧
  (Forall (λ tr, ¬ bad_transition self modelSource tr) (src_transitions modelSource) →
   Exists (bad_emission self modelSource) (src_emissions modelSource) →
   symbols_in_alphabet modelSource →
   ReadModel self modelSource
   = Throws (domain_error
       "Symbol emission from the beginning or the ending states is forbidden")).
Proof.
  intros Hfresh Hsize. split.
  - intros good from to prob rest Htrs Hgood.
    pose proof (read_transitions_checks self modelSource Hfresh Hsize good
      (read_states (src_states modelSource) 0 (stateNameToIndex self))
      (replicate (N.to_nat (vec_size (src_states modelSource)))
         (replicate (N.to_nat (vec_size (src_states modelSource))) 0%float))
      (λ name, eq_refl) (is_matrix_replicate _ _ _)) as Hprefix.
    unfold ReadModel. rewrite Htrs, read_transitions_app.
    destruct (read_transitions _ good _ _) as [[reg1 tp1]|e|]; [| |done].
    2:{ exfalso. apply Exists_exists in Hprefix as (tr & Hin & Hbad).
        rewrite Forall_forall in Hgood. by apply (Hgood tr). }
    destruct Hprefix as (HR1 & _ & _). simpl.
    pose proof (map_subscript_value reg1 from) as Hv1.
    pose proof (map_subscript_default reg1 from) as Hd1.
    destruct (map_subscript reg1 from) as [fromInd reg2]. simpl in Hv1, Hd1.
    pose proof (map_subscript_value reg2 to) as Hv2.
    destruct (map_subscript reg2 to) as [toInd reg3]. simpl in Hv2.
    assert (Hfrom : fromInd = resolve self modelSource from) by (by rewrite Hv1, HR1).
    assert (Hto : toInd = resolve self modelSource to) by (by rewrite Hv2, Hd1, HR1).
    pose proof (end_test self modelSource Hfresh Hsize from) as Hend.
    rewrite Hfrom, Hto.
    destruct (to_size_t (Z.of_N (resolve self modelSource from) + 1) =? _)%N.
    + split; [done|]. intros Hne. exfalso. apply Hne. by apply Hend.
    + split.
      * intros Heq. apply Hend in Heq. done.
      * intros _ ->. done.
  - intros Htrs Hems Hsym.
    pose proof (read_transitions_checks self modelSource Hfresh Hsize
      (src_transitions modelSource)
      (read_states (src_states modelSource) 0 (stateNameToIndex self))
      (replicate (N.to_nat (vec_size (src_states modelSource)))
         (replicate (N.to_nat (vec_size (src_states modelSource))) 0%float))
      (λ name, eq_refl) (is_matrix_replicate _ _ _)) as Hrun1.
    unfold ReadModel.
    destruct (read_transitions _ _ _ _) as [[reg1 tp1]|e|]; [| |done].
    2:{ exfalso. apply Exists_exists in Hrun1 as (tr & Hin & Hbad).
        rewrite Forall_forall in Htrs. by apply (Htrs tr). }
    destruct Hrun1 as (HR1 & _ & _).
    pose proof (read_emissions_checks self modelSource Hfresh Hsize
      (src_alphabetSize modelSource) (src_emissions modelSource) reg1
      (replicate (N.to_nat (vec_size (src_states modelSource)))
         (replicate (N.to_nat (src_alphabetSize modelSource)) 0%float))
      HR1 (is_matrix_replicate _ _ _)) as Hrun2.
    destruct (read_emissions _ _ _ _) as [[reg2 sp]|e|] eqn:Hem.
    + exfalso. apply Exists_exists in Hems as (em & Hin & Hbad).
      rewrite Forall_forall in Hrun2. by apply (Hrun2 em).
    + by apply read_emissions_throws in Hem as ->.
    + exfalso. apply Exists_exists in Hrun2 as (em & Hin & Hout).
      unfold symbols_in_alphabet in Hsym. rewrite Forall_forall in Hsym.
      by apply Hout, Hsym.
Qed.

Lemma ReadModel_reports_first_violation_witness :
  (∀ good from to prob rest,
     src_transitions end_source = good ++ (from, to, prob) :: rest →
     Forall (λ tr, ¬ bad_transition Model_new end_source tr) good →
     ((resolve Model_new end_source from + 1 = vec_size (src_states end_source))%N →
      ReadModel Model_new end_source
      = Throws (domain_error "Transition from the ending state is forbidden")) ∧
     ((resolve Model_new end_source from + 1 ≠ vec_size (src_states end_source))%N →
      resolve Model_new end_source to = 0%N →
      ReadModel Model_new end_source
      = Throws (domain_error "Transition to the starting state is forbidden"))) ∧
  (Forall (λ tr, ¬ bad_transition Model_new end_source tr) (src_transitions end_source) →
   Exists (bad_emission Model_new end_source) (src_emissions end_source) →
   symbols_in_alphabet end_source →
   ReadModel Model_new end_source
   = Throws (domain_error
       "Symbol emission from the beginning or the ending states is forbidden")).
Proof.
  apply (ReadModel_reports_first_violation Model_new end_source).
  - reflexivity.
  - vm_compute. discriminate.
Defined.

(** X12.  On a fresh object whose transitions all pass, when the emission
    loop reaches, after emissions that pass, an emission of an inner
    state whose symbol index is not below [alphabetSize], the write
    [stateSymbolProb[stateInd][symbolInd]] is out of range: the call has
    no defined outcome (it neither returns nor throws). *)
Theorem ReadModel_symbol_outside_alphabet (self : Model) (modelSource : ModelSource)
    (good rest : list (string * string * float)) (state symbol : string) (prob : float) :
  stateNameToIndex self = ∅ →
  (vec_size (src_states modelSource) ≤ SIZE_MAX)%N →
  Forall (λ tr, ¬ bad_transition self modelSource tr) (src_transitions modelSource) →
  src_emissions modelSource = good ++ (state, symbol, prob) :: rest →
  Forall (λ em : string * string * float,
            ¬ bad_emission self modelSource em ∧
            (to_size_t (symbolToInd em.1.2) < src_alphabetSize modelSource)%N) good →
  ¬ bad_emission self modelSource (state, symbol, prob) →
  (src_alphabetSize modelSource ≤ to_size_t (symbolToInd symbol))%N →
  ReadModel self modelSource = Undefined.
Proof.
  intros Hfresh Hsize Htrs Hems Hgood Hstate Hsym.
  pose proof (read_transitions_checks self modelSource Hfresh Hsize
    (src_transitions modelSource)
    (read_states (src_states modelSource) 0 (stateNameToIndex self))
    (replicate (N.to_nat (vec_size (src_states modelSource)))
       (replicate (N.to_nat (vec_size (src_states modelSource))) 0%float))
    (λ name, eq_refl) (is_matrix_replicate _ _ _)) as Hrun1.
  unfold ReadModel.
  destruct (read_transitions _ _ _ _) as [[reg1 tp1]|e|]; [| |done].
  2:{ exfalso. apply Exists_exists in Hrun1 as (tr & Hin & Hbad).
      rewrite Forall_forall in Htrs. by apply (Htrs tr). }
  destruct Hrun1 as (HR1 & _ & _).
  rewrite Hems, read_emissions_app.
  pose proof (read_emissions_checks self modelSource Hfresh Hsize
    (src_alphabetSize modelSource) good reg1
    (replicate (N.to_nat (vec_size (src_states modelSource)))
       (replicate (N.to_nat (src_alphabetSize modelSource)) 0%float))
    HR1 (is_matrix_replicate _ _ _)) as Hprefix.
  rewrite Forall_forall in Hgood.
  destruct (read_emissions _ good _ _) as [[reg2 sp2]|e|] eqn:Hrun2.
  - pose proof (read_emissions_registry _ _ _ _ _ _ Hrun2) as (Hd2 & _).
    apply (read_emissions_table self modelSource) in Hrun2 as (Hshape & _); [|done].
    destruct (Hshape _ _ (is_matrix_replicate _ _ _)) as [Hsp2 _].
    simpl.
    pose proof (map_subscript_value reg2 state) as Hv.
    destruct (map_subscript reg2 state) as [stateInd reg3]. simpl in Hv.
    assert (Hind : stateInd = resolve self modelSource state) by (by rewrite Hv, Hd2, HR1).
    pose proof (end_test self modelSource Hfresh Hsize state) as Hend.
    rewrite <- Hind in Hend.
    destruct (N.eqb_spec stateInd 0) as [Hzero|_]; simpl.
    { exfalso. apply Hstate. left. simpl. by rewrite <- Hind. }
    destruct (to_size_t (Z.of_N stateInd + 1) =? _)%N.
    { exfalso. apply Hstate. right. simpl. rewrite <- Hind. by apply Hend. }
    destruct (mat_set sp2 stateInd _ prob) as [sp3|] eqn:Hset; [|done].
    destruct (mat_set_in_range _ _ _ _ _ _ _ Hsp2 Hset) as [_ Hlt]. lia.
  - exfalso. apply Exists_exists in Hprefix as (em & Hin & Hbad).
    by destruct (Hgood em Hin).
  - exfalso. apply Exists_exists in Hprefix as (em & Hin & Hout).
    by destruct (Hgood em Hin).
Qed.

Lemma ReadModel_symbol_outside_alphabet_witness :
  ReadModel Model_new uppercase_source = Undefined.
Proof.
  apply (ReadModel_symbol_outside_alphabet Model_new uppercase_source
           [("A", "a", 0.5%float)] [] "A" "Z" 0.5%float).
  - reflexivity.
  - vm_compute. discriminate.
  - constructor; [|constructor]. intros [H|H]; vm_compute in H; discriminate H.
  - reflexivity.
  - constructor; [|constructor]. split; [|vm_compute; reflexivity].
    intros [H|H]; vm_compute in H; discriminate H.
  - intros [H|H]; vm_compute in H; discriminate H.
  - vm_compute. discriminate.
Defined.

(* ================================================================== *)
(** * The registry across calls *)

Section RegistryAcrossCalls.
Implicit Types (reg : gmap string N) (name : string).

Lemma map_subscript_bound reg name (v : N) :
  reg !! name = Some v → map_subscript reg name = (v, reg).
Proof. unfold map_subscript. by intros ->. Qed.

Lemma map_subscript_other reg name name' :
  name ≠ name' → (map_subscript reg name).2 !! name' = reg !! name'.
Proof.
  intros Hne. unfold map_subscript. destruct (reg !! name); simpl; [done|].
  by rewrite lookup_insert_ne.
Qed.

(** The index of a declared name does not depend on the registry the
    declarations are read into. *)
Lemma read_states_fresh (names : list string) : ∀ (k : N) reg reg' name,
  name ∈ names → read_states names k reg !! name = read_states names k reg' !! name.
Proof.
  induction names as [|n names IH]; intros k reg reg' name Hin; simpl.
  { by apply elem_of_nil in Hin. }
  destruct (decide (name ∈ names)) as [Hrest|Hrest]; [by apply IH|].
  apply elem_of_cons in Hin as [->|Hin]; [|done].
  by rewrite !read_states_other, !lookup_insert_eq.
Qed.

(** The loops bind no name but those the triples use. *)
Lemma read_transitions_untouched (n : N) (trs : list (string * string * float)) :
  ∀ reg tp reg' tp' name,
  read_transitions n trs reg tp = Returns (reg', tp') →
  Forall (λ tr : string * string * float, tr.1.1 ≠ name ∧ tr.1.2 ≠ name) trs →
  reg' !! name = reg !! name.
Proof.
  induction trs as [|[[from to] prob] trs IH]; intros reg tp reg' tp' name; simpl.
  { by intros [= <- <-]. }
  intros Hrun Hall. apply Forall_cons in Hall as [[Hfrom Hto] Hall]. simpl in Hfrom, Hto.
  pose proof (map_subscript_other reg from name Hfrom) as Ho1.
  destruct (map_subscript reg from) as [fromInd reg1]. simpl in Ho1.
  pose proof (map_subscript_other reg1 to name Hto) as Ho2.
  destruct (map_subscript reg1 to) as [toInd reg2]. simpl in Ho2.
  destruct (to_size_t (Z.of_N fromInd + 1) =? n)%N; [done|].
  destruct (toInd =? 0)%N; [done|].
  destruct (mat_set tp fromInd toInd prob) as [tp1|]; [|done].
  rewrite (IH _ _ _ _ _ Hrun Hall). by rewrite Ho2, Ho1.
Qed.

Lemma read_emissions_untouched (n : N) (ems : list (string * string * float)) :
  ∀ reg sp reg' sp' name,
  read_emissions n ems reg sp = Returns (reg', sp') →
  Forall (λ em : string * string * float, em.1.1 ≠ name) ems →
  reg' !! name = reg !! name.
Proof.
  induction ems as [|[[state symbol] prob] ems IH]; intros reg sp reg' sp' name; simpl.
  { by intros [= <- <-]. }
  intros Hrun Hall. apply Forall_cons in Hall as [Hstate Hall]. simpl in Hstate.
  pose proof (map_subscript_other reg state name Hstate) as Ho1.
  destruct (map_subscript reg state) as [stateInd reg1]. simpl in Ho1.
  destruct ((stateInd =? 0)%N || (to_size_t (Z.of_N stateInd + 1) =? n)%N); [done|].
  destruct (mat_set sp stateInd _ prob) as [sp1|]; [|done].
  rewrite (IH _ _ _ _ _ Hrun Hall). by rewrite Ho1.
Qed.

(** A loop that has completed once completes again, with the same table,
    from any registry that binds the names of its triples as it resolved
    them; that registry is left as it is. *)
Lemma read_transitions_again (n : N) (trs : list (string * string * float)) :
  ∀ reg tp reg' tp' regX,
  read_transitions n trs reg tp = Returns (reg', tp') →
  (∀ name, default 0%N (regX !! name) = default 0%N (reg !! name)) →
  Forall (λ tr : string * string * float,
            is_Some (regX !! tr.1.1) ∧ is_Some (regX !! tr.1.2)) trs →
  read_transitions n trs regX tp = Returns (regX, tp').
Proof.
  induction trs as [|[[from to] prob] trs IH]; intros reg tp reg' tp' regX; simpl.
  { by intros [= <- <-]. }
  intros Hrun Hsame Hall.
  apply Forall_cons in Hall as [[[v1 Hv1] [v2 Hv2]] Hall]. simpl in Hv1, Hv2.
  rewrite (map_subscript_bound regX from v1 Hv1).
  rewrite (map_subscript_bound regX to v2 Hv2).
  pose proof (map_subscript_value reg from) as Hf.
  pose proof (map_subscript_default reg from) as Hd1.
  destruct (map_subscript reg from) as [fromInd reg1]. simpl in Hf, Hd1.
  pose proof (map_subscript_value reg1 to) as Ht.
  pose proof (map_subscript_default reg1 to) as Hd2.
  destruct (map_subscript reg1 to) as [toInd reg2]. simpl in Ht, Hd2.
  assert (v1 = fromInd) as ->.
  { rewrite Hf, <- Hsame, Hv1. done. }
  assert (v2 = toInd) as ->.
  { rewrite Ht, Hd1, <- Hsame, Hv2. done. }
  destruct (to_size_t (Z.of_N fromInd + 1) =? n)%N; [done|].
  destruct (toInd =? 0)%N; [done|].
  destruct (mat_set tp fromInd toInd prob) as [tp1|]; [|done].
  apply (IH reg2 tp1 reg' tp' regX Hrun); [|done].
  intros name. by rewrite Hsame, Hd2, Hd1.
Qed.

Lemma read_emissions_again (n : N) (ems : list (string * string * float)) :
  ∀ reg sp reg' sp' regX,
  read_emissions n ems reg sp = Returns (reg', sp') →
  (∀ name, default 0%N (regX !! name) = default 0%N (reg !! name)) →
  Forall (λ em : string * string * float, is_Some (regX !! em.1.1)) ems →
  read_emissions n ems regX sp = Returns (regX, sp').
Proof.
  induction ems as [|[[state symbol] prob] ems IH]; intros reg sp reg' sp' regX; simpl.
  { by intros [= <- <-]. }
  intros Hrun Hsame Hall.
  apply Forall_cons in Hall as [[v1 Hv1] Hall]. simpl in Hv1.
  rewrite (map_subscript_bound regX state v1 Hv1).
  pose proof (map_subscript_value reg state) as Hf.
  pose proof (map_subscript_default reg state) as Hd1.
  destruct (map_subscript reg state) as [stateInd reg1]. simpl in Hf, Hd1.
  assert (v1 = stateInd) as ->.
  { rewrite Hf, <- Hsame, Hv1. done. }
  destruct ((stateInd =? 0)%N || (to_size_t (Z.of_N stateInd + 1) =? n)%N); [done|].
  destruct (mat_set sp stateInd _ prob) as [sp1|]; [|done].
  apply (IH reg1 sp1 reg' sp' regX Hrun); [|done].
  intros name. by rewrite Hsame, Hd1.
Qed.

End RegistryAcrossCalls.

Lemma read_steps_app (reg : gmap string N) (steps1 steps2 : DataSource) :
  ∀ tss,
  read_steps reg (steps1 ++ steps2) tss
  = match read_steps reg steps1 tss with
    | Returns tss1 => read_steps reg steps2 tss1
    | Throws e => Throws e
    | Undefined => Undefined
    end.
Proof.
  induction steps1 as [|[[stepNumber stateName] symbol] steps1 IH]; intros tss; simpl;
    [done|].
  destruct (map_at reg stateName) as [stateInd|e|]; [|done..]. apply IH.
Qed.

(* ================================================================== *)
(** * Further properties of the readers, across calls *)

(** X13.  [ReadModel] binds no other names than those its source declares
    or uses: a name that was not in the registry, is not declared, and
    appears in no transition or emission is absent from the registry of
    the model returned, and [ReadExperimentData] throws
    [std::out_of_range] on any observations that mention it. *)
Theorem unknown_state_is_rejected (self : Model) (modelSource : ModelSource)
    (model : Model) (name : string) :
  ReadModel self modelSource = Returns model →
  ¬ declared self modelSource name →
  Forall (λ tr : string * string * float, tr.1.1 ≠ name ∧ tr.1.2 ≠ name)
    (src_transitions modelSource) →
  Forall (λ em : string * string * float, em.1.1 ≠ name) (src_emissions modelSource) →
  stateNameToIndex model !! name = None ∧
  ∀ data dataSource,
    (∃ step : N * string * string, step ∈ dataSource ∧ step.1.2 = name) →
    ReadExperimentData data model dataSource = Throws out_of_range.
Proof.
  intros Hret Hnot Htrs Hems.
  destruct (ReadModel_returns _ _ _ Hret) as (reg1 & reg2 & Hrun1 & Hrun2 & _ & Hreg & _).
  assert (Hnone : stateNameToIndex model !! name = None).
  { rewrite Hreg.
    rewrite (read_emissions_untouched _ _ _ _ _ _ name Hrun2 Hems).
    rewrite (read_transitions_untouched _ _ _ _ _ _ name Hrun1 Htrs).
    apply read_states_undeclared.
    - intros Hin. apply Hnot. by left.
    - destruct (stateNameToIndex self !! name) eqn:Hself; [|done].
      exfalso. apply Hnot. right. by eexists. }
  split; [done|]. intros data dataSource (step & Hin & Hname).
  unfold ReadExperimentData.
  pose proof (read_steps_outcome (stateNameToIndex model) dataSource
                (timeStateSymbol data)) as Hsteps.
  destruct (read_steps _ _ _) as [tss|e|]; [|by destruct Hsteps as [-> _]|done].
  rewrite Forall_forall in Hsteps. destruct (Hsteps step Hin) as [v Hv].
  rewrite Hname in Hv. congruence.
Qed.

Lemma unknown_state_is_rejected_witness :
  stateNameToIndex chain_model !! "X" = None ∧
  ∀ data dataSource,
    (∃ step : N * string * string, step ∈ dataSource ∧ step.1.2 = "X") →
    ReadExperimentData data chain_model dataSource = Throws out_of_range.
Proof.
  apply (unknown_state_is_rejected Model_new chain_source chain_model "X").
  - vm_compute. reflexivity.
  - intros [Hin|[v Hv]]; [|done].
    vm_compute in Hin.
    repeat (apply elem_of_cons in Hin as [Hin|Hin]; [discriminate Hin|]).
    by apply elem_of_nil in Hin.
  - repeat constructor; discriminate.
  - repeat constructor; discriminate.
Defined.

(** X14.  Reading the same source again, into the object a first call
    has filled, returns the same model. *)
Theorem ReadModel_idempotent (self : Model) (modelSource : ModelSource) (model : Model) :
  ReadModel self modelSource = Returns model →
  ReadModel model modelSource = Returns model.
Proof.
  intros Hret.
  destruct (ReadModel_returns _ _ _ Hret)
    as (reg1 & reg2 & Hrun1 & Hrun2 & _ & Hreg & Hasize).
  pose proof (read_transitions_registry _ _ _ _ _ _ Hrun1) as (Hd1 & Hk1 & Hall1).
  pose proof (read_emissions_registry _ _ _ _ _ _ Hrun2) as (Hd2 & Hk2 & Hall2).
  assert (Hstates : read_states (src_states modelSource) 0 reg2 = reg2).
  { apply map_eq. intros name.
    destruct (decide (name ∈ src_states modelSource)) as [Hin|Hout].
    - rewrite (read_states_fresh _ 0 reg2 (stateNameToIndex self) name Hin).
      destruct (read_states_declared (src_states modelSource) 0
                  (stateNameToIndex self) name Hin) as (v & Hv & _).
      rewrite Hv. symmetry. by apply Hk2, Hk1.
    - by apply read_states_other. }
  unfold ReadModel. rewrite Hreg, Hstates.
  rewrite (read_transitions_again _ _ _ _ _ _ reg2 Hrun1).
  - rewrite (read_emissions_again _ _ _ _ _ _ reg2 Hrun2); [| |done].
    + destruct model. simpl in *. by subst.
    + intros name. by rewrite Hd2.
  - intros name. by rewrite Hd2, Hd1.
  - eapply Forall_impl; [exact Hall1|]. intros tr [[v1 Hv1] [v2 Hv2]].
    split; eexists; by apply Hk2.
Qed.

Lemma ReadModel_idempotent_witness :
  ReadModel chain_model chain_source = Returns chain_model.
Proof.
  apply (ReadModel_idempotent Model_new chain_source chain_model).
  vm_compute. reflexivity.
Defined.

(** X15.  [ReadExperimentData] accumulates: a call on the object a first
    call has filled behaves as one call on the two sources in sequence
    (the same steps are returned, or the same exception is thrown). *)
Theorem ReadExperimentData_in_two_calls (self : ExperimentData) (model : Model)
    (dataSource1 dataSource2 : DataSource) (data1 : ExperimentData) :
  ReadExperimentData self model dataSource1 = Returns data1 →
  ReadExperimentData data1 model dataSource2
  = ReadExperimentData self model (dataSource1 ++ dataSource2).
Proof.
  unfold ReadExperimentData. rewrite read_steps_app.
  destruct (read_steps _ dataSource1 _) as [tss1|e|]; [|done..].
  by intros [= <-].
Qed.

Lemma ReadExperimentData_in_two_calls_witness :
  ReadExperimentData one_step_data chain_model [(1%N, "B", "b")]
  = ReadExperimentData ExperimentData_new chain_model
      ([(0%N, "A", "a")] ++ [(1%N, "B", "b")]).
Proof.
  apply (ReadExperimentData_in_two_calls ExperimentData_new chain_model
           [(0%N, "A", "a")] [(1%N, "B", "b")] one_step_data).
  vm_compute. reflexivity.
Defined.

(* ================================================================== *)
(** * Runs of the decoder that stop, and the path it walks *)

(** A loop whose body has no result at some index has no result. *)
Lemma for_loop_fails {S : Type} (body : N → S → option S) (count : nat) :
  ∀ (i j : N) (s : S),
  (i ≤ j < i + N.of_nat count)%N → (∀ s, body j s = None) →
  for_loop count i body s = None.
Proof.
  induction count as [|k IH]; intros i j s Hj Hfail; simpl; [lia|].
  destruct (decide (j = i)) as [->|Hne]; [by rewrite Hfail|].
  destruct (body i s) as [s1|]; simpl; [|done].
  apply (IH (N.succ i) j); [lia|done].
Qed.

Lemma for_upto_fails {S : Type} (body : N → S → option S) (n j : N) (s : S) :
  (j < n)%N → (∀ s, body j s = None) → for_upto n body s = None.
Proof. intros Hj Hfail. apply (for_loop_fails body _ 0%N j); [lia|done]. Qed.

(** A loop whose body does nothing returns its state. *)
Lemma for_loop_skip {S : Type} (body : N → S → option S) (count : nat) :
  ∀ (i : N) (s : S), (∀ j s, body j s = Some s) → for_loop count i body s = Some s.
Proof.
  induction count as [|k IH]; intros i s Hskip; simpl; [done|].
  rewrite Hskip. simpl. by apply IH.
Qed.

(** The scan replaces the incumbent by greater scores only. *)
Lemma scan_above_init (score : N → option float) (n : N) (init best : float * N) :
  for_upto n (scan_step score) init = Some best →
  best = init ∨ (init.1 <? best.1)%float = true.
Proof.
  intros Hrun.
  apply (for_upto_partial (λ _ best, best = init ∨ (init.1 <? best.1)%float = true)
           (scan_step score) n init best Hrun); [by left|].
  intros j s s1 _ Hs. unfold scan_step.
  destruct (score j) as [c|]; simpl; [|done].
  destruct (s.1 <? c)%float eqn:Hlt; intros [= <-]; [|done].
  right. simpl. destruct Hs as [->|Hs]; [done|]. by eapply float_ltb_trans.
Qed.

Lemma CalcNewStateProbability_no_emission (model : Model) (sp : list (list float))
    (t p s symbol : N) :
  mat_at (stateSymbolProb model) s symbol = None →
  CalcNewStateProbability t p s symbol model sp = None.
Proof.
  intros Hnone. unfold CalcNewStateProbability. rewrite Hnone.
  destruct (if (t =? 0)%N && (p =? 0)%N then _ else _); simpl; [|done].
  by destruct (mat_at (transitionProb model) p s).
Qed.

(** The backward walk follows the path of the back-pointers, and pushes
    every state of it but the one it starts from. *)
Lemma recover_path (ps : list (list N)) (k : nat) :
  ∀ (curState : N) (acc : list N) (curState' : N) (seq : list N),
  recover ps k curState acc = Some (curState', seq) →
  ∃ init, viterbi_path ps k curState = Some (init ++ [curState]) ∧
          length init = k ∧
          head (init ++ [curState]) = Some curState' ∧
          seq = acc ++ reverse init.
Proof.
  induction k as [|k IH]; intros cur acc cur' seq; cbn [recover viterbi_path].
  - intros [= <- <-]. exists []. by rewrite app_nil_r.
  - destruct (mat_at ps (N.of_nat (Datatypes.S k)) cur) as [b|]; simpl; [|done].
    intros (init & Hpath & Hlen & Hhead & ->)%IH.
    exists (init ++ [b]). rewrite Hpath. simpl.
    split; [done|]. split; [rewrite length_app; simpl; lia|].
    split.
    + destruct init; simpl in *; done.
    + by rewrite reverse_snoc, <- app_assoc.
Qed.

(* ================================================================== *)
(** * Further properties of the decoder *)

(** X16.  With no observation the decoder has no result: [curStep] is
    [-1] and [sequenceProbability[curStep]] is read out of range. *)
Theorem decoder_empty_data (model : Model) (data : ExperimentData) :
  maxtime data = 0%N → FindMostProbableStateSequence model data = None.
Proof.
  unfold maxtime, vec_size. intros Hlen.
  destruct (timeStateSymbol data) as [|tss rest] eqn:Hdata; [|simpl in Hlen; lia].
  unfold FindMostProbableStateSequence, viterbi_tables. rewrite Hdata. reflexivity.
Qed.

Lemma decoder_empty_data_witness :
  FindMostProbableStateSequence chain_model ExperimentData_new = None.
Proof. apply (decoder_empty_data chain_model ExperimentData_new). reflexivity. Defined.

(** X17.  For a model without states: on one observation the decoder
    returns the sequence [0], an index that names no state
    ([std::max_element] of the empty last row is its [begin]); on two or
    more observations (fewer than 2^63) it has no result, since
    [prevSeqState[curStep][0]] is read in an empty row. *)
Theorem decoder_without_states (model : Model) (data : ExperimentData) :
  nstates model = 0%N →
  (maxtime data = 1%N → FindMostProbableStateSequence model data = Some [0%N]) ∧
  ((2 ≤ maxtime data < 9223372036854775808)%N →
   FindMostProbableStateSequence model data = None).
Proof.
  intros Hn.
  assert (Htab : viterbi_tables model data
    = Some (replicate (N.to_nat (maxtime data)) [],
            replicate (N.to_nat (maxtime data)) [])).
  { unfold viterbi_tables. fold (nstates model) (maxtime data). rewrite Hn.
    unfold for_upto at 1. by apply for_loop_skip. }
  unfold FindMostProbableStateSequence. rewrite Htab. fold (maxtime data). simpl.
  split.
  - intros ->. reflexivity.
  - intros Hmax. destruct (last_step (maxtime data)) as [-> ->]; [lia|].
    rewrite vec_at_lookup, lookup_replicate_2 by lia. simpl.
    destruct (Z.to_nat (Z.of_N (maxtime data) - 1)) as [|k] eqn:Hk; [lia|].
    cbn [recover]. rewrite mat_at_lookup.
    destruct (replicate _ _ !! _) as [row|] eqn:Hrow; simpl; [|done].
    apply lookup_replicate_1 in Hrow as [-> _]. done.
Qed.

Lemma decoder_without_states_witness :
  (maxtime one_step_data = 1%N →
   FindMostProbableStateSequence Model_new one_step_data = Some [0%N]) ∧
  ((2 ≤ maxtime one_step_data < 9223372036854775808)%N →
   FindMostProbableStateSequence Model_new one_step_data = None).
Proof. apply (decoder_without_states Model_new one_step_data). reflexivity. Defined.

(** X18.  What the decoder returns, for at least one observation: let the
    path of the back-pointers that ends in the first maximum of the
    last row of [sequenceProbability] be [init] followed by that final
    state, and let [first] be its first state; the sequence returned is
    [first] followed by [init].  So the final state is left out, and
    with two or more observations the sequence starts with [first]
    twice. *)
Theorem decoder_returns_shifted_path (model : Model) (data : ExperimentData)
    (seq : list N) :
  (1 ≤ maxtime data < 9223372036854775808)%N →
  FindMostProbableStateSequence model data = Some seq →
  ∃ sp ps lastRow init first,
    viterbi_tables model data = Some (sp, ps) ∧
    vec_at sp (maxtime data - 1) = Some lastRow ∧
    viterbi_path ps (N.to_nat (maxtime data - 1)) (max_element lastRow)
    = Some (init ++ [max_element lastRow]) ∧
    head (init ++ [max_element lastRow]) = Some first ∧
    seq = first :: init ∧
    ((2 ≤ maxtime data)%N → ∃ rest, seq = first :: first :: rest).
Proof.
  intros Hmax. unfold FindMostProbableStateSequence.
  destruct (viterbi_tables model data) as [[sp ps]|]; simpl; [|done].
  fold (maxtime data). destruct (last_step _ Hmax) as [-> ->].
  destruct (vec_at sp (maxtime data - 1)) as [lastRow|] eqn:Hrow; simpl; [|done].
  replace (Z.to_nat (Z.of_N (maxtime data) - 1)) with (N.to_nat (maxtime data - 1))
    by lia.
  destruct (recover ps _ _ []) as [[cur' path]|] eqn:Hrec; simpl; [|done].
  intros [= <-].
  apply recover_path in Hrec as (init & Hpath & Hlen & Hhead & ->).
  exists sp, ps, lastRow, init, cur'.
  split; [done|]. split; [done|]. split; [done|]. split; [done|].
  simpl. rewrite reverse_snoc, reverse_involutive. split; [done|].
  intros Htwo. destruct init as [|x init]; [simpl in Hlen; lia|].
  simpl in Hhead. injection Hhead as ->. by exists init.
Qed.

Lemma decoder_returns_shifted_path_witness :
  ∃ sp ps lastRow init first,
    viterbi_tables chain_model chain_data = Some (sp, ps) ∧
    vec_at sp (maxtime chain_data - 1) = Some lastRow ∧
    viterbi_path ps (N.to_nat (maxtime chain_data - 1)) (max_element lastRow)
    = Some (init ++ [max_element lastRow]) ∧
    head (init ++ [max_element lastRow]) = Some first ∧
    [1%N; 1%N] = first :: init ∧
    ((2 ≤ maxtime chain_data)%N → ∃ rest, [1%N; 1%N] = first :: first :: rest).
Proof.
  apply (decoder_returns_shifted_path chain_model chain_data [1%N; 1%N]).
  - unfold maxtime, vec_size. simpl. lia.
  - vm_compute. reflexivity.
Defined.

(** X19.  At a step [t >= 1], when the scan of
    [FindBestTransitionSource] has a result, it is [HMM_UNDEFINED_STATE]
    exactly when no candidate score of the step exceeds -1 (every
    comparison [curProb > bestProbValue] is false: the scores are at
    most -1, or NaN, or there is no state); otherwise it is the index
    of a state.  On the sentinel, the call of [CalcNewStateProbability]
    that follows reads its tables out of range and has no result. *)
Theorem sentinel_iff_no_score_above_minus_one (model : Model)
    (sp : list (list float)) (t s symbol b : N) :
  (nstates model ≤ SIZE_MAX)%N → t ≠ 0%N →
  FindBestTransitionSource t s symbol model sp = Some b →
  (b = HMM_UNDEFINED_STATE ↔
   ∀ p, (p < nstates model)%N →
        ∃ c, candidate model sp t s symbol p = Some c ∧ ((-1) <? c)%float = false) ∧
  (b = HMM_UNDEFINED_STATE →
   CalcNewStateProbability t b s symbol model sp = None) ∧
  (b ≠ HMM_UNDEFINED_STATE → (b < nstates model)%N).
Proof.
  intros Hsize Ht. unfold FindBestTransitionSource.
  destruct (N.eqb_spec t 0) as [|_]; [done|]. fold (nstates model).
  destruct (for_upto _ _ _) as [[v b0]|] eqn:Hscan; simpl; [|done].
  intros [= ->].
  pose proof (scan_above_init _ _ _ _ Hscan) as Habove.
  apply scan_result in Hscan as [Hseen Hbest].
  assert (Hcand : ∀ p, CalcNewStateProbability t p s symbol model sp
                       = candidate model sp t s symbol p).
  { intros p. apply CalcNewStateProbability_candidate. lia. }
  split; [split|split].
  - intros ->. destruct Hbest as [[= ->]|(Hlt & _)].
    + intros p Hp. destruct (Hseen p Hp) as (c & Hc & Hcmp).
      exists c. by rewrite <- Hcand.
    + rewrite HMM_UNDEFINED_STATE_eq in Hlt. lia.
  - intros Hnone. destruct Hbest as [[= _ ->]|(Hlt & Hv & _)]; [done|].
    destruct Habove as [[= -> ->]|Habove]; [done|]. simpl in Habove.
    destruct (Hnone b Hlt) as (c & Hc & Hcmp). rewrite <- Hcand in Hc. congruence.
  - intros ->.
    destruct (CalcNewStateProbability _ _ _ _ _ _) as [x|] eqn:Hcalc; [|done].
    apply CalcNewStateProbability_in_range in Hcalc.
    rewrite HMM_UNDEFINED_STATE_eq in Hcalc. lia.
  - intros Hne. by destruct Hbest as [[= _ ->]|(Hlt & _)].
Qed.

Lemma sentinel_iff_no_score_above_minus_one_witness :
  (HMM_UNDEFINED_STATE = HMM_UNDEFINED_STATE ↔
   ∀ p, (p < nstates signed_model)%N →
        ∃ c, candidate signed_model [[1; 1]; [0; 0]]%float 1 0 1 p = Some c ∧
             ((-1) <? c)%float = false) ∧
  (HMM_UNDEFINED_STATE = HMM_UNDEFINED_STATE →
   CalcNewStateProbability 1 HMM_UNDEFINED_STATE 0 1 signed_model
     [[1; 1]; [0; 0]]%float = None) ∧
  (HMM_UNDEFINED_STATE ≠ HMM_UNDEFINED_STATE →
   (HMM_UNDEFINED_STATE < nstates signed_model)%N).
Proof.
  apply (sentinel_iff_no_score_above_minus_one signed_model
           [[1; 1]; [0; 0]]%float 1 0 1 HMM_UNDEFINED_STATE).
  - vm_compute. discriminate.
  - discriminate.
  - vm_compute. reflexivity.
Defined.

(** X20.  One execution of the body of the nested loops, at step [t] and
    state [k], keeps the shapes of the two tables and changes cell
    [(t, k)] of each and nothing else: [prevSeqState[t][k]] becomes the
    state [FindBestTransitionSource] returned and
    [sequenceProbability[t][k]] the score [CalcNewStateProbability]
    gives for that state. *)
Theorem viterbi_cell_writes_one_cell (model : Model) (data : ExperimentData)
    (t k : N) (sp sp' : list (list float)) (ps ps' : list (list N)) :
  viterbi_cell model data t k (sp, ps) = Some (sp', ps') →
  (∀ rows cols, is_matrix rows cols sp → is_matrix rows cols sp') ∧
  (∀ rows cols, is_matrix rows cols ps → is_matrix rows cols ps') ∧
  (∀ i j, i ≠ t ∨ j ≠ k →
     mat_at sp' i j = mat_at sp i j ∧ mat_at ps' i j = mat_at ps i j) ∧
  ∃ symbol b v,
    symbolAt data t = Some symbol ∧
    FindBestTransitionSource t k symbol model sp = Some b ∧
    CalcNewStateProbability t b k symbol model sp = Some v ∧
    mat_at sp' t k = Some v ∧ mat_at ps' t k = Some b.
Proof.
  unfold viterbi_cell.
  destruct (vec_at (timeStateSymbol data) t) as [tss|] eqn:Htss; simpl; [|done].
  destruct (FindBestTransitionSource _ _ _ _ _) as [b|] eqn:Hfind; simpl; [|done].
  destruct (CalcNewStateProbability _ _ _ _ _ _) as [v|] eqn:Hcalc; simpl; [|done].
  destruct (mat_set sp t k v) as [sp1|] eqn:Hset; simpl; [|done].
  destruct (mat_set ps t k b) as [ps1|] eqn:Hset'; simpl; [|done].
  intros [= <- <-].
  apply mat_set_Some in Hset as (Hshape & Hrows & Hrow & Hnew & _).
  apply mat_set_Some in Hset' as (Hshape' & Hrows' & Hrow' & Hnew' & _).
  split; [done|]. split; [done|]. split.
  - intros i j Hij. destruct (decide (i = t)) as [->|Hi].
    + destruct Hij as [|Hj]; [done|]. split; [by apply Hrow|by apply Hrow'].
    + split; apply mat_at_row_eq; auto.
  - exists tss.2, b, v. unfold symbolAt. rewrite Htss. done.
Qed.

Lemma viterbi_cell_writes_one_cell_witness :
  (∀ rows cols, is_matrix rows cols [[0; 0; 0; 0]]%float →
                is_matrix rows cols [[0; 0.375; 0; 0]]%float) ∧
  (∀ rows cols,
     is_matrix rows cols
       [[HMM_UNDEFINED_STATE; HMM_UNDEFINED_STATE; HMM_UNDEFINED_STATE;
         HMM_UNDEFINED_STATE]] →
     is_matrix rows cols
       [[HMM_UNDEFINED_STATE; 0%N; HMM_UNDEFINED_STATE; HMM_UNDEFINED_STATE]]) ∧
  (∀ i j, i ≠ 0%N ∨ j ≠ 1%N →
     mat_at [[0; 0.375; 0; 0]]%float i j = mat_at [[0; 0; 0; 0]]%float i j ∧
     mat_at [[HMM_UNDEFINED_STATE; 0%N; HMM_UNDEFINED_STATE; HMM_UNDEFINED_STATE]] i j
     = mat_at [[HMM_UNDEFINED_STATE; HMM_UNDEFINED_STATE; HMM_UNDEFINED_STATE;
                HMM_UNDEFINED_STATE]] i j) ∧
  ∃ symbol b v,
    symbolAt one_step_data 0 = Some symbol ∧
    FindBestTransitionSource 0 1 symbol chain_model [[0; 0; 0; 0]]%float = Some b ∧
    CalcNewStateProbability 0 b 1 symbol chain_model [[0; 0; 0; 0]]%float = Some v ∧
    mat_at [[0; 0.375; 0; 0]]%float 0 1 = Some v ∧
    mat_at [[HMM_UNDEFINED_STATE; 0%N; HMM_UNDEFINED_STATE; HMM_UNDEFINED_STATE]] 0 1
    = Some b.
Proof.
  apply (viterbi_cell_writes_one_cell chain_model one_step_data 0 1).
  vm_compute. reflexivity.
Defined.

(** X21.  The decoder reads a model through [transitionProb] and
    [stateSymbolProb] only: two models with the same two tables decode
    every observation sequence alike, whatever their registries and
    their [alphabetSize] fields. *)
Theorem decoder_reads_tables_only (model1 model2 : Model) (data : ExperimentData) :
  transitionProb model1 = transitionProb model2 →
  stateSymbolProb model1 = stateSymbolProb model2 →
  FindMostProbableStateSequence model1 data = FindMostProbableStateSequence model2 data.
Proof.
  intros Htp Hsp.
  assert (Hcalc : ∀ t p s symbol sp,
    CalcNewStateProbability t p s symbol model1 sp
    = CalcNewStateProbability t p s symbol model2 sp).
  { intros. unfold CalcNewStateProbability. by rewrite Htp, Hsp. }
  assert (Hfind : ∀ t s symbol sp,
    FindBestTransitionSource t s symbol model1 sp
    = FindBestTransitionSource t s symbol model2 sp).
  { intros. unfold FindBestTransitionSource, for_upto. rewrite Htp.
    destruct (t =? 0)%N; [done|]. f_equal.
    apply for_loop_ext. intros p best. unfold scan_step. by rewrite Hcalc. }
  assert (Htab : viterbi_tables model1 data = viterbi_tables model2 data).
  { unfold viterbi_tables, for_upto. rewrite Htp.
    apply for_loop_ext. intros t tables.
    apply for_loop_ext. intros s [sp ps]. unfold viterbi_cell.
    destruct (vec_at (timeStateSymbol data) t) as [tss|]; simpl; [|done].
    rewrite Hfind.
    destruct (FindBestTransitionSource _ _ _ model2 _) as [b|]; simpl; [|done].
    by rewrite Hcalc. }
  unfold FindMostProbableStateSequence. by rewrite Htab.
Qed.

Lemma decoder_reads_tables_only_witness :
  FindMostProbableStateSequence chain_model chain_data
  = FindMostProbableStateSequence
      {| stateNameToIndex := ∅; alphabetSize := 0;
         transitionProb := transitionProb chain_model;
         stateSymbolProb := stateSymbolProb chain_model |} chain_data.
Proof.
  apply (decoder_reads_tables_only chain_model
           {| stateNameToIndex := ∅; alphabetSize := 0;
              transitionProb := transitionProb chain_model;
              stateSymbolProb := stateSymbolProb chain_model |} chain_data);
    reflexivity.
Defined.

(** X22.  For a model with at least one state whose [stateSymbolProb] has
    [alphabetSize] columns, an observation whose symbol index is not
    below [alphabetSize] makes the decoder read [stateSymbolProb] out of
    range: it has no result. *)
Theorem symbol_outside_alphabet_aborts (model : Model) (data : ExperimentData)
    (t : N) (tss : N * N * N) :
  (1 ≤ nstates model)%N →
  is_matrix (nstates model) (alphabetSize model) (stateSymbolProb model) →
  vec_at (timeStateSymbol data) t = Some tss →
  (alphabetSize model ≤ tss.2)%N →
  FindMostProbableStateSequence model data = None.
Proof.
  intros Hn Hsp Htss Hsym.
  assert (Hnone : mat_at (stateSymbolProb model) 0 tss.2 = None).
  { destruct Hsp as [Hr Hc]. unfold mat_at.
    destruct (vec_at (stateSymbolProb model) 0) as [row|] eqn:Hrow; simpl; [|done].
    assert (Hsz : vec_size row = alphabetSize model)
      by apply (vec_at_Forall _ _ _ _ Hc Hrow).
    unfold vec_at. rewrite decide_False; [done|lia]. }
  assert (Hcell : ∀ tables, viterbi_cell model data t 0 tables = None).
  { intros [sp ps]. unfold viterbi_cell. rewrite Htss. simpl.
    destruct (FindBestTransitionSource _ _ _ _ _) as [b|]; simpl; [|done].
    by rewrite CalcNewStateProbability_no_emission. }
  assert (Htab : viterbi_tables model data = None).
  { unfold viterbi_tables. apply (for_upto_fails _ _ t).
    - by apply vec_at_Some_lt in Htss.
    - intros tables. apply (for_upto_fails _ _ 0%N); [fold (nstates model); lia|done]. }
  unfold FindMostProbableStateSequence. by rewrite Htab.
Qed.

Lemma symbol_outside_alphabet_aborts_witness :
  FindMostProbableStateSequence chain_model {| timeStateSymbol := [(0, 1, 5)]%N |}
  = None.
Proof.
  apply (symbol_outside_alphabet_aborts chain_model
           {| timeStateSymbol := [(0, 1, 5)]%N |} 0 (0, 1, 5)%N).
  - vm_compute. discriminate.
  - exact (proj1 (proj2 (proj2 chain_model_valid))).
  - reflexivity.
  - vm_compute. discriminate.
Defined.

(** X23.  On a valid model and observation sequence the nested loops fill
    two tables of [maxtime] rows and [nstates] columns, and every entry
    of [sequenceProbability] is a probability: between 0 and 1, never a
    NaN or an infinity, each product being rounded to binary64. *)
Theorem path_scores_are_probabilities (model : Model) (data : ExperimentData) :
  valid_model model → valid_data model data →
  ∃ sp ps, viterbi_tables model data = Some (sp, ps) ∧
           is_matrix (maxtime data) (nstates model) sp ∧
           is_matrix (maxtime data) (nstates model) ps ∧
           ∀ t s, (t < maxtime data)%N → (s < nstates model)%N →
                  ∃ v, mat_at sp t s = Some v ∧ is_prob v = true.
Proof.
  intros Hmodel Hdata.
  destruct (viterbi_tables_defined model data Hmodel Hdata)
    as (sp & ps & Htab & (Hsp & Hps & _) & Hprob).
  exists sp, ps. split; [done|]. split; [done|]. split; [done|].
  intros t s Ht Hs. cbn [fst] in Hsp.
  destruct (mat_at_is_matrix sp _ _ t s Hsp Ht Hs) as (row & v & _ & _ & _ & Hv).
  exists v. split; [done|]. by apply (mat_at_prob _ _ _ _ Hprob Hv).
Qed.

Lemma path_scores_are_probabilities_witness :
  ∃ sp ps, viterbi_tables chain_model chain_data = Some (sp, ps) ∧
           is_matrix (maxtime chain_data) (nstates chain_model) sp ∧
           is_matrix (maxtime chain_data) (nstates chain_model) ps ∧
           ∀ t s, (t < maxtime chain_data)%N → (s < nstates chain_model)%N →
                  ∃ v, mat_at sp t s = Some v ∧ is_prob v = true.
Proof.
  exact (path_scores_are_probabilities chain_model chain_data
           chain_model_valid chain_data_valid).
Defined.

(* ================================================================== *)
(** * Decoding over finite weights *)

Section FiniteFacts.

Lemma Prim2SF_minus_one :
  Prim2SF (-1)%float = S754_finite true 4503599627370496 (-52).
Proof. reflexivity. Qed.

Lemma zero_is_finite (x : float) : zero_double x → finite_double x.
Proof. unfold zero_double, finite_double. by destruct (Prim2SF x). Qed.

Lemma zero_mul_finite (x y : float) :
  zero_double x → finite_double y → zero_double (x * y).
Proof.
  unfold zero_double, finite_double. rewrite mul_spec.
  destruct (Prim2SF x); try done. destruct (Prim2SF y); done.
Qed.

Lemma finite_mul_zero (x y : float) :
  finite_double x → zero_double y → zero_double (x * y).
Proof.
  unfold zero_double, finite_double. rewrite mul_spec.
  destruct (Prim2SF y); try done. destruct (Prim2SF x); done.
Qed.

(** A product with a zero is a zero or a NaN. *)
Lemma mul_zero_cases (x y : float) :
  zero_double y → zero_double (x * y) ∨ Prim2SF (x * y) = S754_nan.
Proof.
  unfold zero_double. rewrite mul_spec.
  destruct (Prim2SF y); try done. intros _.
  destruct (Prim2SF x); simpl; first [by left|by right].
Qed.

Lemma zero_above_minus_one (c : float) : zero_double c → ((-1) <? c)%float = true.
Proof.
  unfold zero_double. rewrite ltb_spec, Prim2SF_minus_one.
  by destruct (Prim2SF c).
Qed.

Lemma above_minus_one_not_nan (v : float) :
  ((-1) <? v)%float = true → Prim2SF v ≠ S754_nan.
Proof.
  rewrite ltb_spec, Prim2SF_minus_one. intros H Hnan. by rewrite Hnan in H.
Qed.

Lemma zero_double_zero : zero_double 0.
Proof. unfold zero_double. by rewrite Prim2SF_zero. Qed.

End FiniteFacts.

Section SilentStart.
Variables (model : Model) (data : ExperimentData).
Hypothesis Hmodel : start_silent model.
Hypothesis Hdata : valid_data model data.

(** The body of the nested loops over finite weights: the score of START
    stays a zero, so the scan of the next step always finds a score
    above -1. *)
Lemma viterbi_cell_silent (t0 k : N) (sp : list (list float)) (ps : list (list N)) :
  (t0 < maxtime data)%N → (k < nstates model)%N →
  is_matrix (maxtime data) (nstates model) sp →
  is_matrix (maxtime data) (nstates model) ps →
  (∀ t, filled t0 k t 0 → ∃ z, mat_at sp t 0 = Some z ∧ zero_double z) →
  ∃ sp' ps', viterbi_cell model data t0 k (sp, ps) = Some (sp', ps') ∧
             is_matrix (maxtime data) (nstates model) sp' ∧
             is_matrix (maxtime data) (nstates model) ps' ∧
             (∀ t, filled t0 (N.succ k) t 0 →
                   ∃ z, mat_at sp' t 0 = Some z ∧ zero_double z).
Proof.
  intros Ht0 Hk Hsp Hps Hzero.
  destruct Hmodel as (Hn & Htp & Hem & Hftp & Hfem & Hsilent).
  destruct (symbolAt_valid model data Hdata t0 Ht0) as (tss & Htss & _ & Hsymlt).
  destruct (mat_at_is_matrix _ _ _ k tss.2 Hem Hk Hsymlt) as (ry & y & _ & _ & _ & Hy).
  assert (Hfy : finite_double y) by apply (mat_at_Forall _ _ _ _ _ Hfem Hy).
  assert (Hbest : ∃ b v,
    FindBestTransitionSource t0 k tss.2 model sp = Some b ∧
    CalcNewStateProbability t0 b k tss.2 model sp = Some v ∧
    (k = 0%N → zero_double v)).
  { unfold FindBestTransitionSource. destruct (N.eqb_spec t0 0) as [->|Hne].
    - destruct (mat_at_is_matrix _ _ _ 0 k Htp) as (rx & x & _ & _ & _ & Hx); [lia|done|].
      exists 0%N, (1 * x * y)%float. split; [done|]. split.
      + unfold CalcNewStateProbability. simpl. rewrite Hx, Hy. done.
      + intros ->. rewrite mul_1_l. apply finite_mul_zero.
        * apply (mat_at_Forall _ _ _ _ _ Hftp Hx).
        * by apply (Hsilent tss.2).
    - fold (nstates model).
      assert (Hdef : ∀ p, (p < nstates model)%N →
        ∃ a x, mat_at sp (t0 - 1) p = Some a ∧
               mat_at (transitionProb model) p k = Some x ∧ finite_double x ∧
               candidate model sp t0 k tss.2 p = Some (a * x * y)%float).
      { intros p Hp.
        destruct (mat_at_is_matrix sp _ _ (t0 - 1) p Hsp) as (ra & a & _ & _ & _ & Ha);
          [lia|done|].
        destruct (mat_at_is_matrix _ _ _ p k Htp Hp Hk) as (rx & x & _ & _ & _ & Hx).
        exists a, x. split; [done|]. split; [done|].
        split; [apply (mat_at_Forall _ _ _ _ _ Hftp Hx)|].
        unfold candidate. by rewrite Ha, Hx, Hy. }
      destruct (scan_defined
        (λ p, CalcNewStateProbability t0 p k tss.2 model sp) (nstates model)
        ((-1)%float, HMM_UNDEFINED_STATE)) as [[v b] Hscan].
      { intros p Hp. rewrite CalcNewStateProbability_candidate by lia.
        destruct (Hdef p Hp) as (a & x & _ & _ & _ & ->). by eexists. }
      rewrite Hscan. simpl. exists b, v. split; [done|].
      pose proof (scan_above_init _ _ _ _ Hscan) as Habove.
      apply scan_result in Hscan as [Hseen [[= -> ->]|(Hb & Hv & _)]].
      + exfalso. destruct (Hseen 0%N) as (c & Hc & Hcmp); [lia|].
        rewrite CalcNewStateProbability_candidate in Hc by lia.
        destruct (Hdef 0%N) as (a & x & Ha & Hx & Hfx & Hcand); [lia|].
        destruct (Hzero (t0 - 1)%N) as (z & Hz & Hzz); [unfold filled; lia|].
        assert (a = z) as -> by congruence.
        rewrite Hcand in Hc. injection Hc as <-.
        rewrite zero_above_minus_one in Hcmp; [done|].
        apply zero_mul_finite; [|done]. by apply zero_mul_finite.
      + split; [done|]. intros ->.
        destruct Habove as [[= -> ->]|Habove].
        * rewrite HMM_UNDEFINED_STATE_eq in Hb. lia.
        * simpl in Habove. rewrite CalcNewStateProbability_candidate in Hv by lia.
          destruct (Hdef b Hb) as (a & x & _ & _ & _ & Hcand).
          rewrite Hcand in Hv. injection Hv as <-.
          destruct (mul_zero_cases (a * x) y) as [Hz|Hnan]; [|done|].
          -- by apply (Hsilent tss.2).
          -- by apply above_minus_one_not_nan in Habove. }
  destruct Hbest as (b & v & Hfind & Hcalc & Hvz).
  destruct (mat_set_is_matrix sp _ _ t0 k v Hsp Ht0 Hk) as (sp' & Hset & Hsp').
  destruct (mat_set_is_matrix ps _ _ t0 k b Hps Ht0 Hk) as (ps' & Hset' & Hps').
  exists sp', ps'. split.
  { unfold viterbi_cell. rewrite Htss. simpl.
    rewrite Hfind. simpl. rewrite Hcalc. simpl. rewrite Hset. simpl.
    by rewrite Hset'. }
  split; [done|]. split; [done|].
  apply mat_set_Some in Hset as (_ & Hrows & Hrow & Hnew & _).
  intros t Hf. unfold filled in Hf.
  destruct (decide (t = t0)) as [->|Hne].
  - destruct (decide (k = 0%N)) as [->|Hk0].
    + exists v. split; [done|]. by apply Hvz.
    + rewrite Hrow by done. apply Hzero. unfold filled. lia.
  - rewrite (mat_at_row_eq sp sp') by (by apply Hrows).
    apply Hzero. unfold filled. lia.
Qed.

Lemma viterbi_tables_silent :
  ∃ sp ps, viterbi_tables model data = Some (sp, ps).
Proof.
  assert (Hn : (1 ≤ nstates model)%N) by (by destruct Hmodel as ([? ?] & _)).
  set (I := λ (t0 k : N) (tables : list (list float) * list (list N)),
    is_matrix (maxtime data) (nstates model) tables.1 ∧
    is_matrix (maxtime data) (nstates model) tables.2 ∧
    ∀ t, filled t0 k t 0 → ∃ z, mat_at tables.1 t 0 = Some z ∧ zero_double z).
  unfold viterbi_tables. fold (nstates model) (maxtime data).
  destruct (for_upto_total (λ t, I t 0%N)
    (λ t, for_upto (nstates model) (viterbi_cell model data t)) (maxtime data)
    (replicate (N.to_nat (maxtime data))
       (replicate (N.to_nat (nstates model)) 0%float),
     replicate (N.to_nat (maxtime data))
       (replicate (N.to_nat (nstates model)) HMM_UNDEFINED_STATE)))
    as ([sp ps] & Hrun & _).
  - split; [apply is_matrix_replicate|]. split; [apply is_matrix_replicate|].
    intros t Hf. unfold filled in Hf. lia.
  - intros t tables Ht Hinv.
    destruct (for_upto_total (I t) (viterbi_cell model data t) (nstates model) tables)
      as (tables' & Hinner & (H1 & H2 & H3)); [done| |].
    + intros k [sp ps] Hk (H1 & H2 & H3). cbn [fst snd] in H1, H2, H3.
      destruct (viterbi_cell_silent t k sp ps) as (sp' & ps' & Hcell & ?);
        [done..|].
      by exists (sp', ps').
    + exists tables'. split; [done|]. split; [done|]. split; [done|].
      intros t' Hf. apply H3. unfold filled in *. lia.
  - by exists sp, ps.
Qed.

(** Over finite weights with a silent START the decoder returns. *)
Lemma decoder_defined_silent :
  (1 ≤ maxtime data)%N → is_Some (FindMostProbableStateSequence model data).
Proof.
  intros Hmax.
  assert (Hn : (1 ≤ nstates model ≤ SIZE_MAX)%N) by (by destruct Hmodel as (? & _)).
  assert (Hfit : (1 ≤ maxtime data < 9223372036854775808)%N)
    by (destruct Hdata as [? _]; lia).
  destruct viterbi_tables_silent as (sp & ps & Htab).
  pose proof (viterbi_tables_run model data (proj2 Hn) sp ps Htab) as Hinv.
  pose proof (back_pointers_in_range model data (proj2 Hn) sp ps (proj1 Hn) Hinv)
    as Hptr.
  destruct Hinv as (Hsp & _). cbn [fst] in Hsp.
  unfold FindMostProbableStateSequence. rewrite Htab. simpl.
  fold (maxtime data). destruct (last_step _ Hfit) as [-> ->].
  destruct (mat_at_is_matrix sp _ _ (maxtime data - 1) 0 Hsp)
    as (lastRow & x & Hrow & _); [lia..|].
  rewrite Hrow. simpl.
  destruct (last_row_max model data sp lastRow _ (proj1 Hn) Hsp Hrow) as (v & Hlt & _).
  destruct (recover_defined ps (nstates model) (Z.to_nat (Z.of_N (maxtime data) - 1))
              (max_element lastRow) []) as [[cur' path] Hrec]; [|done|].
  - intros t s Ht Hs. apply Hptr; [lia|done].
  - rewrite Hrec. simpl. by eexists.
Qed.

End SilentStart.

(** X24.  The entries of a model need not be probabilities for the decoder
    to return.  When the tables have the shapes over [nstates >= 1] and
    [alphabetSize], every entry is finite (of any sign and size), and
    START emits nothing (row 0 of [stateSymbolProb] is zero), then for
    at least one observation with symbols inside the alphabet the
    decoder returns a sequence of [maxtime] state indices below
    [nstates]: the score of START is a zero at every step, so every scan
    meets a score above -1 and never ends on [HMM_UNDEFINED_STATE]. *)
Theorem decoder_returns_on_finite_weights (model : Model) (data : ExperimentData) :
  start_silent model → valid_data model data → (1 ≤ maxtime data)%N →
  ∃ seq, FindMostProbableStateSequence model data = Some seq ∧
         vec_size seq = maxtime data ∧
         Forall (λ x, (x < nstates model)%N) seq.
Proof.
  intros Hmodel Hdata Hmax.
  assert (Hn : (1 ≤ nstates model ≤ SIZE_MAX)%N) by (by destruct Hmodel as (? & _)).
  assert (Hfit : (1 ≤ maxtime data < 9223372036854775808)%N)
    by (destruct Hdata as [? _]; lia).
  destruct (decoder_defined_silent model data Hmodel Hdata Hmax) as [seq Hseq].
  exists seq. split; [done|]. split.
  - by apply (decoder_length model data).
  - by apply (decoder_in_range model data).
Qed.

Lemma weights_model_silent : start_silent weights_model.
Proof.
  split; [vm_compute; split; discriminate|].
  split; [split; [done|repeat constructor]|].
  split; [split; [done|repeat constructor]|].
  split; [repeat constructor|]. split; [repeat constructor|].
  intros symbol x.
  change (mat_at (stateSymbolProb weights_model) 0 symbol) with (vec_at [0%float] symbol).
  intros Hx. apply (vec_at_Forall zero_double [0%float] symbol x); [|done].
  repeat constructor.
Qed.

Lemma weights_data_valid : valid_data weights_model weights_data.
Proof. split; [done|]. repeat constructor. Qed.

Lemma decoder_returns_on_finite_weights_witness :
  ∃ seq, FindMostProbableStateSequence weights_model weights_data = Some seq ∧
         vec_size seq = maxtime weights_data ∧
         Forall (λ x, (x < nstates weights_model)%N) seq.
Proof.
  apply (decoder_returns_on_finite_weights weights_model weights_data).
  - exact weights_model_silent.
  - exact weights_data_valid.
  - vm_compute. discriminate.
Defined.

(** X25.  A model [ReadModel] returns from a source with at least one
    state and finite values has finite entries and a START state that
    emits nothing; so the decoder returns on it for every non-empty
    observation sequence whose symbols are inside the alphabet, whether
    or not the values are probabilities. *)
Theorem reader_built_model_decodes (self : Model) (modelSource : ModelSource)
    (model : Model) :
  ReadModel self modelSource = Returns model →
  (1 ≤ vec_size (src_states modelSource) ≤ SIZE_MAX)%N →
  Forall (λ tr : string * string * float, finite_double tr.2)
    (src_transitions modelSource) →
  Forall (λ em : string * string * float, finite_double em.2)
    (src_emissions modelSource) →
  start_silent model ∧
  ∀ data, valid_data model data → (1 ≤ maxtime data)%N →
          ∃ seq, FindMostProbableStateSequence model data = Some seq.
Proof.
  intros Hret Hn Htrs Hems.
  pose proof (ReadModel_shape _ _ _ Hret) as (Hns & Htp & Hsp & Has & _).
  destruct (ReadModel_returns _ _ _ Hret) as (reg1 & reg2 & Hrun1 & Hrun2 & HR1 & _).
  apply (read_transitions_table self modelSource) in Hrun1 as (_ & _ & HP1 & _); [|done].
  apply (read_emissions_table self modelSource) in Hrun2 as (_ & HP2 & _ & Hrow0 & _);
    [|done].
  assert (Hzeros : ∀ rows cols,
    Forall (Forall zero_double)
      (replicate (N.to_nat rows) (replicate (N.to_nat cols) 0%float))).
  { intros. apply Forall_replicate, Forall_replicate, zero_double_zero. }
  assert (Hfinite : ∀ rows cols,
    Forall (Forall finite_double)
      (replicate (N.to_nat rows) (replicate (N.to_nat cols) 0%float))).
  { intros. apply Forall_replicate, Forall_replicate, zero_is_finite, zero_double_zero. }
  assert (Hsilent : start_silent model).
  { unfold start_silent. rewrite Hns, Has.
    split; [done|]. split; [done|]. split; [done|].
    split; [by apply (HP1 finite_double)|]. split; [by apply (HP2 finite_double)|].
    intros symbol x. rewrite Hrow0. apply mat_at_Forall, Hzeros. }
  split; [done|]. intros data Hdata Hmax.
  by apply (decoder_defined_silent model data).
Qed.

Lemma reader_built_model_decodes_witness :
  start_silent weights_model ∧
  ∀ data, valid_data weights_model data → (1 ≤ maxtime data)%N →
          ∃ seq, FindMostProbableStateSequence weights_model data = Some seq.
Proof.
  apply (reader_built_model_decodes Model_new weights_source weights_model).
  - vm_compute. reflexivity.
  - vm_compute. split; discriminate.
  - repeat constructor.
  - repeat constructor.
Defined.
